(** * Research agent: orchestration loop, chat flow and model-response handling

    A shallow embedding of the TypeScript sources
    - [src/services/geminiService.ts] (parseJson, generateResearchPlan,
      searchWithGrounding, ...),
    - the [DeepSeekAgent] component (resetState, runPlanning,
      runSearchAndEvaluateLoop, runSynthesis, handleResearch),
    - the [ChatBot] component (handleSend),
    together with the properties the specification states about them.

    JavaScript strings are sequences of UTF-16 code units, asynchronous
    functions are programs of a small state-and-exception monad, and the hosted
    model is an oracle whose answers are arbitrary. *)

From Stdlib Require Import List Bool Arith NArith ZArith QArith Qabs Lia.
From Stdlib Require Import Ascii String DecimalString.
Import ListNotations.

Set Implicit Arguments.
Set Warnings "-register-all".
Local Open Scope N_scope.
Local Open Scope list_scope.

(* ================================================================== *)
(** ** JavaScript strings *)
(* ================================================================== *)

Module JsString.

(** A string value is its sequence of UTF-16 code units. *)
Definition code_unit := N.
Definition jsstring := list code_unit.

(** An ASCII literal of the source, as code units. *)
Definition js (s : string) : jsstring :=
  map N_of_ascii (list_ascii_of_string s).

Definition LF : code_unit := 10.
Definition DQUOTE : code_unit := 34.
Definition BACKTICK : code_unit := 96.

(** [a === b] on strings. *)
Fixpoint eqb (a b : jsstring) : bool :=
  match a, b with
  | [], [] => true
  | x :: a', y :: b' => N.eqb x y && eqb a' b'
  | _, _ => false
  end.

(** Decimal rendering of a non-negative integer, as in [`${n}`]. *)
Definition of_nat (n : nat) : jsstring :=
  js (NilEmpty.string_of_uint (Nat.to_uint n)).

(** A string is falsy exactly when it is empty. *)
Definition truthy (s : jsstring) : bool :=
  match s with [] => false | _ :: _ => true end.

(** [a || b] on strings. *)
Definition or_else (a b : jsstring) : jsstring :=
  if truthy a then a else b.

(** The code units [String.prototype.trim] removes: WhiteSpace (TAB, VT, FF,
    ZWNBSP and the Unicode space separators) and LineTerminator (LF, CR, LS,
    PS). *)
Definition isWhiteSpace (c : code_unit) : bool :=
  (c =? 9) || (c =? 10) || (c =? 11) || (c =? 12) || (c =? 13) ||
  (c =? 32) || (c =? 160) || (c =? 5760) ||
  ((8192 <=? c) && (c <=? 8202)) ||
  (c =? 8232) || (c =? 8233) || (c =? 8239) || (c =? 8287) ||
  (c =? 12288) || (c =? 65279).

Fixpoint trimStart (s : jsstring) : jsstring :=
  match s with
  | [] => []
  | c :: s' => if isWhiteSpace c then trimStart s' else s
  end.

Definition trimEnd (s : jsstring) : jsstring :=
  rev (trimStart (rev s)).

(** [s.trim()] *)
Definition trim (s : jsstring) : jsstring := trimEnd (trimStart s).

(** [p] is a prefix of [s]. *)
Fixpoint startsWith (p s : jsstring) : bool :=
  match p, s with
  | [], _ => true
  | _ :: _, [] => false
  | x :: p', y :: s' => N.eqb x y && startsWith p' s'
  end.

(** [s.replace(/pat/g, rep)] for a pattern that is a non-empty literal: the
    matches are found left to right and do not overlap; the scan resumes after
    each match. [skip] counts the code units of the current match that are
    still to be passed over. *)
Fixpoint replace_from (pat rep : jsstring) (skip : nat) (s : jsstring)
  : jsstring :=
  match s with
  | [] => []
  | c :: s' =>
      match skip with
      | S k => replace_from pat rep k s'
      | O =>
          if startsWith pat s
          then rep ++ replace_from pat rep (Nat.pred (List.length pat)) s'
          else c :: replace_from pat rep O s'
      end
  end.

Definition replace_all (pat rep s : jsstring) : jsstring :=
  replace_from pat rep O s.

(** [s.includes(p)]: [p] occurs in [s]. *)
Fixpoint includes (p s : jsstring) : bool :=
  startsWith p s ||
  match s with
  | [] => false
  | _ :: s' => includes p s'
  end.

(** Only code units that [trim] removes. *)
Definition blank (s : jsstring) : Prop := forallb isWhiteSpace s = true.

(** The code unit [c] does not occur in [s]. *)
Definition free_of (c : code_unit) (s : jsstring) : Prop :=
  existsb (N.eqb c) s = false.

End JsString.
Import JsString.

(* ================================================================== *)
(** ** Settled promises and insertion-ordered maps *)
(* ================================================================== *)

(** An [Error] object is its message. *)
Definition js_error := jsstring.

(** What awaiting a promise gives: the value it was fulfilled with, or the
    error it was rejected with (and that [await] throws). Also the outcome of
    a block of code that may throw. *)
Inductive outcome (A : Type) : Type :=
  | Ok (a : A)
  | Err (e : js_error).
Arguments Ok {A} a.
Arguments Err {A} e.

Definition rbind {A B} (r : outcome A) (k : A -> outcome B) : outcome B :=
  match r with
  | Ok a => k a
  | Err e => Err e
  end.

(** [try { body } catch (e) { handler }] *)
Definition rcatch {A} (body : outcome A) (handler : js_error -> outcome A)
  : outcome A :=
  match body with
  | Ok a => Ok a
  | Err e => handler e
  end.

Module JsMap.

(** A [Map] with string keys: its entries in insertion order. *)
Definition t (V : Type) := list (jsstring * V).

Fixpoint get {V} (k : jsstring) (m : t V) : option V :=
  match m with
  | [] => None
  | (k', v) :: m' => if JsString.eqb k k' then Some v else get k m'
  end.

(** [m.set(k, v)]: a key already present keeps its place and takes the new
    value, a new key goes last. *)
Fixpoint set {V} (k : jsstring) (v : V) (m : t V) : t V :=
  match m with
  | [] => [(k, v)]
  | (k', v') :: m' =>
      if JsString.eqb k k' then (k', v) :: m' else (k', v') :: set k v m'
  end.

(** [new Map(entries)]: the entries are set one after the other. *)
Definition from_entries {V} (entries : list (jsstring * V)) : t V :=
  fold_left (fun m e => set (fst e) (snd e) m) entries [].

(** [Array.from(m.values())] *)
Definition values {V} (m : t V) : list V := map snd m.

Definition keys {V} (m : t V) : list jsstring := map fst m.

End JsMap.

(* ================================================================== *)
(** ** JSON values and [JSON.parse] *)
(* ================================================================== *)

Module JSON.

(** JavaScript values as far as [JSON.parse] builds them, and [undefined],
    which reading an absent property gives. A number carries the rational its
    literal denotes, flushed to zero when the nearest double is zero: the
    program only ever observes whether a number is zero (truthiness). An
    object is its own properties in creation order. *)
Inductive value : Type :=
  | JUndefined
  | JNull
  | JBool (b : bool)
  | JNum (q : Q)
  | JStr (s : jsstring)
  | JArr (items : list value)
  | JObj (members : JsMap.t value).

(** ToBoolean. *)
Definition truthy (v : value) : bool :=
  match v with
  | JUndefined | JNull => false
  | JBool b => b
  | JNum q => negb (Qeq_bool q 0)
  | JStr s => JsString.truthy s
  | JArr _ | JObj _ => true
  end.

(** The message of a TypeError (its wording depends on the engine). *)
Definition TypeError : js_error := js "TypeError".

(** [v.name] for a name that no prototype defines ([plan], [queries], ...):
    an own property of an object, [undefined] on arrays and primitives, a
    TypeError on [null] and [undefined]. *)
Definition get (v : value) (name : jsstring) : outcome value :=
  match v with
  | JUndefined | JNull => Err TypeError
  | JObj ms =>
      match JsMap.get name ms with
      | Some x => Ok x
      | None => Ok JUndefined
      end
  | _ => Ok JUndefined
  end.

(** *** The grammar of ECMA-404 *)

Definition is_ws (c : code_unit) : bool :=
  (c =? 32) || (c =? 9) || (c =? 10) || (c =? 13).

Fixpoint skip_ws (s : jsstring) : jsstring :=
  match s with
  | [] => []
  | c :: s' => if is_ws c then skip_ws s' else s
  end.

Definition is_digit (c : code_unit) : bool := (48 <=? c) && (c <=? 57).

Definition hexval (c : code_unit) : option N :=
  if is_digit c then Some (c - 48)
  else if (97 <=? c) && (c <=? 102) then Some (c - 87)
  else if (65 <=? c) && (c <=? 70) then Some (c - 55)
  else None.

Definition hex4 (a b c d : code_unit) : option code_unit :=
  match hexval a, hexval b, hexval c, hexval d with
  | Some x, Some y, Some z, Some w => Some (((x * 16 + y) * 16 + z) * 16 + w)
  | _, _, _, _ => None
  end.

(** The character a two-character escape stands for. *)
Definition simple_escape (e : code_unit) : option code_unit :=
  if e =? 34 then Some 34          (* quotation mark *)
  else if e =? 92 then Some 92     (* reverse solidus *)
  else if e =? 47 then Some 47     (* solidus *)
  else if e =? 98 then Some 8      (* b: backspace *)
  else if e =? 102 then Some 12    (* f: form feed *)
  else if e =? 110 then Some 10    (* n: line feed *)
  else if e =? 114 then Some 13    (* r: carriage return *)
  else if e =? 116 then Some 9     (* t: tab *)
  else None.

(** The characters of a string after its opening quote, up to and including
    the closing quote. *)
Fixpoint parse_chars (s acc : jsstring) : option (jsstring * jsstring) :=
  match s with
  | [] => None
  | c :: r =>
      if c =? 34 then Some (rev acc, r)
      else if c =? 92 then
        match r with
        | [] => None
        | e :: r' =>
            match simple_escape e with
            | Some x => parse_chars r' (x :: acc)
            | None =>
                if e =? 117 then
                  match r' with
                  | h1 :: h2 :: h3 :: h4 :: r'' =>
                      match hex4 h1 h2 h3 h4 with
                      | Some u => parse_chars r'' (u :: acc)
                      | None => None
                      end
                  | _ => None
                  end
                else None
            end
        end
      else if c <? 32 then None
      else parse_chars r (c :: acc)
  end.

Fixpoint take_digits (s : jsstring) : list N * jsstring :=
  match s with
  | [] => ([], [])
  | c :: r =>
      if is_digit c
      then let (ds, r') := take_digits r in ((c - 48) :: ds, r')
      else ([], s)
  end.

Definition digits_value (ds : list N) : N :=
  fold_left (fun a d => a * 10 + d) ds 0.

(** The integer part: a single zero, or digits that do not start with zero. *)
Definition parse_int (s : jsstring) : option (list N * jsstring) :=
  match s with
  | [] => None
  | c :: r =>
      if c =? 48 then Some ([0], r)
      else if is_digit c then Some (take_digits s)
      else None
  end.

Definition parse_frac (s : jsstring) : option (list N * jsstring) :=
  match s with
  | c :: r =>
      if c =? 46 then
        match take_digits r with
        | ([], _) => None
        | (ds, r') => Some (ds, r')
        end
      else Some ([], s)
  | [] => Some ([], s)
  end.

Definition parse_exp (s : jsstring) : option (Z * jsstring) :=
  match s with
  | c :: r =>
      if (c =? 101) || (c =? 69) then
        let (neg, r1) :=
          match r with
          | x :: r0 =>
              if x =? 45 then (true, r0)
              else if x =? 43 then (false, r0) else (false, r)
          | [] => (false, r)
          end in
        match take_digits r1 with
        | ([], _) => None
        | (ds, r') =>
            let e := Z.of_N (digits_value ds) in
            Some (if neg then Z.opp e else e, r')
        end
      else Some (0%Z, s)
  | [] => Some (0%Z, s)
  end.

(** [m * 10^e] as a rational. *)
Definition scale (m : Z) (e : Z) : Q :=
  if (0 <=? e)%Z then Qmake (m * 10 ^ e)%Z 1
  else Qmake m (Z.to_pos (10 ^ (- e))%Z).

(** Half the smallest positive double: what is not above it rounds to zero. *)
Definition underflow : Q := Qmake 1 (2 ^ 1075)%positive.

Definition to_number (q : Q) : Q :=
  if Qle_bool (Qabs q) underflow then 0%Q else q.

Definition parse_number (s : jsstring) : option (Q * jsstring) :=
  let (neg, s1) :=
    match s with
    | c :: r => if c =? 45 then (true, r) else (false, s)
    | [] => (false, s)
    end in
  match parse_int s1 with
  | None => None
  | Some (ids, s2) =>
      match parse_frac s2 with
      | None => None
      | Some (fds, s3) =>
          match parse_exp s3 with
          | None => None
          | Some (e, s4) =>
              let m := Z.of_N (digits_value (ids ++ fds)) in
              let q := scale (if neg then Z.opp m else m)
                             (e - Z.of_nat (List.length fds)) in
              Some (to_number q, s4)
          end
      end
  end.

Definition parse_literal (s : jsstring) : option (value * jsstring) :=
  if startsWith (js "true") s then Some (JBool true, skipn 4 s)
  else if startsWith (js "false") s then Some (JBool false, skipn 5 s)
  else if startsWith (js "null") s then Some (JNull, skipn 4 s)
  else match parse_number s with
       | Some (q, r) => Some (JNum q, r)
       | None => None
       end.

(** A value, the elements of an array after the first bracket, the members
    of an object after the first brace. The recursion is bounded by [fuel];
    every call that spends fuel without reading is followed by one that
    reads, so twice the length of the text is enough. *)
Fixpoint parse_value (fuel : nat) (s : jsstring) {struct fuel}
  : option (value * jsstring) :=
  match fuel with
  | O => None
  | S f =>
      match skip_ws s with
      | [] => None
      | c :: r =>
          if c =? 123 then
            match skip_ws r with
            | x :: r' => if x =? 125 then Some (JObj [], r')
                         else parse_members f r []
            | [] => None
            end
          else if c =? 91 then
            match skip_ws r with
            | x :: r' => if x =? 93 then Some (JArr [], r')
                         else parse_elements f r []
            | [] => None
            end
          else if c =? 34 then
            match parse_chars r [] with
            | Some (str, r') => Some (JStr str, r')
            | None => None
            end
          else parse_literal (c :: r)
      end
  end

with parse_elements (fuel : nat) (s : jsstring) (acc : list value)
  {struct fuel} : option (value * jsstring) :=
  match fuel with
  | O => None
  | S f =>
      match parse_value f s with
      | None => None
      | Some (v, r) =>
          match skip_ws r with
          | x :: r' =>
              if x =? 44 then parse_elements f r' (v :: acc)
              else if x =? 93 then Some (JArr (rev (v :: acc)), r')
              else None
          | [] => None
          end
      end
  end

with parse_members (fuel : nat) (s : jsstring)
  (acc : list (jsstring * value)) {struct fuel} : option (value * jsstring) :=
  match fuel with
  | O => None
  | S f =>
      match skip_ws s with
      | q :: r =>
          if q =? 34 then
            match parse_chars r [] with
            | None => None
            | Some (k, r1) =>
                match skip_ws r1 with
                | c :: r2 =>
                    if c =? 58 then
                      match parse_value f r2 with
                      | None => None
                      | Some (v, r3) =>
                          match skip_ws r3 with
                          | x :: r4 =>
                              if x =? 44
                              then parse_members f r4 (JsMap.set k v acc)
                              else if x =? 125
                              then Some (JObj (JsMap.set k v acc), r4)
                              else None
                          | [] => None
                          end
                      end
                    else None
                | [] => None
                end
            end
          else None
      | [] => None
      end
  end.

(** [JSON.parse(s)]; [None] stands for the SyntaxError it throws. *)
Definition parse (s : jsstring) : option value :=
  match parse_value (2 * List.length s + 2) s with
  | Some (v, r) =>
      match skip_ws r with
      | [] => Some v
      | _ :: _ => None
      end
  | None => None
  end.

End JSON.
Import JSON.


(* ================================================================== *)
(** ** Data model ([types.ts]) *)
(* ================================================================== *)

Module Types.

Inductive Role := user | model.

Record ChatMessage := { role : Role; msg_text : jsstring }.

Record Source := { uri : jsstring; title : jsstring }.

Record Section_ := { heading : jsstring; content : jsstring }.

Record ResearchReport := {
  report_title : jsstring;
  summary : jsstring;
  sections : list Section_
}.

Record ResearchPlanItem := {
  english_question : jsstring;
  japanese_question : jsstring
}.

Inductive ResearchStage :=
  | IDLE | PLANNING | SEARCHING | EVALUATING | SYNTHESIZING | COMPLETE | ERROR.

End Types.
Import Types.

(* ================================================================== *)
(** ** The service layer ([geminiService.ts]) *)
(* ================================================================== *)

Module GeminiService.

(** The result types the service functions declare. *)
Record SearchResult := { text : jsstring; sources : list Source }.

Record Evaluation := {
  is_complete : bool;
  unanswered_questions : list jsstring;
  reasoning : jsstring
}.

Record RefinedQuery := { english_query : jsstring; japanese_query : jsstring }.

(** *** The hosted model *)

(** The part of a response of [ai.models.generateContent] the code reads:
    [response.text], a string as the code that receives it declares, and,
    through optional chaining,
    [response.candidates?.[0]?.groundingMetadata?.groundingChunks] with
    [chunk.web?.uri] and [chunk.web?.title], where [None] is [undefined]. *)
Record GroundingChunkWeb := {
  web_uri : option jsstring;
  web_title : option jsstring
}.
Record GroundingChunk := { web : option GroundingChunkWeb }.
Record GroundingMetadata := { groundingChunks : option (list GroundingChunk) }.
Record Candidate := { groundingMetadata : option GroundingMetadata }.
Record GenerateContentResponse := {
  response_text : jsstring;
  candidates : option (list Candidate)
}.

(** The five calls of [generateContent], each named by the arguments its
    prompt is built from (model name, system instruction and schema are
    constants of the call site). *)
Inductive Request :=
  | PlanRequest (topic : jsstring)
  | SearchRequest (query : jsstring)
  | EvaluateRequest (plan : list ResearchPlanItem) (searchResults : jsstring)
  | RefineRequest (unansweredQuestions : list jsstring)
  | SynthesizeRequest (topic : jsstring) (searchResults : jsstring).

(** The hosted model: any answer, or a failure, to any request. *)
Definition Remote := Request -> outcome GenerateContentResponse.

(** *** parseJson *)

Definition fence_json : jsstring := js "```json".
Definition fence : jsstring := js "```".

(** A text that may follow an opening fence without the word json: it
    begins neither with a backtick nor with the letter j. *)
Definition plain_start (s : jsstring) : bool :=
  match s with
  | [] => true
  | c :: _ => negb (c =? BACKTICK)%N && negb (c =? 106)%N
  end.

(** [jsonString.replace(/```json/g, '').replace(/```/g, '').trim()] *)
Definition clean (jsonString : jsstring) : jsstring :=
  trim (replace_all fence [] (replace_all fence_json [] jsonString)).

(** [parseJson]: the parsed value, [null] when [JSON.parse] throws. *)
Definition parseJson (jsonString : jsstring) : value :=
  match JSON.parse (clean jsonString) with
  | Some v => v
  | None => JNull
  end.

(** *** generateResearchPlan *)

Definition plan_key : jsstring := js "plan".
Definition queries_key : jsstring := js "queries".

Definition invalid_plan_message : js_error :=
  js "AI failed to generate a valid research plan from the response.".
Definition plan_failure_message : js_error :=
  js "Failed to generate a research plan. The AI model may be temporarily unavailable.".

(** [!v] *)
Definition falsy (v : value) : bool := negb (truthy v).

(** [!result || !result.m]: the property is read only from a truthy value. *)
Definition missing (result : value) (m : jsstring) : outcome bool :=
  if falsy result then Ok true
  else rbind (get result m) (fun x => Ok (falsy x)).

(** The value returned is [result.plan] as parsed: the annotation
    [ResearchPlanItem[]] is not checked when the program runs. *)
Definition generateResearchPlan (remote : Remote) (topic : jsstring)
  : outcome value :=
  rcatch
    (rbind (remote (PlanRequest topic)) (fun response =>
     let result := parseJson (response_text response) in
     rbind (missing result plan_key) (fun bad =>
     if bad then Err invalid_plan_message
     else get result plan_key)))
    (fun _ => Err plan_failure_message).

(** *** searchWithGrounding *)

Definition untitled : jsstring := js "Untitled Source".

(** [chunk.web?.uri || ''] *)
Definition chunk_uri (chunk : GroundingChunk) : jsstring :=
  match web chunk with
  | Some w => match web_uri w with Some u => or_else u [] | None => [] end
  | None => []
  end.

(** [chunk.web?.title || 'Untitled Source'] *)
Definition chunk_title (chunk : GroundingChunk) : jsstring :=
  match web chunk with
  | Some w =>
      match web_title w with Some t => or_else t untitled | None => untitled end
  | None => untitled
  end.

Definition to_source (chunk : GroundingChunk) : Source :=
  {| uri := chunk_uri chunk; title := chunk_title chunk |}.

(** [response.candidates?.[0]?.groundingMetadata?.groundingChunks || []] *)
Definition rawChunks (response : GenerateContentResponse)
  : list GroundingChunk :=
  match candidates response with
  | Some (c :: _) =>
      match groundingMetadata c with
      | Some md =>
          match groundingChunks md with
          | Some chunks => chunks
          | None => []
          end
      | None => []
      end
  | _ => []
  end.

(** [Array.from(new Map(l.map(s => [s.uri, s])).values())] *)
Definition uniqueSources (l : list Source) : list Source :=
  JsMap.values (JsMap.from_entries (map (fun s => (uri s, s)) l)).

(** The last element of [l] with the uri [u]. *)
Definition last_with_uri (u : jsstring) (l : list Source) : option Source :=
  find (fun x => JsString.eqb u (uri x)) (rev l).

Definition search_failure_message (query : jsstring) : js_error :=
  js "Failed to search the web for: " ++ [DQUOTE] ++ query ++ [DQUOTE]
     ++ js ".".

Definition searchWithGrounding (remote : Remote) (query : jsstring)
  : outcome SearchResult :=
  rcatch
    (rbind (remote (SearchRequest query)) (fun response =>
     let text := response_text response in
     let sources :=
       filter (fun source => JsString.truthy (uri source))
              (map to_source (rawChunks response)) in
     Ok {| text := text; sources := uniqueSources sources |}))
    (fun _ => Err (search_failure_message query)).

(** *** evaluateCompleteness, refineSearchQueries, synthesizeReport *)

Definition unparsable_evaluation_message : js_error :=
  js "AI returned an unparsable response for completeness evaluation.".
Definition evaluation_failure_message : js_error :=
  js "AI failed to evaluate the completeness of the search results.".

Definition is_null (v : value) : bool :=
  match v with JNull => true | _ => false end.

Definition evaluateCompleteness (remote : Remote)
  (plan : list ResearchPlanItem) (searchResults : jsstring) : outcome value :=
  rcatch
    (rbind (remote (EvaluateRequest plan searchResults)) (fun response =>
     let result := parseJson (response_text response) in
     if is_null result then Err unparsable_evaluation_message
     else Ok result))
    (fun _ => Err evaluation_failure_message).

Definition invalid_queries_message : js_error :=
  js "AI failed to generate valid refined search queries from the response.".
Definition refine_failure_message : js_error :=
  js "AI failed to generate new search queries.".

Definition refineSearchQueries (remote : Remote)
  (unansweredQuestions : list jsstring) : outcome value :=
  rcatch
    (rbind (remote (RefineRequest unansweredQuestions)) (fun response =>
     let result := parseJson (response_text response) in
     rbind (missing result queries_key) (fun bad =>
     if bad then Err invalid_queries_message
     else get result queries_key)))
    (fun _ => Err refine_failure_message).

Definition unparsable_report_message : js_error :=
  js "Failed to parse the synthesized report from the AI's response.".
Definition synthesis_failure_message : js_error :=
  js "The AI failed to synthesize the final report. This may be due to the complexity of the topic or an issue with the underlying data.".

Definition synthesizeReport (remote : Remote)
  (topic searchResults : jsstring) : outcome value :=
  rcatch
    (rbind (remote (SynthesizeRequest topic searchResults)) (fun response =>
     let result := parseJson (response_text response) in
     if falsy result then Err unparsable_report_message
     else Ok result))
    (fun _ => Err synthesis_failure_message).

(** Two answers of the hosted model that [parseJson] does not tell apart. *)
Definition same_json (r1 r2 : outcome GenerateContentResponse) : Prop :=
  match r1, r2 with
  | Ok a, Ok b => parseJson (response_text a) = parseJson (response_text b)
  | Err _, Err _ => True
  | _, _ => False
  end.

(** *** The declared shape of a plan *)

Definition as_string (v : value) : option jsstring :=
  match v with JStr s => Some s | _ => None end.

(** A value that is a [ResearchPlanItem]: an object with the two questions
    as strings. *)
Definition as_plan_item (v : value) : option ResearchPlanItem :=
  match v with
  | JObj ms =>
      match JsMap.get (js "english_question") ms,
            JsMap.get (js "japanese_question") ms with
      | Some e, Some j =>
          match as_string e, as_string j with
          | Some e', Some j' =>
              Some {| english_question := e'; japanese_question := j' |}
          | _, _ => None
          end
      | _, _ => None
      end
  | _ => None
  end.

Fixpoint as_items (vs : list value) : option (list ResearchPlanItem) :=
  match vs with
  | [] => Some []
  | v :: vs' =>
      match as_plan_item v, as_items vs' with
      | Some i, Some is' => Some (i :: is')
      | _, _ => None
      end
  end.

(** A value that is a [ResearchPlanItem[]]. *)
Definition as_plan (v : value) : option (list ResearchPlanItem) :=
  match v with
  | JArr items => as_items items
  | _ => None
  end.

End GeminiService.

(* ================================================================== *)
(** ** Asynchronous functions over component state *)
(* ================================================================== *)

Module Async.

(** A program over a store [S]: it ends by returning or by throwing, in a
    store; [None] means that the bound on loop iterations the caller gave
    was used up before the program ended. *)
Definition M (S A : Type) : Type := S -> option (outcome A * S).

Definition ret {S A} (a : A) : M S A := fun s => Some (Ok a, s).

Definition throw {S A} (e : js_error) : M S A := fun s => Some (Err e, s).

Definition out_of_fuel {S A} : M S A := fun _ => None.

Definition bind {S A B} (m : M S A) (k : A -> M S B) : M S B :=
  fun s =>
    match m s with
    | Some (Ok a, s') => k a s'
    | Some (Err e, s') => Some (Err e, s')
    | None => None
    end.

(** [try { body } catch (e) { handler e }] *)
Definition try_catch {S A} (body : M S A) (handler : js_error -> M S A)
  : M S A :=
  fun s =>
    match body s with
    | Some (Ok a, s') => Some (Ok a, s')
    | Some (Err e, s') => handler e s'
    | None => None
    end.

(** [try { body } finally { fin }]: [fin] runs on both exits and the exit of
    [body] stands unless [fin] throws. *)
Definition try_finally {S A} (body : M S A) (fin : M S unit) : M S A :=
  fun s =>
    match body s with
    | Some (r, s') =>
        match fin s' with
        | Some (Ok _, s'') => Some (r, s'')
        | Some (Err e, s'') => Some (Err e, s'')
        | None => None
        end
    | None => None
    end.

Definition gets {S A} (f : S -> A) : M S A := fun s => Some (Ok (f s), s).

Definition modify {S} (f : S -> S) : M S unit := fun s => Some (Ok tt, f s).

(** Awaiting a settled promise: its value, or its error thrown. *)
Definition await {S A} (r : outcome A) : M S A := fun s => Some (r, s).

(** [for (const x of l) { f x }] *)
Fixpoint for_of {S A} (l : list A) (f : A -> M S unit) : M S unit :=
  match l with
  | [] => ret tt
  | x :: l' => bind (f x) (fun _ => for_of l' f)
  end.

End Async.
Import Async.

Declare Scope async_scope.
Delimit Scope async_scope with async.
Notation "x <- m ;; k" := (bind m (fun x => k))
  (at level 61, m at next level, right associativity) : async_scope.
Notation "m ;; k" := (bind m (fun _ => k))
  (at level 61, right associativity) : async_scope.

Local Open Scope nat_scope.
Local Open Scope async_scope.

(* ================================================================== *)
(** ** The research flow ([DeepSeekAgent]) *)
(* ================================================================== *)

Module DeepSeekAgent.

Import GeminiService.

(** What a run does that can be observed from outside the component, in the
    order it happens: each call of a service function with its arguments and
    the way its promise settled, each entry into the body of the iteration
    loop, and each assignment to [accumulatedResultsRef.current]. *)
Inductive Event :=
  | Iteration (i : nat)
  | WriteResults (v : jsstring)
  | Planned (topic : jsstring) (r : outcome (list ResearchPlanItem))
  | Searched (query : jsstring) (r : outcome SearchResult)
  | Evaluated (plan : list ResearchPlanItem) (searchResults : jsstring)
              (r : outcome Evaluation)
  | Refined (unansweredQuestions : list jsstring)
            (r : outcome (list RefinedQuery))
  | Synthesized (topic searchResults : jsstring) (r : outcome ResearchReport).

(** The five functions the component imports from the service, with the
    types their signatures declare: the component is written against these
    types, and what it does with a settled promise does not depend on how
    the service obtained the value. Each answer is arbitrary and may depend
    on everything that happened before. *)
Record Service := {
  svc_generateResearchPlan :
    list Event -> jsstring -> outcome (list ResearchPlanItem);
  svc_searchWithGrounding : list Event -> jsstring -> outcome SearchResult;
  svc_evaluateCompleteness :
    list Event -> list ResearchPlanItem -> jsstring -> outcome Evaluation;
  svc_refineSearchQueries :
    list Event -> list jsstring -> outcome (list RefinedQuery);
  svc_synthesizeReport :
    list Event -> jsstring -> jsstring -> outcome ResearchReport
}.

(** The [useState] cells and the two [useRef] cells of the component. *)
Record State := {
  topic : jsstring;
  stage : ResearchStage;
  report : option ResearchReport;
  sources : list Source;
  error : option jsstring;
  plan : list ResearchPlanItem;
  progressLog : list jsstring;
  accumulatedResultsRef : jsstring;
  accumulatedSourcesRef : list Source
}.

Record World := { st : State; trace : list Event }.

Definition A := M World.

Definition on_state (f : State -> State) : A unit :=
  modify (fun w => {| st := f (st w); trace := trace w |}).

Definition emit (e : Event) : A unit :=
  modify (fun w => {| st := st w; trace := trace w ++ [e] |}).

Definition setTopic (v : jsstring) : A unit :=
  on_state (fun s =>
    {| topic := v; stage := stage s; report := report s;
       sources := sources s; error := error s; plan := plan s;
       progressLog := progressLog s;
       accumulatedResultsRef := accumulatedResultsRef s;
       accumulatedSourcesRef := accumulatedSourcesRef s |}).

Definition setStage (v : ResearchStage) : A unit :=
  on_state (fun s =>
    {| topic := topic s; stage := v; report := report s;
       sources := sources s; error := error s; plan := plan s;
       progressLog := progressLog s;
       accumulatedResultsRef := accumulatedResultsRef s;
       accumulatedSourcesRef := accumulatedSourcesRef s |}).

Definition setReport (v : option ResearchReport) : A unit :=
  on_state (fun s =>
    {| topic := topic s; stage := stage s; report := v;
       sources := sources s; error := error s; plan := plan s;
       progressLog := progressLog s;
       accumulatedResultsRef := accumulatedResultsRef s;
       accumulatedSourcesRef := accumulatedSourcesRef s |}).

Definition setSources (v : list Source) : A unit :=
  on_state (fun s =>
    {| topic := topic s; stage := stage s; report := report s;
       sources := v; error := error s; plan := plan s;
       progressLog := progressLog s;
       accumulatedResultsRef := accumulatedResultsRef s;
       accumulatedSourcesRef := accumulatedSourcesRef s |}).

Definition setError (v : option jsstring) : A unit :=
  on_state (fun s =>
    {| topic := topic s; stage := stage s; report := report s;
       sources := sources s; error := v; plan := plan s;
       progressLog := progressLog s;
       accumulatedResultsRef := accumulatedResultsRef s;
       accumulatedSourcesRef := accumulatedSourcesRef s |}).

Definition setPlan (v : list ResearchPlanItem) : A unit :=
  on_state (fun s =>
    {| topic := topic s; stage := stage s; report := report s;
       sources := sources s; error := error s; plan := v;
       progressLog := progressLog s;
       accumulatedResultsRef := accumulatedResultsRef s;
       accumulatedSourcesRef := accumulatedSourcesRef s |}).

(** [setProgressLog(f)] with an updater function. *)
Definition setProgressLog (f : list jsstring -> list jsstring) : A unit :=
  on_state (fun s =>
    {| topic := topic s; stage := stage s; report := report s;
       sources := sources s; error := error s; plan := plan s;
       progressLog := f (progressLog s);
       accumulatedResultsRef := accumulatedResultsRef s;
       accumulatedSourcesRef := accumulatedSourcesRef s |}).

(** [accumulatedResultsRef.current = v] *)
Definition writeResults (v : jsstring) : A unit :=
  on_state (fun s =>
    {| topic := topic s; stage := stage s; report := report s;
       sources := sources s; error := error s; plan := plan s;
       progressLog := progressLog s;
       accumulatedResultsRef := v;
       accumulatedSourcesRef := accumulatedSourcesRef s |}) ;;
  emit (WriteResults v).

(** [accumulatedSourcesRef.current = v] *)
Definition writeSources (v : list Source) : A unit :=
  on_state (fun s =>
    {| topic := topic s; stage := stage s; report := report s;
       sources := sources s; error := error s; plan := plan s;
       progressLog := progressLog s;
       accumulatedResultsRef := accumulatedResultsRef s;
       accumulatedSourcesRef := v |}).

Definition readResults : A jsstring :=
  gets (fun w => accumulatedResultsRef (st w)).

Definition readSources : A (list Source) :=
  gets (fun w => accumulatedSourcesRef (st w)).

(** [accumulatedSourcesRef.current.push(...newSources)] *)
Definition pushSources (newSources : list Source) : A unit :=
  cur <- readSources ;; writeSources (cur ++ newSources).

Definition addLog (message : jsstring) : A unit :=
  setProgressLog (fun prev => prev ++ [message]).

Definition resetState : A unit :=
  setTopic [] ;;
  setStage IDLE ;;
  setReport None ;;
  setSources [] ;;
  setError None ;;
  setPlan [] ;;
  setProgressLog (fun _ => []) ;;
  writeResults [] ;;
  writeSources [].

Section Run.

Variable svc : Service.

(** [await f(args)] for each imported function. *)
Definition generateResearchPlan (topic : jsstring)
  : A (list ResearchPlanItem) :=
  fun w =>
    let r := svc_generateResearchPlan svc (trace w) topic in
    (emit (Planned topic r) ;; await r) w.

Definition searchWithGrounding (query : jsstring) : A SearchResult :=
  fun w =>
    let r := svc_searchWithGrounding svc (trace w) query in
    (emit (Searched query r) ;; await r) w.

Definition evaluateCompleteness (plan : list ResearchPlanItem)
  (searchResults : jsstring) : A Evaluation :=
  fun w =>
    let r := svc_evaluateCompleteness svc (trace w) plan searchResults in
    (emit (Evaluated plan searchResults r) ;; await r) w.

Definition refineSearchQueries (unansweredQuestions : list jsstring)
  : A (list RefinedQuery) :=
  fun w =>
    let r := svc_refineSearchQueries svc (trace w) unansweredQuestions in
    (emit (Refined unansweredQuestions r) ;; await r) w.

Definition synthesizeReport (topic searchResults : jsstring)
  : A ResearchReport :=
  fun w =>
    let r := svc_synthesizeReport svc (trace w) topic searchResults in
    (emit (Synthesized topic searchResults r) ;; await r) w.

Definition runPlanning (topic : jsstring) : A (list ResearchPlanItem) :=
  setStage PLANNING ;;
  addLog (js "Phase 1: Planning research...") ;;
  researchPlan <- generateResearchPlan topic ;;
  setPlan researchPlan ;;
  addLog (js "Plan created with " ++ of_nat (List.length researchPlan)
          ++ js " key questions.") ;;
  ret researchPlan.

Definition MAX_ITERATIONS : nat := 3.

(** What a search that succeeded adds to the collected results:
    [`\n\n--- Query: ${query} ---\n${text}`]. *)
Definition evidence_entry (query text : jsstring) : jsstring :=
  [LF; LF] ++ js "--- Query: " ++ query ++ js " ---" ++ [LF] ++ text.

(** The body of [for (const query of queriesToSearch)]. *)
Definition searchQuery (query : jsstring) : A unit :=
  try_catch
    (addLog (js "Searching for: " ++ [DQUOTE] ++ query ++ [DQUOTE]) ;;
     found <- searchWithGrounding query ;;
     cur <- readResults ;;
     writeResults (cur ++ evidence_entry query (text found)) ;;
     pushSources (GeminiService.sources found) ;;
     acc <- readSources ;;
     setSources (uniqueSources acc))
    (fun message =>
     addLog (js "Warning: Failed to search for " ++ [DQUOTE] ++ query
             ++ [DQUOTE] ++ js ". Reason: " ++ message
             ++ js ". Continuing...")).

(** How the body of the iteration loop ends: by [break], or by reaching its
    end with the queries of the next iteration. *)
Inductive Control :=
  | Break
  | Next (queriesToSearch : list jsstring).

(** The body of [for (let i = 0; i < MAX_ITERATIONS; i++)]. *)
Definition iteration (initialPlan : list ResearchPlanItem) (i : nat)
  (queriesToSearch : list jsstring) : A Control :=
  emit (Iteration i) ;;
  addLog ([LF] ++ js "--- Iteration " ++ of_nat (i + 1) ++ js " of "
          ++ of_nat MAX_ITERATIONS ++ js " ---") ;;
  setStage SEARCHING ;;
  addLog (js "Searching the web with " ++ of_nat (List.length queriesToSearch)
          ++ js " queries...") ;;
  for_of queriesToSearch searchQuery ;;
  setStage EVALUATING ;;
  addLog (js "Evaluating collected information for completeness...") ;;
  collected <- readResults ;;
  evaluation <- evaluateCompleteness initialPlan collected ;;
  addLog (js "Evaluation complete. Reasoning: " ++ reasoning evaluation) ;;
  if is_complete evaluation then
    addLog (js "Information is sufficient. Proceeding to synthesis.") ;;
    ret Break
  else if i =? MAX_ITERATIONS - 1 then
    addLog (js "Max iterations reached. Proceeding to synthesis with available data.") ;;
    ret Break
  else
    addLog (js "Information is incomplete. Refining search for "
            ++ of_nat (List.length (unanswered_questions evaluation))
            ++ js " topics.") ;;
    newQueries <- refineSearchQueries (unanswered_questions evaluation) ;;
    if List.length newQueries =? 0 then
      addLog (js "Could not generate new queries. Proceeding to synthesis.") ;;
      ret Break
    else
      ret (Next (flat_map (fun q => [english_query q; japanese_query q])
                          newQueries)).

(** The [for] loop from counter [i] on; [fuel] bounds the number of times
    the body may run. *)
Fixpoint for_loop (fuel : nat) (initialPlan : list ResearchPlanItem)
  (i : nat) (queriesToSearch : list jsstring) : A unit :=
  if i <? MAX_ITERATIONS then
    match fuel with
    | O => out_of_fuel
    | S fuel' =>
        c <- iteration initialPlan i queriesToSearch ;;
        match c with
        | Break => ret tt
        | Next queries' => for_loop fuel' initialPlan (i + 1) queries'
        end
    end
  else ret tt.

Definition runSearchAndEvaluateLoop (fuel : nat)
  (initialPlan : list ResearchPlanItem) : A unit :=
  let queriesToSearch :=
    flat_map (fun item => [english_question item; japanese_question item])
             initialPlan in
  for_loop fuel initialPlan 0 queriesToSearch.

Definition runSynthesis (topic : jsstring) : A unit :=
  setStage SYNTHESIZING ;;
  addLog ([LF] ++ js "Phase 4: Synthesizing final report...") ;;
  collected <- readResults ;;
  finalReport <- synthesizeReport topic collected ;;
  setReport (Some finalReport) ;;
  addLog (js "Report synthesized successfully!").

(** [handleResearch]; [topic] is the state cell as the handler's closure
    captured it, and keeps that value after [resetState]. *)
Definition handleResearch (fuel : nat) : A unit :=
  topic <- gets (fun w => topic (st w)) ;;
  if negb (JsString.truthy (trim topic)) then
    setError (Some (js "Please enter a research topic."))
  else
    resetState ;;
    try_catch
      (researchPlan <- runPlanning topic ;;
       runSearchAndEvaluateLoop fuel researchPlan ;;
       runSynthesis topic ;;
       setStage COMPLETE)
      (fun message =>
       let errorMessage := or_else message (js "An unknown error occurred.") in
       setError (Some errorMessage) ;;
       addLog (js "Error: " ++ errorMessage) ;;
       setStage ERROR).

End Run.

End DeepSeekAgent.

(* ================================================================== *)
(** ** The shape of a research run *)
(* ================================================================== *)

Module RunShape.

Import GeminiService DeepSeekAgent.

(** The two accumulators of a run: the collected results and the collected
    sources. *)
Definition Evidence : Type := jsstring * list Source.

Definition evidence (w : World) : Evidence :=
  (accumulatedResultsRef (st w), accumulatedSourcesRef (st w)).

(** The displayed sources are the collected ones, de-duplicated. *)
Definition consistent (w : World) : Prop :=
  sources (st w) = uniqueSources (accumulatedSourcesRef (st w)).

(** The events of searching the queries one after the other: a failed
    search leaves the accumulators alone; a search that succeeded appends
    its entry to the results, which is one assignment, and its sources. *)
Inductive search_phase
  : list jsstring -> Evidence -> list Event -> Evidence -> Prop :=
  | search_done (s : Evidence) : search_phase [] s [] s
  | search_failed (q : jsstring) (qs : list jsstring) (s s' : Evidence)
      (e : js_error) (evs : list Event) :
      search_phase qs s evs s' ->
      search_phase (q :: qs) s (Searched q (Err e) :: evs) s'
  | search_found (q : jsstring) (qs : list jsstring) (buf : jsstring)
      (acc : list Source) (s' : Evidence) (found : SearchResult)
      (evs : list Event) :
      search_phase qs (buf ++ evidence_entry q (text found),
                       acc ++ GeminiService.sources found) evs s' ->
      search_phase (q :: qs) (buf, acc)
        (Searched q (Ok found)
           :: WriteResults (buf ++ evidence_entry q (text found)) :: evs) s'.

Definition refined_queries (newQueries : list RefinedQuery) : list jsstring :=
  flat_map (fun q => [english_query q; japanese_query q]) newQueries.

Definition plan_queries (plan : list ResearchPlanItem) : list jsstring :=
  flat_map (fun item => [english_question item; japanese_question item]) plan.

(** The events of one run of the loop body with counter [i], and how the
    body ends. *)
Inductive round (plan : list ResearchPlanItem) (i : nat)
  : list jsstring -> Evidence -> list Event -> outcome Control -> Evidence
    -> Prop :=
  | round_evaluation_failed qs s S s' e :
      search_phase qs s S s' ->
      round plan i qs s
        (Iteration i :: S ++ [Evaluated plan (fst s') (Err e)]) (Err e) s'
  | round_complete qs s S s' ev :
      search_phase qs s S s' ->
      is_complete ev = true ->
      round plan i qs s
        (Iteration i :: S ++ [Evaluated plan (fst s') (Ok ev)]) (Ok Break) s'
  | round_last qs s S s' ev :
      search_phase qs s S s' ->
      is_complete ev = false ->
      i = MAX_ITERATIONS - 1 ->
      round plan i qs s
        (Iteration i :: S ++ [Evaluated plan (fst s') (Ok ev)]) (Ok Break) s'
  | round_refinement_failed qs s S s' ev e :
      search_phase qs s S s' ->
      is_complete ev = false ->
      i <> MAX_ITERATIONS - 1 ->
      round plan i qs s
        (Iteration i :: S ++ [Evaluated plan (fst s') (Ok ev);
                              Refined (unanswered_questions ev) (Err e)])
        (Err e) s'
  | round_refinement_empty qs s S s' ev :
      search_phase qs s S s' ->
      is_complete ev = false ->
      i <> MAX_ITERATIONS - 1 ->
      round plan i qs s
        (Iteration i :: S ++ [Evaluated plan (fst s') (Ok ev);
                              Refined (unanswered_questions ev) (Ok [])])
        (Ok Break) s'
  | round_refined qs s S s' ev newQueries :
      search_phase qs s S s' ->
      is_complete ev = false ->
      i <> MAX_ITERATIONS - 1 ->
      newQueries <> [] ->
      round plan i qs s
        (Iteration i :: S ++ [Evaluated plan (fst s') (Ok ev);
                              Refined (unanswered_questions ev) (Ok newQueries)])
        (Ok (Next (refined_queries newQueries))) s'.

(** The events of the loop from counter [i] on. *)
Inductive rounds (plan : list ResearchPlanItem)
  : nat -> list jsstring -> Evidence -> list Event -> outcome unit -> Evidence
    -> Prop :=
  | rounds_exit i qs s :
      MAX_ITERATIONS <= i ->
      rounds plan i qs s [] (Ok tt) s
  | rounds_break i qs s evs s' :
      i < MAX_ITERATIONS ->
      round plan i qs s evs (Ok Break) s' ->
      rounds plan i qs s evs (Ok tt) s'
  | rounds_throw i qs s evs s' e :
      i < MAX_ITERATIONS ->
      round plan i qs s evs (Err e) s' ->
      rounds plan i qs s evs (Err e) s'
  | rounds_next i qs s evs qs' s' evs' r s'' :
      i < MAX_ITERATIONS ->
      round plan i qs s evs (Ok (Next qs')) s' ->
      rounds plan (i + 1) qs' s' evs' r s'' ->
      rounds plan i qs s (evs ++ evs') r s''.

(** The events of [handleResearch] on a topic that is not blank: the reset,
    the planning call, the loop, and the synthesis call when nothing threw
    before. *)
Inductive run (topic : jsstring) : list Event -> Evidence -> Prop :=
  | run_planning_failed e :
      run topic [WriteResults []; Planned topic (Err e)] ([], [])
  | run_loop_failed plan evs e s' :
      rounds plan 0 (plan_queries plan) ([], []) evs (Err e) s' ->
      run topic (WriteResults [] :: Planned topic (Ok plan) :: evs) s'
  | run_synthesis plan evs s' r :
      rounds plan 0 (plan_queries plan) ([], []) evs (Ok tt) s' ->
      run topic
        (WriteResults [] :: Planned topic (Ok plan) :: evs
           ++ [Synthesized topic (fst s') r]) s'.

(** *** Measures on events *)

Definition is_iteration (e : Event) : bool :=
  match e with Iteration _ => true | _ => false end.

Definition is_evaluation (e : Event) : bool :=
  match e with Evaluated _ _ _ => true | _ => false end.

Definition is_search (e : Event) : bool :=
  match e with Searched _ _ => true | _ => false end.

Definition is_refinement (e : Event) : bool :=
  match e with Refined _ _ => true | _ => false end.

(** What the search phase of an iteration emits. *)
Definition is_search_event (e : Event) : bool :=
  match e with Searched _ _ | WriteResults _ => true | _ => false end.

(** The events that only the iteration loop emits. *)
Definition in_loop (e : Event) : bool :=
  match e with
  | Iteration _ | Searched _ _ | Evaluated _ _ _ | Refined _ _ => true
  | _ => false
  end.

(** The number of times the loop body was entered, and the number of calls
    of [evaluateCompleteness]. *)
Definition iterations (evs : list Event) : nat :=
  List.length (filter is_iteration evs).

Definition evaluations (evs : list Event) : nat :=
  List.length (filter is_evaluation evs).

(** The sources of all the searches that succeeded, in order. *)
Definition searched_sources (evs : list Event) : list Source :=
  flat_map (fun e =>
              match e with
              | Searched _ (Ok found) => GeminiService.sources found
              | _ => []
              end) evs.

(** The values assigned to [accumulatedResultsRef.current], in order. *)
Definition writes (evs : list Event) : list jsstring :=
  flat_map (fun e => match e with WriteResults v => [v] | _ => [] end) evs.

(** [b] is [a] with something appended. *)
Definition extends (a b : jsstring) : Prop := exists more, b = a ++ more.

(** Each value of the list is the one before it with something appended. *)
Inductive growing : list jsstring -> Prop :=
  | growing_nil : growing []
  | growing_one (a : jsstring) : growing [a]
  | growing_cons (a more : jsstring) (l : list jsstring) :
      growing ((a ++ more) :: l) -> growing (a :: (a ++ more) :: l).

(** The assignments [l] lead from the value [a] to the value [b], each
    appending to the value before it. *)
Definition chain (a : jsstring) (l : list jsstring) (b : jsstring) : Prop :=
  growing (a :: l) /\ last (a :: l) [] = b.

(** Events that read or assign the collected results. *)
Definition touches_results (e : Event) : bool :=
  match e with
  | Searched _ (Ok _) | WriteResults _ => true
  | _ => false
  end.

(** From the collected results [a] the events lead to the collected results
    [b], and the only assignments are those that follow a search that
    succeeded and append its entry. *)
Inductive appends : jsstring -> list Event -> jsstring -> Prop :=
  | appends_nil (a : jsstring) : appends a [] a
  | appends_search (a : jsstring) (q : jsstring) (found : SearchResult)
      (rest : list Event) (b : jsstring) :
      appends (a ++ evidence_entry q (text found)) rest b ->
      appends a (Searched q (Ok found)
                   :: WriteResults (a ++ evidence_entry q (text found))
                   :: rest) b
  | appends_other (a : jsstring) (e : Event) (rest : list Event)
      (b : jsstring) :
      touches_results e = false ->
      appends a rest b ->
      appends a (e :: rest) b.

End RunShape.

(* ================================================================== *)
(** ** The chat flow ([ChatBot]) *)
(* ================================================================== *)

Module ChatBot.

(** The [useState] cells of the component, and whether [chatRef.current]
    holds the session created at mount ([false]: it is [null]). *)
Record State := {
  history : list ChatMessage;
  input : jsstring;
  isLoading : bool;
  chatRef : bool
}.

Definition C := M State.

(** [setHistory(f)] with an updater function. *)
Definition setHistory (f : list ChatMessage -> list ChatMessage) : C unit :=
  modify (fun s =>
    {| history := f (history s); input := input s;
       isLoading := isLoading s; chatRef := chatRef s |}).

Definition setInput (v : jsstring) : C unit :=
  modify (fun s =>
    {| history := history s; input := v;
       isLoading := isLoading s; chatRef := chatRef s |}).

Definition setIsLoading (v : bool) : C unit :=
  modify (fun s =>
    {| history := history s; input := input s;
       isLoading := v; chatRef := chatRef s |}).

(** The fixed reply shown when the send fails
    (a Japanese sentence: sorry, an error occurred, please try again). *)
Definition fallback_text : jsstring :=
  [30003; 12375; 35379; 12354; 12426; 12414; 12379; 12435; 12364; 12289;
   12456; 12521; 12540; 12364; 30330; 29983; 12375; 12414; 12375; 12383;
   12290; 12418; 12358; 19968; 24230; 12362; 35430; 12375; 12367; 12384;
   12373; 12356; 12290]%N.

Definition errorMessage : ChatMessage :=
  {| role := model; msg_text := fallback_text |}.

(** [handleSend] up to its [await]: the guard, the user message, the cleared
    input and the loading flag. Returns the message handed to
    [chatRef.current.sendMessage], [None] when the guard returned first and
    nothing was sent. *)
Definition handleSend_start : C (option jsstring) :=
  input <- gets input ;;
  isLoading <- gets isLoading ;;
  chatRef <- gets chatRef ;;
  if negb (JsString.truthy (trim input)) || isLoading || negb chatRef then
    ret None
  else
    let userMessage := {| role := user; msg_text := input |} in
    setHistory (fun prev => prev ++ [userMessage]) ;;
    setInput [] ;;
    setIsLoading true ;;
    ret (Some input).

(** [handleSend] from its [await] on, once the promise of [sendMessage] has
    settled with [reply] ([response.text], or the error). *)
Definition handleSend_resume (reply : outcome jsstring) : C unit :=
  try_finally
    (try_catch
       (text <- await reply ;;
        let modelMessage := {| role := model; msg_text := text |} in
        setHistory (fun prev => prev ++ [modelMessage]))
       (fun _ =>
        setHistory (fun prev => prev ++ [errorMessage])))
    (setIsLoading false).

(** A whole call of [handleSend] against a session that answers [send m]
    to the message [m]. *)
Definition handleSend (send : jsstring -> outcome jsstring) : C unit :=
  sent <- handleSend_start ;;
  match sent with
  | None => ret tt
  | Some message => handleSend_resume (send message)
  end.

(** The guard of [handleSend] lets the call through. *)
Definition may_send (s : State) : bool :=
  JsString.truthy (trim (input s)) && negb (isLoading s) && chatRef s.

End ChatBot.

(* ================================================================== *)
(** ** Concrete responses and runs *)
(* ================================================================== *)

Module Fixtures.

Import GeminiService.

(** A JSON string literal with ASCII content. *)
Definition quoted (s : string) : jsstring := [DQUOTE] ++ js s ++ [DQUOTE].

Definition item_text : jsstring :=
  js "{" ++ quoted "english_question" ++ js ":" ++ quoted "What is it?"
  ++ js "," ++ quoted "japanese_question" ++ js ":" ++ quoted "Nani?"
  ++ js "}".

Definition item : ResearchPlanItem :=
  {| english_question := js "What is it?"; japanese_question := js "Nani?" |}.

Definition item_value : value :=
  JObj [(js "english_question", JStr (js "What is it?"));
        (js "japanese_question", JStr (js "Nani?"))].

(** A response that conforms to the schema of the planning call and holds
    a plan of one question. *)
Definition short_plan_text : jsstring :=
  js "{" ++ quoted "plan" ++ js ":[" ++ item_text ++ js "]}".

(** Responses that conform to the schema with a plan of [n] questions. *)
Fixpoint more_items (n : nat) : jsstring :=
  match n with
  | O => []
  | S n' => js "," ++ item_text ++ more_items n'
  end.

Definition items_text (n : nat) : jsstring :=
  match n with
  | O => []
  | S n' => item_text ++ more_items n'
  end.

Definition plan_text (n : nat) : jsstring :=
  js "{" ++ quoted "plan" ++ js ":[" ++ items_text n ++ js "]}".

Definition respond (t : jsstring) : GenerateContentResponse :=
  {| response_text := t; candidates := None |}.

Definition short_remote : Remote := fun _ => Ok (respond short_plan_text).

Definition plan_remote (n : nat) : Remote := fun _ => Ok (respond (plan_text n)).

(** The same response inside a markdown fence. *)
Definition fenced_plan_text : jsstring :=
  fence_json ++ [LF] ++ short_plan_text ++ [LF] ++ fence.

(** An evaluation whose reasoning quotes code inline, and one that quotes a
    fenced block. *)
Definition inline_code_text : jsstring :=
  js "{" ++ quoted "reasoning" ++ js ":" ++ quoted "call `f` twice" ++ js "}".

Definition fenced_code_text : jsstring :=
  js "{" ++ quoted "reasoning" ++ js ":" ++ quoted "see ```f()``` above"
  ++ js "}".

(** A search response with four grounding chunks: two for the same page,
    one without a uri, one without a title. *)
Definition chunk (u t : option jsstring) : GroundingChunk :=
  {| web := Some {| web_uri := u; web_title := t |} |}.

Definition grounded : GenerateContentResponse :=
  {| response_text := js "overview";
     candidates := Some [
       {| groundingMetadata := Some {| groundingChunks := Some [
            chunk (Some (js "https://a.example")) (Some (js "A, first"));
            chunk None (Some (js "no address"));
            chunk (Some (js "https://b.example")) None;
            chunk (Some (js "https://a.example")) (Some (js "A, again"))
          ] |} |} ] |}.

Definition grounded_remote : Remote := fun _ => Ok grounded.

(** *** Services for whole runs *)

Definition found_for (query : jsstring) : SearchResult :=
  {| text := js "Found.";
     sources := [ {| uri := js "https://a.example"; title := query |};
                  {| uri := js "https://b.example"; title := js "B" |} ] |}.

Import DeepSeekAgent RunShape.

Definition evaluation (complete : bool) : Evaluation :=
  {| is_complete := complete;
     unanswered_questions := [js "Why?"; js "How?"];
     reasoning := js "Two questions are open." |}.

Definition refined : list RefinedQuery :=
  [ {| english_query := js "Why exactly?"; japanese_query := js "Naze?" |} ].

Definition final_report : ResearchReport :=
  {| report_title := js "Report"; summary := js "Summary";
     sections := [ {| heading := js "One"; content := js "Text" |} ] |}.

(** The scenario of the specification: the search in Japanese fails, the
    first evaluation is incomplete, the refinement gives one pair of
    queries, the second evaluation is complete, the synthesis succeeds. *)
Definition scenario : Service :=
  {| svc_generateResearchPlan := fun _ _ => Ok [item];
     svc_searchWithGrounding := fun _ query =>
       if JsString.eqb query (js "Nani?")
       then Err (search_failure_message query)
       else Ok (found_for query);
     svc_evaluateCompleteness := fun tr _ _ =>
       Ok (evaluation (1 <=? evaluations tr));
     svc_refineSearchQueries := fun _ _ => Ok refined;
     svc_synthesizeReport := fun _ _ _ => Ok final_report |}.

(** A service whose evaluation is never satisfied. *)
Definition stubborn : Service :=
  {| svc_generateResearchPlan := fun _ _ => Ok [item];
     svc_searchWithGrounding := fun _ query => Ok (found_for query);
     svc_evaluateCompleteness := fun _ _ _ => Ok (evaluation false);
     svc_refineSearchQueries := fun _ _ => Ok refined;
     svc_synthesizeReport := fun _ _ _ => Ok final_report |}.

(** A service whose refinement finds nothing to ask. *)
Definition speechless : Service :=
  {| svc_generateResearchPlan := fun _ _ => Ok [item];
     svc_searchWithGrounding := fun _ query => Ok (found_for query);
     svc_evaluateCompleteness := fun _ _ _ => Ok (evaluation false);
     svc_refineSearchQueries := fun _ _ => Ok [];
     svc_synthesizeReport := fun _ _ _ => Ok final_report |}.

Definition idle (topic : jsstring) : World :=
  {| st := {| topic := topic; stage := IDLE; report := None; sources := [];
              error := None; plan := []; progressLog := [];
              accumulatedResultsRef := []; accumulatedSourcesRef := [] |};
     trace := [] |}.

Definition start : World := idle (js "quantum cryptography impact").

(** *** Chat sessions *)

(** A session that is out of reach, and one that echoes. *)
Definition unreachable : jsstring -> outcome jsstring :=
  fun _ => Err (js "Network error").

Definition echo : jsstring -> outcome jsstring := fun m => Ok m.

(** A question typed, nothing pending. *)
Definition typed : ChatBot.State :=
  {| ChatBot.history := []; ChatBot.input := js "And then?";
     ChatBot.isLoading := false; ChatBot.chatRef := true |}.

(** The same question typed again while the first send is pending. *)
Definition pending : ChatBot.State :=
  {| ChatBot.history := [ {| role := user; msg_text := js "And then?" |} ];
     ChatBot.input := js "And then?";
     ChatBot.isLoading := true; ChatBot.chatRef := true |}.

End Fixtures.

(* ================================================================== *)
(** ** More responses of the hosted model *)
(* ================================================================== *)

Module MoreFixtures.

Import GeminiService Fixtures.

(** A model that is out of reach. *)
Definition failing_remote : Remote := fun _ => Err (js "503 Service Unavailable").

(** A model that answers every request with the text [t]. *)
Definition always (t : jsstring) : Remote := fun _ => Ok (respond t).

Definition empty_queries_text : jsstring :=
  js "{" ++ quoted "queries" ++ js ":[]}".

Definition no_queries_text : jsstring :=
  js "{" ++ quoted "plan" ++ js ":[]}".

(** A response with text and no candidates at all. *)
Definition ungrounded : GenerateContentResponse :=
  {| response_text := js "overview"; candidates := None |}.

End MoreFixtures.

(* ================================================================== *)
(** ** De-duplication, one source at a time *)
(* ================================================================== *)

Module Replace.

Import GeminiService.

(** The list [l] with [s] in the place of every source that has the uri of
    [s]. *)
Definition supersede (s : Source) (l : list Source) : list Source :=
  map (fun x => if JsString.eqb (uri s) (uri x) then s else x) l.

(** Whether a source with the uri [u] is in [l]. *)
Definition has_uri (u : jsstring) (l : list Source) : bool :=
  existsb (JsString.eqb u) (map uri l).


(** The entries the map is built from, [l.map(s => [s.uri, s])]. *)
Definition entries (l : list Source) : list (jsstring * Source) :=
  map (fun s => (uri s, s)) l.

(** Every entry of the map is filed under the uri of its source. *)
Definition keyed (m : JsMap.t Source) : Prop :=
  forall k s, In (k, s) m -> k = uri s.

(** Setting the entries [es], one after the other, in the map [m]. *)
Definition fold_set (es : list (jsstring * Source)) (m : JsMap.t Source)
  : JsMap.t Source :=
  fold_left (fun m e => JsMap.set (fst e) (snd e) m) es m.

End Replace.

(* ================================================================== *)
(** ** What a run calls, and how it ends *)
(* ================================================================== *)

Module Protocol.

Import GeminiService DeepSeekAgent RunShape.

(** The error with which a call rejected into the [catch] of
    [handleResearch]. A search that fails is caught inside the loop and
    never gets there. *)
Definition thrown (e : Event) : option js_error :=
  match e with
  | Planned _ (Err e) | Evaluated _ _ (Err e) | Refined _ (Err e)
  | Synthesized _ _ (Err e) => Some e
  | _ => None
  end.

Definition is_planning (e : Event) : bool :=
  match e with Planned _ _ => true | _ => false end.

Definition is_synthesis (e : Event) : bool :=
  match e with Synthesized _ _ _ => true | _ => false end.

(** The queries handed to [searchWithGrounding], in order. *)
Definition searched_queries (evs : list Event) : list jsstring :=
  flat_map (fun e => match e with Searched q _ => [q] | _ => [] end) evs.

(** The queries that the plan and the refinements of a run propose, in
    order: for each question the English one, then the Japanese one. *)
Definition proposed_queries (evs : list Event) : list jsstring :=
  flat_map (fun e =>
              match e with
              | Planned _ (Ok plan) => plan_queries plan
              | Refined _ (Ok newQueries) => refined_queries newQueries
              | _ => []
              end) evs.

(** The entries of the searches that succeeded, one after the other. *)
Definition collected_results (evs : list Event) : jsstring :=
  flat_map (fun e =>
              match e with
              | Searched q (Ok found) => evidence_entry q (text found)
              | _ => []
              end) evs.

(** What the loop may emit when it works on the plan [plan]. *)
Definition loop_event (plan : list ResearchPlanItem) (e : Event) : Prop :=
  match e with
  | Iteration _ | WriteResults _ | Searched _ _ | Refined _ _ => True
  | Evaluated p _ _ => p = plan
  | Planned _ _ | Synthesized _ _ _ => False
  end.

(** The state cells that the iteration loop leaves alone. *)
Definition kept (w : World)
  : jsstring * option ResearchReport * option jsstring
    * list ResearchPlanItem :=
  (topic (st w), report (st w), error (st w), plan (st w)).

Definition unknown_error : jsstring := js "An unknown error occurred.".

Definition blank_topic_error : jsstring := js "Please enter a research topic.".

End Protocol.

(* ================================================================== *)
(** ** What the agent renders ([StageIndicator], [renderContent]) *)
(* ================================================================== *)

Module AgentView.

Import GeminiService DeepSeekAgent.

(** [a === b] on stages. *)
Definition stage_eqb (a b : ResearchStage) : bool :=
  match a, b with
  | IDLE, IDLE | PLANNING, PLANNING | SEARCHING, SEARCHING
  | EVALUATING, EVALUATING | SYNTHESIZING, SYNTHESIZING
  | COMPLETE, COMPLETE | ERROR, ERROR => true
  | _, _ => false
  end.

(** [l.indexOf(x)], counted from [i]: [-1] when [x] is not in [l]. *)
Fixpoint indexOf_from (i : Z) (x : ResearchStage) (l : list ResearchStage)
  : Z :=
  match l with
  | [] => (-1)%Z
  | y :: l' => if stage_eqb y x then i else indexOf_from (i + 1)%Z x l'
  end.

Definition indexOf (l : list ResearchStage) (x : ResearchStage) : Z :=
  indexOf_from 0%Z x l.

Definition stageOrder : list ResearchStage :=
  [PLANNING; SEARCHING; EVALUATING; SYNTHESIZING; COMPLETE].

(** The class of the circle, and the caption under the title. *)
Inductive Colour := Green | Indigo | Gray.
Inductive Caption := InProgress | Completed | Pending.

(** What one [StageIndicator] shows: the colour of its circle, whether the
    spinner takes the place of the icon, whether the title is white, and the
    caption. *)
Record Indicator := {
  colour : Colour;
  spinner : bool;
  white : bool;
  caption : Caption
}.

Definition StageIndicator (stage currentStage : ResearchStage) : Indicator :=
  let isActive := stage_eqb stage currentStage in
  let isDone :=
    (indexOf stageOrder currentStage >? indexOf stageOrder stage)%Z in
  {| colour := if isDone then Green else if isActive then Indigo else Gray;
     spinner := isActive;
     white := isActive || isDone;
     caption := if isActive then InProgress
                else if isDone then Completed else Pending |}.

(** [l.join(sep)] *)
Fixpoint join (sep : jsstring) (l : list jsstring) : jsstring :=
  match l with
  | [] => []
  | [x] => x
  | x :: l' => x ++ sep ++ join sep l'
  end.

(** The three things [renderContent] returns: the form with the topic, the
    search button, the error line when there is one and the button to try
    again; the report with the sources; the four indicators with the log and
    the line that says the agent is running. *)
Inductive View :=
  | InputView (value : jsstring) (searchDisabled : bool)
      (errorLine : option jsstring) (tryAgain : bool)
  | ReportView (shown : ResearchReport) (links : list Source)
  | ProgressView (indicators : list Indicator) (log : jsstring)
      (running : bool).

Definition renderContent (s : State) : View :=
  if stage_eqb (stage s) IDLE || stage_eqb (stage s) ERROR then
    InputView (topic s)
      (negb (stage_eqb (stage s) IDLE) && negb (stage_eqb (stage s) ERROR))
      (match error s with
       | Some e => if JsString.truthy e then Some e else None
       | None => None
       end)
      (stage_eqb (stage s) ERROR)
  else
    match stage_eqb (stage s) COMPLETE, report s with
    | true, Some r => ReportView r (sources s)
    | _, _ =>
        ProgressView
          (map (fun g => StageIndicator g (stage s))
               [PLANNING; SEARCHING; EVALUATING; SYNTHESIZING])
          (join [LF] (progressLog s))
          (negb (stage_eqb (stage s) COMPLETE))
    end.

End AgentView.

(* ================================================================== *)
(** ** Services that fail *)
(* ================================================================== *)

Module FailingServices.

Import GeminiService DeepSeekAgent RunShape Fixtures.

(** A service whose evaluation call is rejected, with the error message
    [reason]. *)
Definition broken (reason : jsstring) : Service :=
  {| svc_generateResearchPlan := fun _ _ => Ok [item];
     svc_searchWithGrounding := fun _ query => Ok (found_for query);
     svc_evaluateCompleteness := fun _ _ _ => Err reason;
     svc_refineSearchQueries := fun _ _ => Ok refined;
     svc_synthesizeReport := fun _ _ _ => Ok final_report |}.

(** A service none of whose searches succeeds. *)
Definition blind : Service :=
  {| svc_generateResearchPlan := fun _ _ => Ok [item];
     svc_searchWithGrounding := fun _ query =>
       Err (search_failure_message query);
     svc_evaluateCompleteness := fun _ _ _ => Ok (evaluation true);
     svc_refineSearchQueries := fun _ _ => Ok refined;
     svc_synthesizeReport := fun _ _ _ => Ok final_report |}.


End FailingServices.

(* ================================================================== *)
(** ** A mounted chat: what the user and the session do to it *)
(* ================================================================== *)

Module ChatSession.

Import ChatBot.

(** The state after the mount effect: the session is created when
    [process.env.API_KEY] is set and not empty. *)
Definition mount (apiKey : option jsstring) : State :=
  {| history := []; input := []; isLoading := false;
     chatRef := match apiKey with
                | Some key => JsString.truthy key
                | None => false
                end |}.

(** [handleKeyPress] up to the [await] of [handleSend]. *)
Definition handleKeyPress_start (key : jsstring) (shiftKey : bool)
  : C (option jsstring) :=
  if JsString.eqb key (js "Enter") && negb shiftKey then handleSend_start
  else ret None.

(** The component together with the calls of [sendMessage] that have not
    settled yet, oldest first, and all the messages ever handed to
    [sendMessage]. *)
Record Session := {
  ui : State;
  outbox : list jsstring;
  sent : list jsstring
}.

Inductive Action :=
  | Change (value : jsstring)
  | Click
  | KeyPress (key : jsstring) (shiftKey : bool)
  | Settle (reply : outcome jsstring).

(** The session after a handler ran up to its [await]. *)
Definition started (x : Session)
  (r : option (outcome (option jsstring) * State)) : Session :=
  match r with
  | Some (Ok (Some message), s') =>
      {| ui := s'; outbox := outbox x ++ [message];
         sent := sent x ++ [message] |}
  | Some (_, s') => {| ui := s'; outbox := outbox x; sent := sent x |}
  | None => x
  end.

(** One thing happens. The handlers run whether or not the input and the
    button are disabled; a reply settles the oldest pending call, and no
    reply comes when there is none. *)
Definition step (x : Session) (a : Action) : Session :=
  match a with
  | Change value =>
      match setInput value (ui x) with
      | Some (_, s') => {| ui := s'; outbox := outbox x; sent := sent x |}
      | None => x
      end
  | Click => started x (handleSend_start (ui x))
  | KeyPress key shiftKey =>
      started x (handleKeyPress_start key shiftKey (ui x))
  | Settle reply =>
      match outbox x with
      | [] => x
      | _ :: rest =>
          match handleSend_resume reply (ui x) with
          | Some (_, s') => {| ui := s'; outbox := rest; sent := sent x |}
          | None => x
          end
      end
  end.

Definition session (apiKey : option jsstring) (actions : list Action)
  : Session :=
  fold_left step actions {| ui := mount apiKey; outbox := []; sent := [] |}.






(** A chat without a session in which nothing has happened. *)
Definition inert (x : Session) : Prop :=
  chatRef (ui x) = false
  /\ sent x = [] /\ outbox x = []
  /\ history (ui x) = [] /\ isLoading (ui x) = false.

(** Typing a question, hitting Enter twice, clicking, and two replies. *)
Definition impatient : list Action :=
  [ Change (js "And then?"); KeyPress (js "Enter") false;
    KeyPress (js "Enter") false; Change (js "Hello?"); Click;
    Settle (Ok (js "Then it ends.")); Settle (Ok (js "Twice?")) ].

End ChatSession.

(* ================================================================== *)
(** * Properties *)
(* ================================================================== *)

(** ** Strings *)

Module JsStringFacts.

Lemma eqb_eq (a b : jsstring) : JsString.eqb a b = true <-> a = b.
Proof.
  revert b; induction a as [|x a IH]; intros [|y b]; simpl;
    try (split; [discriminate | congruence]); try tauto.
  rewrite andb_true_iff, N.eqb_eq, IH.
  split; [intros [-> ->]; reflexivity | intros H; inversion H; auto].
Qed.

Lemma eqb_refl (a : jsstring) : JsString.eqb a a = true.
Proof. apply eqb_eq; reflexivity. Qed.

Lemma eqb_neq (a b : jsstring) : JsString.eqb a b = false <-> a <> b.
Proof.
  rewrite <- eqb_eq. destruct (JsString.eqb a b); split; congruence.
Qed.

Lemma eqb_sym (a b : jsstring) : JsString.eqb a b = JsString.eqb b a.
Proof.
  destruct (JsString.eqb a b) eqn:E.
  - apply eqb_eq in E; subst; symmetry; apply eqb_refl.
  - symmetry; apply eqb_neq; apply eqb_neq in E; congruence.
Qed.

Lemma truthy_nonempty (s : jsstring) : JsString.truthy s = true <-> s <> [].
Proof. destruct s; simpl; split; congruence. Qed.

Lemma or_else_nonempty (a b : jsstring) : b <> [] -> or_else a b <> [].
Proof.
  unfold or_else; destruct (JsString.truthy a) eqn:E; auto.
  intros _; apply truthy_nonempty; exact E.
Qed.

(** *** Whitespace and [trim] *)

Lemma trimStart_blank (ws s : jsstring) :
  blank ws -> trimStart (ws ++ s) = trimStart s.
Proof.
  unfold blank; induction ws as [|c ws IH]; simpl; auto.
  rewrite andb_true_iff; intros [-> H]; auto.
Qed.

Lemma blank_rev (ws : jsstring) : blank ws -> blank (rev ws).
Proof.
  unfold blank; rewrite !forallb_forall; intros H x Hx.
  apply H, in_rev; exact Hx.
Qed.

Lemma trimEnd_blank (s ws : jsstring) :
  blank ws -> trimEnd (s ++ ws) = trimEnd s.
Proof.
  intros H; unfold trimEnd; rewrite rev_app_distr.
  rewrite trimStart_blank; auto using blank_rev.
Qed.

Lemma trim_blank_end (s ws : jsstring) :
  blank ws -> trim (s ++ ws) = trim s.
Proof.
  intros H; unfold trim; induction s as [|c s IH]; simpl.
  - rewrite <- (app_nil_r ws), trimStart_blank by exact H; reflexivity.
  - destruct (isWhiteSpace c); auto.
    change (c :: s ++ ws) with ((c :: s) ++ ws); apply trimEnd_blank; exact H.
Qed.

Lemma trim_blank (ws1 s ws2 : jsstring) :
  blank ws1 -> blank ws2 -> trim (ws1 ++ s ++ ws2) = trim s.
Proof.
  intros H1 H2; unfold trim at 1; rewrite trimStart_blank by exact H1.
  apply trim_blank_end; exact H2.
Qed.

(** *** Literal replacement *)

Lemma startsWith_app (p s : jsstring) : startsWith p (p ++ s) = true.
Proof. induction p; simpl; auto. rewrite N.eqb_refl; auto. Qed.

Lemma replace_from_skip (pat rep a s : jsstring) :
  replace_from pat rep (List.length a) (a ++ s) = replace_from pat rep 0 s.
Proof.
  induction a as [|c a IH]; simpl; auto.
Qed.

(** A leading occurrence of the pattern is replaced. *)
Lemma replace_all_head (c : code_unit) (p rep s : jsstring) :
  replace_all (c :: p) rep ((c :: p) ++ s) = rep ++ replace_all (c :: p) rep s.
Proof.
  unfold replace_all; simpl.
  rewrite N.eqb_refl, startsWith_app; simpl.
  rewrite replace_from_skip; reflexivity.
Qed.

Lemma free_of_app (c : code_unit) (a b : jsstring) :
  free_of c (a ++ b) <-> free_of c a /\ free_of c b.
Proof.
  unfold free_of; rewrite existsb_app, orb_false_iff; tauto.
Qed.

Lemma blank_free_of_backtick (ws : jsstring) : blank ws -> free_of BACKTICK ws.
Proof.
  unfold blank, free_of; induction ws as [|c ws IH];
    [reflexivity|]; cbn [forallb existsb].
  rewrite andb_true_iff; intros [Hc Hws]; rewrite IH by exact Hws.
  rewrite orb_false_r.
  destruct (N.eqb_spec BACKTICK c) as [<-|]; [discriminate Hc | reflexivity].
Qed.

End JsStringFacts.
Import JsStringFacts.

(** ** The service layer *)

Module GeminiServiceFacts.

Import GeminiService.

Lemma startsWith_cons_eq (c : code_unit) (p s : jsstring) :
  startsWith (c :: p) (c :: s) = startsWith p s.
Proof. cbn [startsWith]; rewrite N.eqb_refl; reflexivity. Qed.

Lemma startsWith_cons_neq (c x : code_unit) (p s : jsstring) :
  c <> x -> startsWith (c :: p) (x :: s) = false.
Proof.
  intros H; cbn [startsWith].
  destruct (N.eqb_spec c x); [contradiction | reflexivity].
Qed.

Lemma replace_all_nomatch (pat rep : jsstring) (c : code_unit) (s : jsstring) :
  startsWith pat (c :: s) = false ->
  replace_all pat rep (c :: s) = c :: replace_all pat rep s.
Proof. intros H; unfold replace_all; cbn [replace_from]; rewrite H; auto. Qed.

Lemma fence_json_unfold : fence_json = BACKTICK :: BACKTICK :: BACKTICK :: js "json".
Proof. reflexivity. Qed.

Lemma fence_unfold : fence = [BACKTICK; BACKTICK; BACKTICK].
Proof. reflexivity. Qed.

Lemma free_of_head (c x : code_unit) (s : jsstring) :
  free_of c (x :: s) -> c <> x /\ free_of c s.
Proof.
  unfold free_of; cbn [existsb]; rewrite orb_false_iff.
  intros [Hx Hs]; split; auto. apply N.eqb_neq; exact Hx.
Qed.

Lemma startsWith_fence (s : jsstring) :
  startsWith fence s = true ->
  exists r, s = BACKTICK :: BACKTICK :: BACKTICK :: r.
Proof.
  rewrite fence_unfold; destruct s as [|a [|b [|c r]]]; cbn [startsWith];
    rewrite ?andb_false_r; try discriminate.
  rewrite !andb_true_iff, !N.eqb_eq; intros [<- [<- [<- _]]].
  exists r; reflexivity.
Qed.

Lemma startsWith_fence_json (s : jsstring) :
  startsWith fence_json s = true ->
  exists r, s = BACKTICK :: BACKTICK :: BACKTICK :: 106%N :: r.
Proof.
  rewrite fence_json_unfold; change (js "json") with (106%N :: js "son").
  destruct s as [|a [|b [|c [|d r]]]]; cbn [startsWith];
    rewrite ?andb_false_r; try discriminate.
  rewrite !andb_true_iff, !N.eqb_eq; intros [<- [<- [<- [<- _]]]].
  exists r; reflexivity.
Qed.

Lemma includes_cons (p : jsstring) (c : code_unit) (s : jsstring) :
  includes p (c :: s) = startsWith p (c :: s) || includes p s.
Proof. reflexivity. Qed.

Lemma includes_cons_false (p : jsstring) (c : code_unit) (s : jsstring) :
  includes p (c :: s) = false ->
  startsWith p (c :: s) = false /\ includes p s = false.
Proof. rewrite includes_cons; apply orb_false_iff. Qed.

Lemma not_fence_start (r : jsstring) :
  startsWith fence (BACKTICK :: BACKTICK :: BACKTICK :: r) = false -> False.
Proof. rewrite fence_unfold, !startsWith_cons_eq; discriminate. Qed.

(** Text in which the fence does not occur, followed by the closing fence:
    the first replacement of [clean] leaves it alone, the second removes
    the fence and nothing else, also when the text ends with backticks. *)
Lemma strip_json_body (body : jsstring) :
  includes fence body = false ->
  replace_all fence_json [] (body ++ fence) = body ++ fence.
Proof.
  induction body as [|c body IH]; intros H; [reflexivity|].
  apply includes_cons_false in H; destruct H as [Hs Hi].
  cbn [app]; rewrite replace_all_nomatch, (IH Hi); [reflexivity|].
  destruct (startsWith fence_json (c :: body ++ fence)) eqn:E; [|reflexivity].
  apply startsWith_fence_json in E; destruct E as [r Er].
  destruct body as [|x [|y body]]; inversion Er; subst.
  exfalso; eapply not_fence_start; exact Hs.
Qed.

Lemma strip_body (body : jsstring) :
  includes fence body = false ->
  replace_all fence [] (body ++ fence) = body.
Proof.
  induction body as [|c body IH]; intros H; [reflexivity|].
  apply includes_cons_false in H; destruct H as [Hs Hi].
  destruct (startsWith fence (c :: body ++ fence)) eqn:E.
  - apply startsWith_fence in E; destruct E as [r Er].
    destruct body as [|x [|y body]]; inversion Er; subst;
      try reflexivity.
    exfalso; eapply not_fence_start; exact Hs.
  - cbn [app]; rewrite (replace_all_nomatch _ _ _ _ E), (IH Hi); reflexivity.
Qed.

(** Text in which the fence does not occur is left as it is. *)
Lemma strip_nothing (s : jsstring) :
  includes fence s = false ->
  replace_all fence_json [] s = s /\ replace_all fence [] s = s.
Proof.
  induction s as [|c s IH]; intros H; [split; reflexivity|].
  apply includes_cons_false in H; destruct H as [Hs Hi].
  destruct (IH Hi) as [IH1 IH2]; split.
  - rewrite replace_all_nomatch, IH1; [reflexivity|].
    destruct (startsWith fence_json (c :: s)) eqn:E; [|reflexivity].
    apply startsWith_fence_json in E; destruct E as [r Er].
    rewrite Er in Hs; exfalso; eapply not_fence_start; exact Hs.
  - rewrite (replace_all_nomatch _ _ _ _ Hs), IH2; reflexivity.
Qed.

(** The opening fence without the word json is not touched by the first
    replacement. *)
Lemma strip_json_plain (body : jsstring) :
  includes fence body = false ->
  plain_start body = true ->
  replace_all fence_json [] (fence ++ body ++ fence) = fence ++ body ++ fence.
Proof.
  intros Hfree Hstart.
  destruct body as [|x body]; [reflexivity|].
  cbn [plain_start] in Hstart; apply andb_true_iff in Hstart.
  destruct Hstart as [Hb Hj].
  apply negb_true_iff, N.eqb_neq in Hb; apply negb_true_iff, N.eqb_neq in Hj.
  rewrite fence_unfold at 1 3; rewrite fence_json_unfold at 1.
  cbn [app].
  rewrite replace_all_nomatch.
  2:{ rewrite !startsWith_cons_eq.
      change (js "json") with (106%N :: js "son").
      apply startsWith_cons_neq; congruence. }
  rewrite replace_all_nomatch.
  2:{ rewrite !startsWith_cons_eq; apply startsWith_cons_neq; congruence. }
  rewrite replace_all_nomatch.
  2:{ rewrite startsWith_cons_eq; apply startsWith_cons_neq; congruence. }
  rewrite <- fence_json_unfold.
  change (x :: body ++ fence) with ((x :: body) ++ fence).
  rewrite strip_json_body by exact Hfree; reflexivity.
Qed.

(** Whitespace around a text adds no occurrence of the fence. *)
Lemma no_fence_start (ws : jsstring) :
  free_of BACKTICK ws -> forall p, startsWith (BACKTICK :: p) ws = false.
Proof.
  intros H p; destruct ws as [|w ws]; [reflexivity|].
  apply free_of_head in H; apply startsWith_cons_neq; tauto.
Qed.

Lemma startsWith_cons (x y : code_unit) (p s : jsstring) :
  startsWith (x :: p) (y :: s) = N.eqb x y && startsWith p s.
Proof. reflexivity. Qed.

Lemma startsWith_fence_pad (a ws : jsstring) :
  free_of BACKTICK ws ->
  startsWith fence (a ++ ws) = startsWith fence a.
Proof.
  intros H; rewrite fence_unfold.
  destruct a as [|a1 [|a2 [|a3 a]]]; cbn [app];
    rewrite ?startsWith_cons, ?(no_fence_start H), ?andb_false_r;
    reflexivity.
Qed.

Lemma includes_fence_pad_l (ws s : jsstring) :
  free_of BACKTICK ws -> includes fence (ws ++ s) = includes fence s.
Proof.
  induction ws as [|c ws IH]; intros H; [reflexivity|].
  apply free_of_head in H; destruct H as [Hc Hws].
  cbn [app]; rewrite includes_cons, (IH Hws), fence_unfold at 1.
  rewrite startsWith_cons_neq by exact Hc; reflexivity.
Qed.

Lemma includes_fence_pad_r (s ws : jsstring) :
  free_of BACKTICK ws -> includes fence (s ++ ws) = includes fence s.
Proof.
  intros H; induction s as [|c s IH].
  - cbn [app]; rewrite <- (app_nil_r ws), includes_fence_pad_l by exact H.
    reflexivity.
  - cbn [app]; rewrite !includes_cons, IH.
    change (c :: s ++ ws) with ((c :: s) ++ ws).
    rewrite startsWith_fence_pad by exact H; reflexivity.
Qed.

Lemma includes_fence_padded (ws1 j ws2 : jsstring) :
  includes fence j = false -> blank ws1 -> blank ws2 ->
  includes fence (ws1 ++ j ++ ws2) = false.
Proof.
  intros Hj H1 H2.
  rewrite includes_fence_pad_l, includes_fence_pad_r;
    auto using blank_free_of_backtick.
Qed.

Lemma clean_bare (j : jsstring) : includes fence j = false -> clean j = trim j.
Proof.
  intros H; unfold clean; destruct (@strip_nothing j H) as [-> ->]; reflexivity.
Qed.

Lemma clean_fenced_json (ws1 j ws2 : jsstring) :
  includes fence j = false -> blank ws1 -> blank ws2 ->
  clean (fence_json ++ ws1 ++ j ++ ws2 ++ fence) = trim j.
Proof.
  intros Hj H1 H2.
  pose proof (@includes_fence_padded ws1 j ws2 Hj H1 H2) as Hbody.
  unfold clean.
  rewrite fence_json_unfold at 2; rewrite <- fence_json_unfold.
  rewrite fence_json_unfold at 1 2.
  rewrite replace_all_head; cbn [app]; rewrite <- fence_json_unfold.
  replace (ws1 ++ j ++ ws2 ++ fence) with ((ws1 ++ j ++ ws2) ++ fence)
    by (rewrite <- !app_assoc; reflexivity).
  rewrite strip_json_body, strip_body by exact Hbody.
  apply trim_blank; assumption.
Qed.

Lemma clean_fenced_plain (ws1 j ws2 : jsstring) :
  includes fence j = false -> blank ws1 -> blank ws2 ->
  plain_start (ws1 ++ j ++ ws2) = true ->
  clean (fence ++ ws1 ++ j ++ ws2 ++ fence) = trim j.
Proof.
  intros Hj H1 H2 Hstart.
  pose proof (@includes_fence_padded ws1 j ws2 Hj H1 H2) as Hbody.
  unfold clean.
  replace (ws1 ++ j ++ ws2 ++ fence) with ((ws1 ++ j ++ ws2) ++ fence)
    by (rewrite <- !app_assoc; reflexivity).
  rewrite strip_json_plain by assumption.
  rewrite fence_unfold at 1 2; rewrite replace_all_head; cbn [app].
  rewrite <- fence_unfold, strip_body by exact Hbody.
  apply trim_blank; assumption.
Qed.

(** Without the cleaning step a fenced response is a syntax error. *)
Lemma parse_backtick (s : jsstring) : JSON.parse (BACKTICK :: s) = None.
Proof.
  unfold JSON.parse.
  replace (2 * List.length (BACKTICK :: s) + 2)
    with (S (2 * List.length s + 3)) by (cbn [List.length]; lia).
  reflexivity.
Qed.

(** Every function that asks for structured output reads the response text
    through [parseJson] only. *)
Lemma structured_through_parseJson (remote1 remote2 : Remote) :
  (forall req, same_json (remote1 req) (remote2 req)) ->
  (forall topic,
      generateResearchPlan remote1 topic = generateResearchPlan remote2 topic)
  /\ (forall plan found,
      evaluateCompleteness remote1 plan found
      = evaluateCompleteness remote2 plan found)
  /\ (forall qs, refineSearchQueries remote1 qs = refineSearchQueries remote2 qs)
  /\ (forall topic found,
      synthesizeReport remote1 topic found
      = synthesizeReport remote2 topic found).
Proof.
  intros H; repeat split; intros;
    unfold generateResearchPlan, evaluateCompleteness, refineSearchQueries,
      synthesizeReport;
    match goal with
    | |- context [remote1 ?req] =>
        specialize (H req); unfold same_json in H;
        destruct (remote1 req), (remote2 req); simpl in *;
        try contradiction; try rewrite H; reflexivity
    end.
Qed.

(** C9. [parseJson] removes the markdown fences and trims before it parses:
    a JSON text [j], in which no fence occurs, wrapped in the opening fence
    [```json] and the closing fence [```], with any whitespace between the
    fences and the text, gives the value that [j] itself parses to,
    although [JSON.parse] alone rejects the wrapped text. The same holds
    for the opening fence [```] when what follows it begins neither with a
    backtick nor with the letter j (no JSON text does). *)
Theorem parseJson_accepts_fenced (ws1 j ws2 : jsstring) (v : value) :
  includes fence j = false -> blank ws1 -> blank ws2 ->
  JSON.parse (trim j) = Some v ->
  parseJson (fence_json ++ ws1 ++ j ++ ws2 ++ fence) = v
  /\ JSON.parse (fence_json ++ ws1 ++ j ++ ws2 ++ fence) = None
  /\ (plain_start (ws1 ++ j ++ ws2) = true ->
      parseJson (fence ++ ws1 ++ j ++ ws2 ++ fence) = v
      /\ JSON.parse (fence ++ ws1 ++ j ++ ws2 ++ fence) = None)
  /\ parseJson j = v.
Proof.
  intros Hj H1 H2 Hv; unfold parseJson.
  rewrite (@clean_fenced_json ws1 j ws2 Hj H1 H2), (@clean_bare j Hj), Hv.
  split; [reflexivity|].
  split; [rewrite fence_json_unfold; apply parse_backtick|].
  split; [|reflexivity].
  intros Hstart; rewrite (@clean_fenced_plain ws1 j ws2 Hj H1 H2 Hstart), Hv.
  split; [reflexivity|].
  rewrite fence_unfold; apply parse_backtick.
Qed.

End GeminiServiceFacts.

(** ** Insertion-ordered maps *)

Module JsMapFacts.

Section Facts.

Context {V : Type}.
Implicit Types (m : JsMap.t V) (k : jsstring) (v : V).

Lemma get_set k k0 v0 m :
  JsMap.get k (JsMap.set k0 v0 m)
  = if JsString.eqb k k0 then Some v0 else JsMap.get k m.
Proof.
  induction m as [|[k' v'] m IH]; cbn [JsMap.get JsMap.set].
  - destruct (JsString.eqb k k0); reflexivity.
  - destruct (JsString.eqb k0 k') eqn:E; cbn [JsMap.get].
    + apply eqb_eq in E; subst k'.
      destruct (JsString.eqb k k0); reflexivity.
    + rewrite IH. destruct (JsString.eqb k k') eqn:E'; auto.
      apply eqb_eq in E'; subst k'.
      rewrite eqb_sym, E; reflexivity.
Qed.

Lemma get_app k (a b : JsMap.t V) :
  JsMap.get k (a ++ b)
  = match JsMap.get k a with Some v => Some v | None => JsMap.get k b end.
Proof.
  induction a as [|[k' v'] a IH]; cbn [JsMap.get app]; auto.
  destruct (JsString.eqb k k'); auto.
Qed.

Lemma in_set k v k0 v0 m :
  In (k, v) (JsMap.set k0 v0 m) -> (k = k0 /\ v = v0) \/ In (k, v) m.
Proof.
  induction m as [|[k' v'] m IH]; cbn [JsMap.set].
  - intros [H|[]]; inversion H; auto.
  - destruct (JsString.eqb k0 k') eqn:E.
    + apply eqb_eq in E; subst k'.
      intros [H|H]; [inversion H; auto | right; right; exact H].
    + intros [H|H]; [right; left; exact H|].
      destruct (IH H); auto. right; right; assumption.
Qed.

Lemma keys_set k v m :
  JsMap.keys (JsMap.set k v m)
  = if existsb (JsString.eqb k) (JsMap.keys m)
    then JsMap.keys m else JsMap.keys m ++ [k].
Proof.
  unfold JsMap.keys; induction m as [|[k' v'] m IH];
    cbn [JsMap.set map existsb fst]; auto.
  destruct (JsString.eqb k k') eqn:E; cbn [map fst orb]; auto.
  rewrite IH; destruct (existsb _ _); reflexivity.
Qed.

Lemma NoDup_set k v m :
  NoDup (JsMap.keys m) -> NoDup (JsMap.keys (JsMap.set k v m)).
Proof.
  intros H; rewrite keys_set.
  destruct (existsb _ _) eqn:E; auto.
  apply NoDup_app; auto.
  - constructor; [intros [] | constructor].
  - intros x Hx [<-|[]].
    assert (existsb (JsString.eqb k) (JsMap.keys m) = true)
      by (apply existsb_exists; exists k; split; auto using eqb_refl).
    congruence.
Qed.

Lemma get_in k v m : JsMap.get k m = Some v -> In (k, v) m.
Proof.
  induction m as [|[k' v'] m IH]; cbn [JsMap.get]; [discriminate|].
  destruct (JsString.eqb k k') eqn:E.
  - apply eqb_eq in E; subst; intros H; inversion H; left; reflexivity.
  - intros H; right; auto.
Qed.

Lemma in_get k v m : NoDup (JsMap.keys m) -> In (k, v) m -> JsMap.get k m = Some v.
Proof.
  unfold JsMap.keys; induction m as [|[k' v'] m IH]; cbn [JsMap.get map fst];
    [intros _ []|].
  intros Hnd [H|H].
  - inversion H; subst; rewrite eqb_refl; reflexivity.
  - inversion Hnd as [|? ? Hnotin Hnd']; subst.
    destruct (JsString.eqb k k') eqn:E; auto.
    apply eqb_eq in E; subst k'.
    exfalso; apply Hnotin; apply (in_map fst) in H; exact H.
Qed.

Lemma fold_set_get k (es : list (jsstring * V)) m :
  JsMap.get k (fold_left (fun m e => JsMap.set (fst e) (snd e) m) es m)
  = match JsMap.get k (rev es) with
    | Some v => Some v
    | None => JsMap.get k m
    end.
Proof.
  revert m; induction es as [|[k0 v0] es IH]; intros m; cbn [fold_left rev fst snd];
    auto.
  rewrite IH, get_app, get_set; cbn [JsMap.get].
  destruct (JsMap.get k (rev es)); auto.
  destruct (JsString.eqb k k0); reflexivity.
Qed.

Lemma fold_set_in k v (es : list (jsstring * V)) m :
  In (k, v) (fold_left (fun m e => JsMap.set (fst e) (snd e) m) es m) ->
  In (k, v) es \/ In (k, v) m.
Proof.
  revert m; induction es as [|[k0 v0] es IH]; intros m;
    cbn [fold_left fst snd]; auto.
  intros H; destruct (IH _ H) as [H'|H']; [left; right; exact H'|].
  destruct (in_set _ _ _ _ _ H') as [[-> ->]|H'']; [left; left|right]; auto.
Qed.

Lemma fold_set_NoDup (es : list (jsstring * V)) m :
  NoDup (JsMap.keys m) ->
  NoDup (JsMap.keys (fold_left (fun m e => JsMap.set (fst e) (snd e) m) es m)).
Proof.
  revert m; induction es as [|e es IH]; intros m H; cbn [fold_left]; auto.
  apply IH, NoDup_set, H.
Qed.

(** [new Map(entries)] has each key once, holds only given entries, and
    maps a key to the value of its last entry. *)
Lemma from_entries_NoDup (es : list (jsstring * V)) :
  NoDup (JsMap.keys (JsMap.from_entries es)).
Proof. apply fold_set_NoDup; constructor. Qed.

Lemma from_entries_in k v (es : list (jsstring * V)) :
  In (k, v) (JsMap.from_entries es) -> In (k, v) es.
Proof. intros H; destruct (fold_set_in _ _ _ _ H) as [|[]]; auto. Qed.

Lemma from_entries_get k (es : list (jsstring * V)) :
  JsMap.get k (JsMap.from_entries es) = JsMap.get k (rev es).
Proof.
  unfold JsMap.from_entries; rewrite fold_set_get; cbn [JsMap.get].
  destruct (JsMap.get k (rev es)); reflexivity.
Qed.

End Facts.

End JsMapFacts.
Import JsMapFacts.

(** ** De-duplication of sources *)

Module SourcesFacts.

Import GeminiService.

Lemma get_entries (u : jsstring) (l : list Source) :
  JsMap.get u (map (fun s => (uri s, s)) l)
  = find (fun x => JsString.eqb u (uri x)) l.
Proof.
  induction l as [|s l IH]; cbn [map JsMap.get find]; auto.
  destruct (JsString.eqb u (uri s)); auto.
Qed.

Lemma entry_key (k : jsstring) (s : Source) (l : list Source) :
  In (k, s) (map (fun s => (uri s, s)) l) -> k = uri s /\ In s l.
Proof.
  rewrite in_map_iff; intros [x [H Hx]]; inversion H; subst; auto.
Qed.

Lemma uniqueSources_in (s : Source) (l : list Source) :
  In s (uniqueSources l) -> In s l.
Proof.
  unfold uniqueSources, JsMap.values; rewrite in_map_iff.
  intros [[k s'] [<- H]]; apply from_entries_in, entry_key in H; tauto.
Qed.

Lemma uniqueSources_keys (l : list Source) :
  map uri (uniqueSources l)
  = JsMap.keys (JsMap.from_entries (map (fun s => (uri s, s)) l)).
Proof.
  unfold uniqueSources, JsMap.values, JsMap.keys; rewrite map_map.
  apply map_ext_in; intros [k s] H; cbn [fst snd].
  apply from_entries_in, entry_key in H; symmetry; tauto.
Qed.

(** No uri occurs twice. *)
Lemma uniqueSources_NoDup (l : list Source) : NoDup (map uri (uniqueSources l)).
Proof. rewrite uniqueSources_keys; apply from_entries_NoDup. Qed.

(** The entry kept for a uri is the last one of the list with that uri. *)
Lemma uniqueSources_last (l : list Source) (s : Source) :
  In s (uniqueSources l) <-> last_with_uri (uri s) l = Some s.
Proof.
  unfold last_with_uri; rewrite <- get_entries, map_rev.
  rewrite <- (@from_entries_get Source).
  unfold uniqueSources, JsMap.values; split.
  - rewrite in_map_iff; intros [[k s'] [Hs H]]; cbn [snd] in Hs; subst s'.
    assert (k = uri s) by (apply from_entries_in, entry_key in H; tauto).
    subst k; apply in_get; auto using from_entries_NoDup.
  - intros H; apply get_in in H.
    apply (in_map snd) in H; exact H.
Qed.

(** Every uri of the list is kept. *)
Lemma uniqueSources_complete (l : list Source) (u : jsstring) :
  In u (map uri l) -> In u (map uri (uniqueSources l)).
Proof.
  rewrite in_map_iff; intros [s [<- Hs]].
  destruct (last_with_uri (uri s) l) as [s'|] eqn:E.
  - pose proof E as E'; unfold last_with_uri in E'.
    apply find_some in E'; destruct E' as [_ Heq]; apply eqb_eq in Heq.
    rewrite Heq in E; apply uniqueSources_last in E.
    rewrite Heq; apply in_map; exact E.
  - unfold last_with_uri in E.
    apply find_none with (x := s) in E; [|apply in_rev; rewrite rev_involutive; exact Hs].
    rewrite eqb_refl in E; discriminate.
Qed.

End SourcesFacts.
Import SourcesFacts.

(** ** Results of the service functions *)

Module ServiceResults.

Import GeminiService GeminiServiceFacts Fixtures.

Lemma chunk_title_nonempty (c : GroundingChunk) : chunk_title c <> [].
Proof.
  unfold chunk_title; destruct (web c) as [w|]; [|discriminate].
  destruct (web_title w) as [t|]; [|discriminate].
  apply or_else_nonempty; discriminate.
Qed.

Lemma chunk_title_given (c : GroundingChunk) (w : GroundingChunkWeb)
  (t : jsstring) :
  web c = Some w -> web_title w = Some t -> t <> [] -> chunk_title c = t.
Proof.
  intros Hw Ht Hne; unfold chunk_title, or_else; rewrite Hw, Ht.
  destruct t; [contradiction | reflexivity].
Qed.

Lemma chunk_title_default (c : GroundingChunk) :
  (forall w t, web c = Some w -> web_title w = Some t -> t = []) ->
  chunk_title c = untitled.
Proof.
  intros H; unfold chunk_title, or_else.
  destruct (web c) as [w|]; auto.
  destruct (web_title w) as [t|] eqn:E; auto.
  rewrite (H w t eq_refl E); reflexivity.
Qed.

Lemma searchWithGrounding_ok (remote : Remote) (query : jsstring)
  (found : SearchResult) :
  searchWithGrounding remote query = Ok found ->
  exists response,
    remote (SearchRequest query) = Ok response
    /\ text found = response_text response
    /\ sources found
       = uniqueSources
           (filter (fun source => JsString.truthy (uri source))
                   (map to_source (rawChunks response))).
Proof.
  unfold searchWithGrounding.
  destruct (remote (SearchRequest query)) as [response|e]; cbn; [|discriminate].
  intros H; inversion H; subst; exists response; auto.
Qed.

(** C10. Every source [searchWithGrounding] returns has a non-empty uri and
    a non-empty title. It comes from a grounding chunk of the response whose
    uri is present and non-empty; its title is the chunk's title when that
    is present and non-empty, and ['Untitled Source'] otherwise. Every chunk
    with a non-empty uri is represented. *)
Theorem searchWithGrounding_sources (remote : Remote) (query : jsstring)
  (found : SearchResult) :
  searchWithGrounding remote query = Ok found ->
  (forall s, In s (sources found) ->
     uri s <> [] /\ title s <> []
     /\ exists response c w,
          remote (SearchRequest query) = Ok response
          /\ In c (rawChunks response)
          /\ web c = Some w /\ web_uri w = Some (uri s)
          /\ title s = chunk_title c
          /\ (forall t, web_title w = Some t -> t <> [] -> title s = t)
          /\ (web_title w = None \/ web_title w = Some [] ->
              title s = untitled))
  /\ (forall response c,
        remote (SearchRequest query) = Ok response ->
        In c (rawChunks response) -> chunk_uri c <> [] ->
        In (chunk_uri c) (map uri (sources found))).
Proof.
  intros H; apply searchWithGrounding_ok in H.
  destruct H as [response [Hr [_ Hs]]]; rewrite Hs; split.
  - intros s Hin; apply uniqueSources_in, filter_In in Hin.
    destruct Hin as [Hin Hne]; apply truthy_nonempty in Hne.
    apply in_map_iff in Hin; destruct Hin as [c [<- Hc]].
    cbn [uri title to_source] in *.
    split; [exact Hne|]. split; [apply chunk_title_nonempty|].
    unfold chunk_uri in Hne |- *.
    destruct (web c) as [w|] eqn:Hw; [|contradiction].
    destruct (web_uri w) as [u|] eqn:Hu; [|contradiction].
    exists response, c, w. repeat split; auto.
    + unfold or_else in *; destruct u; [contradiction | rewrite Hu; reflexivity].
    + intros t Ht Hnt; apply chunk_title_given with (w := w); auto.
    + intros Hnone; apply chunk_title_default; intros w' t Hw' Ht.
      rewrite Hw in Hw'; inversion Hw'; subst w'.
      destruct Hnone as [Hn|Hn]; rewrite Hn in Ht; inversion Ht; auto.
  - intros response' c Hr' Hc Hne; rewrite Hr in Hr'; inversion Hr'; subst.
    apply uniqueSources_complete, in_map_iff.
    exists (to_source c); split; [reflexivity|].
    apply filter_In; split; [apply in_map; exact Hc|].
    apply truthy_nonempty; exact Hne.
Qed.

(** On the fixture: the first page keeps its place with the later title,
    the chunk without a uri is dropped, the missing title is defaulted. *)
Example searchWithGrounding_grounded :
  searchWithGrounding grounded_remote (js "q")
  = Ok {| text := js "overview";
          sources := [
            {| uri := js "https://a.example"; title := js "A, again" |};
            {| uri := js "https://b.example"; title := js "Untitled Source" |}
          ] |}.
Proof. vm_compute; reflexivity. Qed.

Lemma searchWithGrounding_sources_witness :
  (forall s,
     In s [ {| uri := js "https://a.example"; title := js "A, again" |};
            {| uri := js "https://b.example"; title := js "Untitled Source" |} ] ->
     uri s <> [] /\ title s <> []
     /\ exists response c w,
          grounded_remote (SearchRequest (js "q")) = Ok response
          /\ In c (rawChunks response)
          /\ web c = Some w /\ web_uri w = Some (uri s)
          /\ title s = chunk_title c
          /\ (forall t, web_title w = Some t -> t <> [] -> title s = t)
          /\ (web_title w = None \/ web_title w = Some [] ->
              title s = untitled))
  /\ (forall response c,
        grounded_remote (SearchRequest (js "q")) = Ok response ->
        In c (rawChunks response) -> chunk_uri c <> [] ->
        In (chunk_uri c)
           (map uri
              [ {| uri := js "https://a.example"; title := js "A, again" |};
                {| uri := js "https://b.example";
                   title := js "Untitled Source" |} ])).
Proof.
  apply (searchWithGrounding_sources grounded_remote (js "q")
           (found := {| text := js "overview";
                        sources := [
                          {| uri := js "https://a.example";
                             title := js "A, again" |};
                          {| uri := js "https://b.example";
                             title := js "Untitled Source" |} ] |})).
  vm_compute; reflexivity.
Defined.

(** *** The research plan *)

Lemma missing_false (result : value) (m : jsstring) :
  missing result m = Ok false <->
  truthy result = true /\ exists x, get result m = Ok x /\ truthy x = true.
Proof.
  unfold missing, falsy; destruct (truthy result) eqn:Ht; cbn.
  - destruct (get result m) as [x|e] eqn:Hg; cbn.
    + split.
      * intros H; inversion H as [Hx]; split; auto.
        exists x; split; auto. destruct (truthy x); auto; discriminate.
      * intros [_ [y [Hy Hty]]]; inversion Hy; subst; rewrite Hty; reflexivity.
    + split; [discriminate | intros [_ [y [Hy _]]]; discriminate].
  - split; [discriminate | intros [H _]; discriminate].
Qed.

(** [generateResearchPlan] succeeds exactly when the call resolves and the
    cleaned response text parses to a truthy value with a truthy [plan]
    property, and it returns that property as it is. *)
Lemma generateResearchPlan_ok_iff (remote : Remote)
  (topic : jsstring) (v : value) :
  generateResearchPlan remote topic = Ok v <->
  exists response,
    remote (PlanRequest topic) = Ok response
    /\ truthy (parseJson (response_text response)) = true
    /\ get (parseJson (response_text response)) plan_key = Ok v
    /\ truthy v = true.
Proof.
  unfold generateResearchPlan.
  destruct (remote (PlanRequest topic)) as [response|e]; cbn [rbind rcatch].
  - set (result := parseJson (response_text response)).
    destruct (missing result plan_key) as [[|]|e] eqn:E; cbn [rbind rcatch].
    + split; [discriminate|].
      intros [r [Hr [Ht [Hg Hv]]]]; inversion Hr; subst r; fold result in Ht, Hg.
      assert (missing result plan_key = Ok false)
        by (apply missing_false; split; auto; exists v; auto).
      congruence.
    + apply missing_false in E; destruct E as [Ht [x [Hx Htx]]].
      rewrite Hx; cbn [rbind rcatch]; split.
      * intros H; inversion H; subst; exists response; auto.
      * intros [r [Hr [_ [Hg _]]]]; inversion Hr; subst r; fold result in Hg.
        congruence.
    + split; [discriminate|].
      intros [r [Hr [Ht [Hg Hv]]]]; inversion Hr; subst r; fold result in Ht, Hg.
      assert (missing result plan_key = Ok false)
        by (apply missing_false; split; auto; exists v; auto).
      congruence.
  - split; [discriminate | intros [r [Hr _]]; discriminate].
Qed.

(** C7 fails as stated: a response that conforms to the schema with a plan
    of one question is returned as a plan of length 1. *)
Lemma generateResearchPlan_short_plan :
  generateResearchPlan short_remote (js "quantum cryptography impact")
  = Ok (JArr [item_value])
  /\ as_plan (JArr [item_value]) = Some [item]
  /\ ~ (3 <= List.length [item] <= 5).
Proof.
  split; [vm_compute; reflexivity|].
  split; [vm_compute; reflexivity|].
  cbn; lia.
Qed.

Lemma parseJson_accepts_fenced_witness :
  parseJson (fence_json ++ [LF] ++ short_plan_text ++ [LF] ++ fence)
  = JObj [(js "plan", JArr [item_value])]
  /\ JSON.parse (fence_json ++ [LF] ++ short_plan_text ++ [LF] ++ fence) = None
  /\ (plain_start ([LF] ++ short_plan_text ++ [LF]) = true ->
      parseJson (fence ++ [LF] ++ short_plan_text ++ [LF] ++ fence)
      = JObj [(js "plan", JArr [item_value])]
      /\ JSON.parse (fence ++ [LF] ++ short_plan_text ++ [LF] ++ fence) = None)
  /\ parseJson short_plan_text = JObj [(js "plan", JArr [item_value])].
Proof.
  apply GeminiServiceFacts.parseJson_accepts_fenced; vm_compute; reflexivity.
Defined.

(** The fenced form of the same response is parsed to the same value. *)
Example parseJson_fenced_plan :
  parseJson fenced_plan_text = JObj [(js "plan", JArr [item_value])]
  /\ JSON.parse fenced_plan_text = None.
Proof. split; vm_compute; reflexivity. Qed.

(** Single backticks inside the text are kept. *)
Example parseJson_inline_code :
  parseJson (fence_json ++ [LF] ++ inline_code_text ++ [LF] ++ fence)
  = JObj [(js "reasoning", JStr (js "call `f` twice"))].
Proof. vm_compute; reflexivity. Qed.

(** A fence inside the text is removed with the others, which is why the
    theorem asks for a text without one. *)
Example parseJson_fence_inside :
  parseJson fenced_code_text
  = JObj [(js "reasoning", JStr (js "see f() above"))].
Proof. vm_compute; reflexivity. Qed.

(** *** Plans of every length *)

Lemma parse_item (f : nat) (rest : jsstring) :
  parse_value (4 + f) (item_text ++ rest) = Some (item_value, rest).
Proof. vm_compute; reflexivity. Qed.

Lemma parse_elements_S (f : nat) (s : jsstring) (acc : list value) :
  parse_elements (S f) s acc
  = match parse_value f s with
    | None => None
    | Some (v, r) =>
        match skip_ws r with
        | x :: r' =>
            if (x =? 44)%N then parse_elements f r' (v :: acc)
            else if (x =? 93)%N then Some (JArr (rev (v :: acc)), r')
            else None
        | [] => None
        end
    end.
Proof. reflexivity. Qed.

(** The elements of an array of [n + 1] items. *)
Lemma parse_more (n f : nat) (acc : list value) (rest : jsstring) :
  parse_elements (5 + n + f) (item_text ++ more_items n ++ js "]" ++ rest) acc
  = Some (JArr (rev acc ++ repeat item_value (S n)), rest).
Proof.
  revert f acc; induction n as [|n IH]; intros f acc.
  - change (5 + 0 + f) with (S (4 + f)).
    rewrite parse_elements_S, parse_item; reflexivity.
  - change (5 + S n + f) with (S (4 + (S n + f))).
    rewrite parse_elements_S, parse_item.
    cbn [more_items].
    change (js "," ++ item_text ++ more_items n)
      with (44%N :: (item_text ++ more_items n)).
    cbn [app skip_ws]; change (is_ws 44%N) with false; cbv iota.
    change (44 =? 44)%N with true; cbv iota.
    change (4 + (S n + f)) with (5 + n + f).
    rewrite <- app_assoc, IH; cbn [rev].
    rewrite <- app_assoc; reflexivity.
Qed.

(** The object around the array. *)
Lemma parse_plan_value (g : nat) (t : jsstring) (v : value) :
  parse_elements g (123%N :: t) [] = Some (v, js "}") ->
  parse_value (3 + g) (js "{" ++ quoted "plan" ++ js ":[" ++ 123%N :: t)
  = Some (JObj [(js "plan", v)], []).
Proof.
  intros H; vm_compute in H |- *; rewrite H; reflexivity.
Qed.

Lemma more_items_length (n : nat) : n <= List.length (more_items n).
Proof.
  induction n as [|n IH]; cbn [more_items]; [apply Nat.le_0_l|].
  rewrite !length_app; cbn [List.length js map list_ascii_of_string]; lia.
Qed.

Lemma parse_plan_text (n : nat) :
  JSON.parse (plan_text n)
  = Some (JObj [(js "plan", JArr (repeat item_value n))]).
Proof.
  destruct n as [|n]; [vm_compute; reflexivity|].
  unfold JSON.parse.
  assert (Hfuel : exists f,
             2 * List.length (plan_text (S n)) + 2 = 3 + (5 + n + f)).
  { exists (2 * List.length (plan_text (S n)) + 2 - (3 + (5 + n))).
    pose proof (more_items_length n) as Hn.
    unfold plan_text, items_text; rewrite !length_app.
    cbn [List.length js map list_ascii_of_string]; lia. }
  destruct Hfuel as [f ->].
  unfold plan_text, items_text.
  change item_text with (123%N :: tl item_text) at 1.
  cbn [app].
  rewrite (@parse_plan_value (5 + n + f) _ (JArr (repeat item_value (S n)))).
  - reflexivity.
  - change (123%N :: (tl item_text ++ more_items n) ++ js "]}")
      with (item_text ++ more_items n ++ js "]" ++ js "}").
    apply parse_more.
Qed.

Lemma more_items_free (n : nat) : free_of BACKTICK (more_items n).
Proof.
  induction n as [|n IH]; cbn [more_items]; [reflexivity|].
  rewrite !free_of_app; repeat split; auto; reflexivity.
Qed.

Lemma plan_text_free (n : nat) : free_of BACKTICK (plan_text n).
Proof.
  unfold plan_text, items_text; rewrite !free_of_app.
  destruct n; rewrite ?free_of_app; repeat split;
    auto using more_items_free; reflexivity.
Qed.

Lemma free_no_fence (s : jsstring) :
  free_of BACKTICK s -> includes fence s = false.
Proof.
  intros H; rewrite <- (app_nil_r s), (includes_fence_pad_l _ H); reflexivity.
Qed.

Lemma trim_solid (c d : code_unit) (s : jsstring) :
  isWhiteSpace c = false -> isWhiteSpace d = false ->
  trim (c :: s ++ [d]) = c :: s ++ [d].
Proof.
  intros Hc Hd; unfold trim, trimEnd; cbn [trimStart]; rewrite Hc.
  change (c :: s ++ [d]) with ((c :: s) ++ [d]).
  rewrite rev_app_distr; cbn [rev app trimStart]; rewrite Hd.
  change (d :: rev s ++ [c]) with ([d] ++ rev (c :: s)).
  rewrite rev_app_distr, rev_involutive; reflexivity.
Qed.

Lemma clean_plan_text (n : nat) : clean (plan_text n) = plan_text n.
Proof.
  rewrite clean_bare by (apply free_no_fence, plan_text_free).
  unfold plan_text.
  replace (js "{" ++ quoted "plan" ++ js ":[" ++ items_text n ++ js "]}")
    with (123%N :: (quoted "plan" ++ js ":[" ++ items_text n ++ [93%N])
                ++ [125%N])
    by (rewrite <- !app_assoc; reflexivity).
  apply trim_solid; reflexivity.
Qed.

Lemma as_plan_repeat (n : nat) :
  as_plan (JArr (repeat item_value n)) = Some (repeat item n).
Proof.
  cbn [as_plan]; induction n as [|n IH]; [reflexivity|].
  cbn [repeat as_items]; rewrite IH; reflexivity.
Qed.

(** C7, as amended. A successful call of [generateResearchPlan] returns
    the [plan] property of the parsed response as it is, whenever the
    parsed response and that property are truthy; nothing bounds the length
    of the list: for every [n], the response that holds a plan of [n]
    questions is returned as a list of [n] items. *)
Theorem generateResearchPlan_returns_plan :
  (forall (remote : Remote) (topic : jsstring) (v : value),
      generateResearchPlan remote topic = Ok v <->
      exists response,
        remote (PlanRequest topic) = Ok response
        /\ truthy (parseJson (response_text response)) = true
        /\ get (parseJson (response_text response)) plan_key = Ok v
        /\ truthy v = true)
  /\ (forall (n : nat) (topic : jsstring),
        generateResearchPlan (plan_remote n) topic
        = Ok (JArr (repeat item_value n))
        /\ as_plan (JArr (repeat item_value n)) = Some (repeat item n)
        /\ List.length (repeat item n) = n).
Proof.
  split; [exact generateResearchPlan_ok_iff|].
  intros n topic; split; [|split].
  - apply generateResearchPlan_ok_iff.
    exists (respond (plan_text n)); split; [reflexivity|].
    cbn [response_text respond]; unfold parseJson.
    rewrite clean_plan_text, parse_plan_text; repeat split; reflexivity.
  - apply as_plan_repeat.
  - apply repeat_length.
Qed.

End ServiceResults.

(** ** The research flow *)

Module AgentRuns.

Import GeminiService DeepSeekAgent RunShape.

(** Running a program symbolically: the operations of the monad and of the
    component are unfolded once they are applied to a world, the loops are
    not. *)
#[local] Arguments bind {S A B} m k s /.
#[local] Arguments ret {S A} a s /.
#[local] Arguments throw {S A} e s /.
#[local] Arguments try_catch {S A} body handler s /.
#[local] Arguments try_finally {S A} body fin s /.
#[local] Arguments gets {S A} f s /.
#[local] Arguments modify {S} f s /.
#[local] Arguments await {S A} r s /.
#[local] Arguments on_state f s /.
#[local] Arguments emit e s /.
#[local] Arguments setTopic v s /.
#[local] Arguments setStage v s /.
#[local] Arguments setReport v s /.
#[local] Arguments setSources v s /.
#[local] Arguments setError v s /.
#[local] Arguments setPlan v s /.
#[local] Arguments setProgressLog f s /.
#[local] Arguments writeResults v s /.
#[local] Arguments writeSources v s /.
#[local] Arguments readResults s /.
#[local] Arguments readSources s /.
#[local] Arguments pushSources newSources s /.
#[local] Arguments addLog message s /.
#[local] Arguments resetState s /.
#[local] Arguments generateResearchPlan svc topic w /.
#[local] Arguments searchWithGrounding svc query w /.
#[local] Arguments evaluateCompleteness svc plan searchResults w /.
#[local] Arguments refineSearchQueries svc unansweredQuestions w /.
#[local] Arguments synthesizeReport svc topic searchResults w /.

Ltac exec :=
  cbn [bind ret throw try_catch try_finally gets modify await
       on_state emit setTopic setStage setReport setSources setError setPlan
       setProgressLog writeResults writeSources readResults readSources
       pushSources addLog resetState
       generateResearchPlan searchWithGrounding evaluateCompleteness
       refineSearchQueries synthesizeReport
       st trace topic stage report sources error plan progressLog
       accumulatedResultsRef accumulatedSourcesRef fst snd].

Ltac exec_in H :=
  cbn [st trace topic stage report sources error plan progressLog
       accumulatedResultsRef accumulatedSourcesRef fst snd] in H.

Section Runs.

Variable svc : Service.

Lemma search_phase_app qs1 qs2 s s' s'' evs1 evs2 :
  search_phase qs1 s evs1 s' ->
  search_phase qs2 s' evs2 s'' ->
  search_phase (qs1 ++ qs2) s (evs1 ++ evs2) s''.
Proof.
  induction 1; intros H2; cbn [app]; auto; constructor; auto.
Qed.

(** One search: it never throws. *)
Lemma searchQuery_run (query : jsstring) (w : World) :
  exists w' evs,
    searchQuery svc query w = Some (Ok tt, w')
    /\ trace w' = trace w ++ evs
    /\ search_phase [query] (evidence w) evs (evidence w')
    /\ (consistent w -> consistent w').
Proof.
  unfold searchQuery; exec.
  destruct (svc_searchWithGrounding svc (trace w) query) as [found|e];
    do 2 eexists; (split; [reflexivity|]); exec.
  - split; [rewrite <- app_assoc; reflexivity|].
    split; [|intros _; reflexivity].
    unfold evidence; exec. constructor; constructor.
  - split; [reflexivity|].
    split; [|intros H; exact H].
    unfold evidence; exec. constructor; constructor.
Qed.

Lemma search_all (qs : list jsstring) (w : World) :
  exists w' evs,
    for_of qs (searchQuery svc) w = Some (Ok tt, w')
    /\ trace w' = trace w ++ evs
    /\ search_phase qs (evidence w) evs (evidence w')
    /\ (consistent w -> consistent w').
Proof.
  revert w; induction qs as [|q qs IH]; intros w; cbn [for_of].
  - exists w, []; rewrite app_nil_r; repeat split; auto; constructor.
  - destruct (searchQuery_run q w) as [w1 [evs1 [E1 [T1 [P1 C1]]]]].
    destruct (IH w1) as [w2 [evs2 [E2 [T2 [P2 C2]]]]].
    exists w2, (evs1 ++ evs2); unfold bind; rewrite E1, E2.
    split; [reflexivity|]. split; [rewrite T2, T1, app_assoc; reflexivity|].
    split; [|auto].
    change (q :: qs) with ([q] ++ qs); eapply search_phase_app; eauto.
Qed.

(** One run of the loop body. *)
Lemma iteration_run (initialPlan : list ResearchPlanItem) (i : nat)
  (qs : list jsstring) (w : World) :
  exists r w' evs,
    iteration svc initialPlan i qs w = Some (r, w')
    /\ trace w' = trace w ++ evs
    /\ round initialPlan i qs (evidence w) evs r (evidence w')
    /\ (consistent w -> consistent w').
Proof.
  unfold iteration; exec.
  match goal with
  | |- context [for_of qs (searchQuery svc) ?W] =>
      destruct (search_all qs W) as [w2 [S [E2 [T2 [P2 C2]]]]]; rewrite E2
  end.
  unfold evidence, consistent in P2, C2; exec_in P2; exec_in C2; exec_in T2.
  exec.
  destruct (svc_evaluateCompleteness svc (trace w2) initialPlan
              (accumulatedResultsRef (st w2))) as [ev|e] eqn:Eev; exec.
  2:{ do 3 eexists; split; [reflexivity|]; exec.
      split; [rewrite T2, <- !app_assoc; reflexivity|].
      split; [|exact C2].
      apply (round_evaluation_failed initialPlan i e P2). }
  destruct (is_complete ev) eqn:Hc; exec.
  { do 3 eexists; split; [reflexivity|]; exec.
    split; [rewrite T2, <- !app_assoc; reflexivity|].
    split; [|exact C2].
    apply (round_complete initialPlan i ev P2 Hc). }
  destruct (Nat.eqb_spec i (MAX_ITERATIONS - 1)) as [Hi|Hi]; exec.
  { do 3 eexists; split; [reflexivity|]; exec.
    split; [rewrite T2, <- !app_assoc; reflexivity|].
    split; [|exact C2].
    apply (round_last initialPlan ev P2 Hc Hi). }
  match goal with
  | |- context [svc_refineSearchQueries svc ?T ?Q] =>
      destruct (svc_refineSearchQueries svc T Q) as [[|q newQueries]|e] eqn:Er
  end; cbn [List.length Nat.eqb]; exec.
  - do 3 eexists; split; [reflexivity|]; exec.
    split; [rewrite T2, <- !app_assoc; reflexivity|].
    split; [|exact C2].
    apply (round_refinement_empty initialPlan ev P2 Hc Hi).
  - do 3 eexists; split; [reflexivity|]; exec.
    split; [rewrite T2, <- !app_assoc; reflexivity|].
    split; [|exact C2].
    apply (round_refined initialPlan ev P2 Hc Hi); discriminate.
  - do 3 eexists; split; [reflexivity|]; exec.
    split; [rewrite T2, <- !app_assoc; reflexivity|].
    split; [|exact C2].
    apply (round_refinement_failed initialPlan ev e P2 Hc Hi).
Qed.

(** The loop: with fuel for the iterations that remain it ends, by
    returning or by throwing. *)
Lemma for_loop_run (fuel : nat) (initialPlan : list ResearchPlanItem) (i : nat)
  (qs : list jsstring) (w : World) :
  MAX_ITERATIONS - i <= fuel ->
  exists r w' evs,
    for_loop svc fuel initialPlan i qs w = Some (r, w')
    /\ trace w' = trace w ++ evs
    /\ rounds initialPlan i qs (evidence w) evs r (evidence w')
    /\ (consistent w -> consistent w').
Proof.
  revert i qs w; induction fuel as [|fuel IH]; intros i qs w Hfuel;
    cbn [for_loop]; destruct (Nat.ltb_spec i MAX_ITERATIONS) as [Hi|Hi];
    try lia.
  - exists (Ok tt), w, []; rewrite app_nil_r; repeat split; auto.
    apply rounds_exit; exact Hi.
  - destruct (iteration_run initialPlan i qs w)
      as [r1 [w1 [evs1 [E1 [T1 [R1 C1]]]]]].
    unfold bind at 1; rewrite E1.
    destruct r1 as [[|qs']|e].
    + exists (Ok tt), w1, evs1; repeat split; auto.
      apply rounds_break; assumption.
    + destruct (IH (i + 1) qs' w1) as [r [w2 [evs2 [E2 [T2 [R2 C2]]]]]];
        [lia|].
      exists r, w2, (evs1 ++ evs2); rewrite E2.
      split; [reflexivity|].
      split; [rewrite T2, T1, app_assoc; reflexivity|].
      split; [|auto].
      eapply rounds_next; eauto.
    + exists (Err e), w1, evs1; repeat split; auto.
      apply rounds_throw; assumption.
  - exists (Ok tt), w, []; rewrite app_nil_r; repeat split; auto.
    apply rounds_exit; exact Hi.
Qed.

Lemma runSearchAndEvaluateLoop_run (fuel : nat)
  (initialPlan : list ResearchPlanItem) (w : World) :
  MAX_ITERATIONS <= fuel ->
  exists r w' evs,
    runSearchAndEvaluateLoop svc fuel initialPlan w = Some (r, w')
    /\ trace w' = trace w ++ evs
    /\ rounds initialPlan 0 (plan_queries initialPlan) (evidence w) evs r
         (evidence w')
    /\ (consistent w -> consistent w').
Proof.
  intros H; unfold runSearchAndEvaluateLoop; apply for_loop_run; lia.
Qed.

(** A whole run on a topic that is not blank: [handleResearch] returns
    normally, whatever the service does. *)
Lemma handleResearch_run (fuel : nat) (w : World) :
  MAX_ITERATIONS <= fuel ->
  JsString.truthy (trim (topic (st w))) = true ->
  exists w' evs,
    handleResearch svc fuel w = Some (Ok tt, w')
    /\ trace w' = trace w ++ evs
    /\ run (topic (st w)) evs (evidence w')
    /\ consistent w'.
Proof.
  intros Hfuel Htopic; unfold handleResearch, runPlanning, runSynthesis; exec.
  rewrite Htopic; cbn [negb]; exec.
  match goal with
  | |- context [svc_generateResearchPlan svc ?T ?Q] =>
      destruct (svc_generateResearchPlan svc T Q) as [researchPlan|e] eqn:Ep
  end; exec.
  2:{ do 2 eexists; split; [reflexivity|]; exec.
      split; [rewrite <- !app_assoc; reflexivity|].
      split; [apply run_planning_failed | reflexivity]. }
  match goal with
  | |- context [runSearchAndEvaluateLoop svc fuel researchPlan ?W] =>
      destruct (runSearchAndEvaluateLoop_run researchPlan W Hfuel)
        as [r [w2 [evs [E2 [T2 [R2 C2]]]]]]; rewrite E2
  end.
  unfold evidence, consistent in R2, C2; exec_in R2; exec_in C2; exec_in T2.
  specialize (C2 eq_refl).
  destruct r as [[]|e]; exec.
  2:{ do 2 eexists; split; [reflexivity|]; exec.
      split; [rewrite T2, <- !app_assoc; reflexivity|].
      split; [|exact C2].
      eapply run_loop_failed; exact R2. }
  match goal with
  | |- context [svc_synthesizeReport svc ?T ?Q ?B] =>
      destruct (svc_synthesizeReport svc T Q B) as [finalReport|e] eqn:Es
  end; exec.
  - do 2 eexists; split; [reflexivity|]; exec.
    split; [rewrite T2, <- !app_assoc; reflexivity|].
    split; [|exact C2].
    apply (run_synthesis _ _ R2).
  - do 2 eexists; split; [reflexivity|]; exec.
    split; [rewrite T2, <- !app_assoc; reflexivity|].
    split; [|exact C2].
    apply (run_synthesis _ _ R2).
Qed.

(** On a blank topic [handleResearch] only sets the error text. *)
Lemma handleResearch_blank (fuel : nat) (w : World) :
  JsString.truthy (trim (topic (st w))) = false ->
  exists w',
    handleResearch svc fuel w = Some (Ok tt, w')
    /\ trace w' = trace w
    /\ evidence w' = evidence w
    /\ sources (st w') = sources (st w).
Proof.
  intros Htopic; unfold handleResearch; exec.
  rewrite Htopic; cbn [negb]; exec.
  eexists; split; [reflexivity|]; auto.
Qed.

End Runs.

End AgentRuns.

(** ** Event lists of a run *)

Module ShapeFacts.

Import GeminiService DeepSeekAgent RunShape.

Lemma split_app {X : Type} (x : X) (pre post l1 l2 : list X) :
  pre ++ x :: post = l1 ++ l2 ->
  (exists mid, l1 = pre ++ x :: mid /\ post = mid ++ l2)
  \/ (exists mid, pre = l1 ++ mid /\ l2 = mid ++ x :: post).
Proof.
  revert l1; induction pre as [|a pre IH]; intros [|b l1]; cbn [app]; intros H.
  - right; exists []; auto.
  - inversion H; subst; left; exists l1; auto.
  - right; exists (a :: pre); auto.
  - inversion H as [[Hab Hrest]]; destruct (IH _ Hrest) as [[mid [-> ->]]|[mid [-> ->]]].
    + left; exists mid; auto.
    + right; exists mid; auto.
Qed.

Lemma search_phase_events qs s S s' :
  search_phase qs s S s' -> forallb is_search_event S = true.
Proof. induction 1; cbn [forallb is_search_event andb]; auto. Qed.

(** An event that is not a search event sits after the search phase. *)
Lemma locate_after_search (S T pre post : list Event) (x : Event) :
  forallb is_search_event S = true ->
  is_search_event x = false ->
  S ++ T = pre ++ x :: post ->
  exists mid, pre = S ++ mid /\ T = mid ++ x :: post.
Proof.
  intros HS Hx H; symmetry in H.
  destruct (split_app _ _ _ _ _ H) as [[mid [-> _]]|[mid [-> ->]]].
  - rewrite forallb_app in HS; cbn [forallb] in HS.
    rewrite Hx in HS; cbn in HS; rewrite andb_false_r in HS; discriminate.
  - exists mid; auto.
Qed.

Lemma filter_search_events (f : Event -> bool) (S : list Event) :
  forallb is_search_event S = true ->
  (forall e, is_search_event e = true -> f e = false) ->
  filter f S = [].
Proof.
  intros HS Hf; induction S as [|e S IH]; cbn [filter]; auto.
  cbn [forallb] in HS; apply andb_true_iff in HS; destruct HS as [He HS].
  rewrite (Hf e He); auto.
Qed.

Lemma iterations_app (a b : list Event) :
  iterations (a ++ b) = iterations a + iterations b.
Proof. unfold iterations; rewrite filter_app, length_app; reflexivity. Qed.

Lemma evaluations_app (a b : list Event) :
  evaluations (a ++ b) = evaluations a + evaluations b.
Proof. unfold evaluations; rewrite filter_app, length_app; reflexivity. Qed.

Lemma iterations_search (S : list Event) :
  forallb is_search_event S = true -> iterations S = 0.
Proof.
  intros H; unfold iterations; rewrite filter_search_events; auto.
  intros [] He; auto; discriminate.
Qed.

Lemma evaluations_search (S : list Event) :
  forallb is_search_event S = true -> evaluations S = 0.
Proof.
  intros H; unfold evaluations; rewrite filter_search_events; auto.
  intros [] He; auto; discriminate.
Qed.

Lemma iterations_round (i : nat) (S T : list Event) :
  forallb is_search_event S = true ->
  iterations (Iteration i :: S ++ T) = 1 + iterations T.
Proof.
  intros HS; change (Iteration i :: S ++ T) with ([Iteration i] ++ S ++ T).
  rewrite !iterations_app, (iterations_search _ HS); reflexivity.
Qed.

Lemma evaluations_round (i : nat) (S T : list Event) :
  forallb is_search_event S = true ->
  evaluations (Iteration i :: S ++ T) = evaluations T.
Proof.
  intros HS; change (Iteration i :: S ++ T) with ([Iteration i] ++ S ++ T).
  rewrite !evaluations_app, (evaluations_search _ HS); reflexivity.
Qed.

(** One run of the body: one entry, one evaluation. *)
Lemma round_counts plan i qs s evs rc s' :
  round plan i qs s evs rc s' -> iterations evs = 1 /\ evaluations evs = 1.
Proof.
  intros H; inversion H; subst;
    match goal with
    | HS : search_phase _ _ _ _ |- _ => apply search_phase_events in HS
    end;
    rewrite iterations_round, evaluations_round by assumption;
    split; reflexivity.
Qed.

Lemma rounds_counts plan i qs s evs r s' :
  rounds plan i qs s evs r s' ->
  iterations evs <= MAX_ITERATIONS - i /\ evaluations evs = iterations evs.
Proof.
  induction 1 as [| ? ? ? ? ? ? Hr | ? ? ? ? ? ? ? Hr
                  | ? ? ? ? ? ? ? ? ? ? Hr ? IH];
    try (destruct (round_counts Hr) as [Hi He]).
  - split; [apply Nat.le_0_l | reflexivity].
  - rewrite Hi, He; split; [lia | reflexivity].
  - rewrite Hi, He; split; [lia | reflexivity].
  - rewrite iterations_app, evaluations_app, Hi, He.
    destruct IH as [IH1 IH2]; rewrite IH2; split; [lia | reflexivity].
Qed.

Lemma run_counts topic evs s' :
  run topic evs s' -> iterations evs <= MAX_ITERATIONS.
Proof.
  intros H; inversion H as [e | plan L e s1 HR | plan L s1 r HR]; subst.
  - cbn; lia.
  - apply rounds_counts in HR; destruct HR as [HR _].
    change (WriteResults [] :: Planned topic (Ok plan) :: L)
      with ([WriteResults []; Planned topic (Ok plan)] ++ L).
    rewrite iterations_app; cbn [iterations filter is_iteration List.length].
    lia.
  - apply rounds_counts in HR; destruct HR as [HR _].
    change (WriteResults [] :: Planned topic (Ok plan)
              :: L ++ [Synthesized topic (fst s') r])
      with ([WriteResults []; Planned topic (Ok plan)]
              ++ L ++ [Synthesized topic (fst s') r]).
    rewrite !iterations_app; cbn [iterations filter is_iteration List.length].
    lia.
Qed.

(** *** The collected sources *)

Lemma searched_sources_app (a b : list Event) :
  searched_sources (a ++ b) = searched_sources a ++ searched_sources b.
Proof. unfold searched_sources; apply flat_map_app. Qed.

Lemma search_phase_sources qs s S s' :
  search_phase qs s S s' -> snd s' = snd s ++ searched_sources S.
Proof.
  induction 1 as [s | ? ? ? ? ? ? ? IH | ? ? ? ? ? ? ? ? IH]; cbn [snd] in *.
  - rewrite app_nil_r; reflexivity.
  - exact IH.
  - rewrite IH, <- app_assoc; reflexivity.
Qed.

Lemma round_sources plan i qs s evs rc s' :
  round plan i qs s evs rc s' -> snd s' = snd s ++ searched_sources evs.
Proof.
  intros H; inversion H; subst;
    match goal with
    | HS : search_phase _ _ _ _ |- _ =>
        apply search_phase_sources in HS; rewrite HS
    end;
    cbn [searched_sources flat_map app];
    match goal with
    | |- context [flat_map ?f (?S ++ ?T)] =>
        rewrite (flat_map_app f S T); cbn [flat_map app];
        rewrite app_nil_r; reflexivity
    end.
Qed.

Lemma rounds_sources plan i qs s evs r s' :
  rounds plan i qs s evs r s' -> snd s' = snd s ++ searched_sources evs.
Proof.
  induction 1 as [| ? ? ? ? ? ? Hr | ? ? ? ? ? ? ? Hr
                  | ? ? ? ? ? ? ? ? ? ? Hr ? IH];
    try (apply round_sources in Hr).
  - rewrite app_nil_r; reflexivity.
  - exact Hr.
  - exact Hr.
  - rewrite IH, Hr, searched_sources_app, app_assoc; reflexivity.
Qed.

Lemma run_sources topic evs s' :
  run topic evs s' -> snd s' = searched_sources evs.
Proof.
  intros H; inversion H; subst; cbn [searched_sources flat_map app snd].
  - reflexivity.
  - match goal with HR : rounds _ _ _ _ _ _ _ |- _ =>
      apply rounds_sources in HR; exact HR end.
  - match goal with HR : rounds _ _ _ _ _ _ _ |- _ =>
      apply rounds_sources in HR; rewrite HR end.
    fold (searched_sources (evs0 ++ [Synthesized topic (fst s') r])).
    rewrite searched_sources_app; cbn; rewrite app_nil_r; reflexivity.
Qed.

(** *** The collected results *)

Lemma chain_nil (a : jsstring) : chain a [] a.
Proof. split; [constructor | reflexivity]. Qed.

Lemma chain_app (a b c : jsstring) (l1 l2 : list jsstring) :
  chain a l1 b -> chain b l2 c -> chain a (l1 ++ l2) c.
Proof.
  revert a; induction l1 as [|x l1 IH]; intros a [G1 L1] H2.
  - cbn in L1; subst b; exact H2.
  - assert (Hm : exists more, x = a ++ more /\ growing (x :: l1))
      by (inversion G1; eauto).
    destruct Hm as [more [-> G1']].
    assert (Hx : chain (a ++ more) l1 b) by (split; [exact G1' | exact L1]).
    destruct (IH _ Hx H2) as [G L].
    split; [cbn [app]; constructor; exact G | exact L].
Qed.

Lemma writes_app (a b : list Event) : writes (a ++ b) = writes a ++ writes b.
Proof. unfold writes; apply flat_map_app. Qed.

Lemma search_phase_writes qs s S s' :
  search_phase qs s S s' -> chain (fst s) (writes S) (fst s').
Proof.
  induction 1 as [s | ? ? ? ? ? ? ? IH | ? ? ? ? ? ? ? ? IH]; cbn [fst] in *.
  - apply chain_nil.
  - exact IH.
  - destruct IH as [G L]; split; [|exact L].
    cbn [writes flat_map app]; constructor; exact G.
Qed.

Lemma round_writes plan i qs s evs rc s' :
  round plan i qs s evs rc s' -> chain (fst s) (writes evs) (fst s').
Proof.
  intros H; inversion H; subst;
    match goal with
    | HS : search_phase _ _ _ _ |- _ => apply search_phase_writes in HS
    end;
    cbn [writes flat_map app];
    match goal with
    | |- context [flat_map ?f (?S ++ ?T)] =>
        rewrite (flat_map_app f S T); cbn [flat_map app];
        rewrite app_nil_r; assumption
    end.
Qed.

Lemma rounds_writes plan i qs s evs r s' :
  rounds plan i qs s evs r s' -> chain (fst s) (writes evs) (fst s').
Proof.
  induction 1 as [| ? ? ? ? ? ? Hr | ? ? ? ? ? ? ? Hr
                  | ? ? ? ? ? ? ? ? ? ? Hr ? IH];
    try (apply round_writes in Hr); auto using chain_nil.
  rewrite writes_app; eapply chain_app; eauto.
Qed.

Lemma run_writes topic evs s' :
  run topic evs s' -> exists ws, writes evs = [] :: ws /\ chain [] ws (fst s').
Proof.
  intros H; inversion H; subst; cbn [writes flat_map app].
  - exists []; split; [reflexivity | apply chain_nil].
  - match goal with HR : rounds _ _ _ _ _ _ _ |- _ =>
      apply rounds_writes in HR end.
    eexists; split; [reflexivity | eassumption].
  - match goal with HR : rounds _ _ _ _ _ _ _ |- _ =>
      apply rounds_writes in HR end.
    fold (writes (evs0 ++ [Synthesized topic (fst s') r])).
    rewrite writes_app; cbn [writes flat_map app]; rewrite app_nil_r.
    eexists; split; [reflexivity | eassumption].
Qed.

(** In a growing list every value extends every earlier one. *)
Lemma growing_head (a : jsstring) (l : list jsstring) :
  growing (a :: l) -> forall x, In x l -> extends a x.
Proof.
  revert a; induction l as [|b l IH]; intros a G x Hx; [destruct Hx|].
  assert (Hm : exists more, b = a ++ more /\ growing (b :: l))
    by (inversion G; eauto).
  destruct Hm as [more [-> G']]; destruct Hx as [<-|Hx].
  - exists more; reflexivity.
  - destruct (IH _ G' x Hx) as [more' ->].
    exists (more ++ more'); rewrite app_assoc; reflexivity.
Qed.

Lemma growing_tail (a : jsstring) (l : list jsstring) :
  growing (a :: l) -> growing l.
Proof. intros G; inversion G; subst; [constructor | assumption]. Qed.

Lemma growing_nth (l : list jsstring) :
  growing l ->
  forall i j, i <= j < List.length l -> extends (nth i l []) (nth j l []).
Proof.
  induction l as [|a l IH]; intros G i j [Hij Hj]; cbn [List.length] in Hj;
    [lia|].
  destruct i as [|i], j as [|j]; try lia; cbn [nth].
  - exists []; rewrite app_nil_r; reflexivity.
  - apply (growing_head G), nth_In; lia.
  - apply IH; [eapply growing_tail; eassumption | lia].
Qed.

Lemma extends_length (a b : jsstring) :
  extends a b -> List.length a <= List.length b.
Proof. intros [more ->]; rewrite length_app; lia. Qed.

(** *** Each search result is appended *)

Lemma appends_app (a b c : jsstring) (l1 l2 : list Event) :
  appends a l1 b -> appends b l2 c -> appends a (l1 ++ l2) c.
Proof.
  induction 1; intros H2; cbn [app]; auto; constructor; auto.
Qed.

Lemma search_phase_appends qs s S s' :
  search_phase qs s S s' -> appends (fst s) S (fst s').
Proof.
  induction 1; cbn [fst] in *; constructor; auto.
Qed.

Lemma round_appends plan i qs s evs rc s' :
  round plan i qs s evs rc s' -> appends (fst s) evs (fst s').
Proof.
  intros H; inversion H; subst;
    match goal with
    | HS : search_phase _ _ ?S _ |- _ =>
        apply search_phase_appends in HS;
        apply appends_other; [reflexivity|];
        eapply appends_app; [exact HS|];
        repeat (apply appends_other; [reflexivity|]); constructor
    end.
Qed.

Lemma rounds_appends plan i qs s evs r s' :
  rounds plan i qs s evs r s' -> appends (fst s) evs (fst s').
Proof.
  induction 1 as [| ? ? ? ? ? ? Hr | ? ? ? ? ? ? ? Hr
                  | ? ? ? ? ? ? ? ? ? ? Hr ? IH];
    try (apply round_appends in Hr); auto; [constructor|].
  eapply appends_app; eauto.
Qed.

Lemma run_appends topic evs s' :
  run topic evs s' ->
  exists rest, evs = WriteResults [] :: rest /\ appends [] rest (fst s').
Proof.
  intros H; inversion H; subst; eexists; (split; [reflexivity|]).
  - apply appends_other; [reflexivity | constructor].
  - apply appends_other; [reflexivity|].
    match goal with HR : rounds _ _ _ _ _ _ _ |- _ =>
      apply rounds_appends in HR; exact HR end.
  - apply appends_other; [reflexivity|].
    match goal with HR : rounds _ _ _ _ _ _ _ |- _ =>
      apply rounds_appends in HR; eapply appends_app; [exact HR|] end.
    apply appends_other; [reflexivity | constructor].
Qed.

(** Where a search succeeded, the next event is the assignment of the value
    the results had, with the entry of that search appended. *)
Lemma appends_at (a b : jsstring) (pre post : list Event) (q : jsstring)
  (found : SearchResult) :
  appends a (pre ++ Searched q (Ok found) :: post) b ->
  exists post',
    post = WriteResults (last (a :: writes pre) []
                           ++ evidence_entry q (text found)) :: post'.
Proof.
  intros H; remember (pre ++ Searched q (Ok found) :: post) as evs eqn:Heq.
  revert pre Heq;
    induction H as [a | a q' f' rest b H IH | a e rest b He H IH];
    intros pre Heq.
  - destruct pre; discriminate.
  - destruct pre as [|p1 [|p2 pre]]; cbn [app] in Heq.
    + inversion Heq; subst; eexists; reflexivity.
    + inversion Heq.
    + inversion Heq as [[H1 H2 H3]]; subst p1 p2.
      destruct (IH _ H3) as [post' ->]; eexists; reflexivity.
  - destruct pre as [|p1 pre]; cbn [app] in Heq.
    + inversion Heq; subst; discriminate He.
    + inversion Heq as [[H1 H2]]; subst p1.
      destruct (IH _ H2) as [post' ->]; eexists.
      destruct e as [| | | ? [] | | |]; try discriminate He; reflexivity.
Qed.

(** *** Where an event of the loop sits *)

(** Splitting the events of one run of the body at an event that the search
    phase cannot hold. *)
Ltac locate Heq :=
  match type of Heq with
  | Iteration _ :: ?S ++ _ = ?pre ++ _ :: _ =>
      destruct pre as [|? pre]; [discriminate Heq|];
      cbn [app] in Heq; injection Heq as ? Heq;
      apply locate_after_search in Heq;
      [|eapply search_phase_events; eassumption | reflexivity];
      let mid := fresh "mid" in
      let Hp := fresh "Hp" in
      let Ht := fresh "Ht" in
      destruct Heq as [mid [Hp Ht]];
      destruct mid as [|? [|? [|? mid]]]; cbn [app] in Ht;
      inversion Ht; subst; clear Ht
  end.

Lemma iterations_round_prefix (i : nat) (S mid : list Event) qs s s' :
  search_phase qs s S s' ->
  iterations mid = 0 ->
  iterations (Iteration i :: S ++ mid) = 1.
Proof.
  intros HS Hmid; apply search_phase_events in HS.
  rewrite iterations_round, Hmid by exact HS; reflexivity.
Qed.

Lemma round_at_evaluation plan i qs s rc s' pre p b re post :
  round plan i qs s (pre ++ Evaluated p b re :: post) rc s' ->
  p = plan /\ b = fst s' /\ iterations pre = 1
  /\ match re with
     | Err e => post = [] /\ rc = Err e
     | Ok ev =>
         if is_complete ev then post = [] /\ rc = Ok Break
         else (i = MAX_ITERATIONS - 1 /\ post = [] /\ rc = Ok Break)
              \/ (i <> MAX_ITERATIONS - 1
                  /\ exists rr, post = [Refined (unanswered_questions ev) rr])
     end.
Proof.
  intros H; remember (pre ++ Evaluated p b re :: post) as evs eqn:Heq.
  destruct H as [? ? S ? ? HS | ? ? S ? ? HS Hc | ? ? S ? ? HS Hc Hi
                 | ? ? S ? ? ? HS Hc Hi | ? ? S ? ? HS Hc Hi
                 | ? ? S ? ? ? HS Hc Hi Hn];
    locate Heq;
    (split; [reflexivity|]); (split; [reflexivity|]);
    (split; [rewrite app_nil_r;
             rewrite <- (app_nil_r S);
             eapply iterations_round_prefix; [eassumption | reflexivity]|]);
    try rewrite Hc; auto.
  all: right; split; auto; eexists; reflexivity.
Qed.

Lemma round_at_refinement plan i qs s rc s' pre uq rr post :
  round plan i qs s (pre ++ Refined uq rr :: post) rc s' ->
  post = [] /\ i <> MAX_ITERATIONS - 1 /\ iterations pre = 1
  /\ (exists pre' ev,
        pre = pre' ++ [Evaluated plan (fst s') (Ok ev)]
        /\ is_complete ev = false
        /\ uq = unanswered_questions ev)
  /\ match rr with
     | Err e => rc = Err e
     | Ok [] => rc = Ok Break
     | Ok (q :: nq) => exists qs', rc = Ok (Next qs')
     end.
Proof.
  intros H; remember (pre ++ Refined uq rr :: post) as evs eqn:Heq.
  destruct H as [? ? S ? ? HS | ? ? S ? ? HS Hc | ? ? S ? ? HS Hc Hi
                 | ? ? S ? ? ? HS Hc Hi | ? ? S ? ? HS Hc Hi
                 | ? ? S ? ? ? HS Hc Hi Hn];
    locate Heq;
    (split; [reflexivity|]); (split; [assumption|]);
    (split; [eapply iterations_round_prefix; [eassumption | reflexivity]|]);
    (split; [eexists (_ :: S), _; split; [reflexivity | auto]|]);
    auto.
  destruct newQueries; [contradiction | eexists; reflexivity].
Qed.

(** An event of the loop lies in one run of the body; what follows that
    run is empty unless the body ended with new queries. *)
Lemma rounds_locate plan i qs s evs r s' pre x post :
  rounds plan i qs s evs r s' ->
  evs = pre ++ x :: post ->
  exists i' qs' s1 rc s2 pre0 pre1 post1 post0,
    pre = pre0 ++ pre1 /\ post = post1 ++ post0
    /\ round plan i' qs' s1 (pre1 ++ x :: post1) rc s2
    /\ i <= i' < MAX_ITERATIONS
    /\ iterations pre0 = i' - i
    /\ match rc with
       | Ok Break => post0 = [] /\ r = Ok tt /\ s2 = s'
       | Err e => post0 = [] /\ r = Err e /\ s2 = s'
       | Ok (Next _) => True
       end.
Proof.
  intros H; revert pre post.
  induction H as [| i qs s evs s' Hi Hr | i qs s evs s' e Hi Hr
                  | i qs s evs qs' s' evs' r s'' Hi Hr Hrs IH];
    intros pre post Heq.
  - destruct pre; discriminate.
  - subst evs; exists i, qs, s, (Ok Break), s', [], pre, post, [].
    rewrite app_nil_r, Nat.sub_diag; repeat split; auto.
  - subst evs; exists i, qs, s, (Err e), s', [], pre, post, [].
    rewrite app_nil_r, Nat.sub_diag; repeat split; auto.
  - symmetry in Heq; destruct (split_app _ _ _ _ _ Heq)
      as [[mid [-> ->]]|[mid [-> Hevs']]].
    + exists i, qs, s, (Ok (Next qs')), s', [], pre, mid, evs'.
      rewrite Nat.sub_diag; repeat split; auto.
    + destruct (IH _ _ Hevs')
        as (i' & q' & s1 & rc & s2 & pre0 & pre1 & post1 & post0
            & -> & -> & Hround & Hrange & Hcount & Hend).
      exists i', q', s1, rc, s2, (evs ++ pre0), pre1, post1, post0.
      rewrite app_assoc; repeat split; auto; try lia.
      rewrite iterations_app, Hcount, (proj1 (round_counts Hr)); lia.
Qed.

(** The same for a whole run, for an event that only the loop emits. *)
Lemma run_locate topic evs s' pre x post :
  run topic evs s' ->
  evs = pre ++ x :: post ->
  in_loop x = true ->
  exists plan i' qs' s1 rc s2 pre0 pre1 post1 post0,
    pre = WriteResults [] :: Planned topic (Ok plan) :: pre0 ++ pre1
    /\ post = post1 ++ post0
    /\ round plan i' qs' s1 (pre1 ++ x :: post1) rc s2
    /\ i' < MAX_ITERATIONS
    /\ iterations pre0 = i'
    /\ match rc with
       | Ok Break => s2 = s' /\ exists r, post0 = [Synthesized topic (fst s') r]
       | Err e => post0 = []
       | Ok (Next _) => True
       end.
Proof.
  intros H Heq Hx.
  destruct H as [e | plan L e s' HR | plan L s' r HR];
    destruct pre as [|p1 [|p2 pre]]; cbn [app] in Heq;
    inversion Heq as [[H1 H2]]; subst; try discriminate Hx.
  - destruct pre; discriminate.
  - destruct (@rounds_locate _ _ _ _ _ _ _ pre x post HR eq_refl)
      as (i' & q' & s1 & rc & s2 & pre0 & pre1 & post1 & post0
          & -> & -> & Hround & Hrange & Hcount & Hend).
    exists plan, i', q', s1, rc, s2, pre0, pre1, post1, post0.
    rewrite Nat.sub_0_r in Hcount; repeat split; auto; try lia.
    destruct rc as [[|]|]; auto.
    + destruct Hend as [_ [Hr _]]; discriminate.
    + tauto.
  - match goal with
    | H3 : _ ++ [_] = pre ++ x :: post |- _ =>
        destruct (split_app _ _ _ _ _ (eq_sym H3))
          as [[mid [HL ->]]|[mid [-> Hsyn]]]
    end.
    + destruct (@rounds_locate _ _ _ _ _ _ _ pre x mid HR HL)
        as (i' & q' & s1 & rc & s2 & pre0 & pre1 & post1 & post0
            & -> & -> & Hround & Hrange & Hcount & Hend).
      exists plan, i', q', s1, rc, s2, pre0, pre1, post1,
        (post0 ++ [Synthesized topic (fst s') r]).
      rewrite Nat.sub_0_r in Hcount; rewrite <- app_assoc.
      repeat split; auto; try lia.
      destruct rc as [[|]|]; auto.
      * destruct Hend as [-> [_ ->]]; split; auto; eexists; reflexivity.
      * destruct Hend as [_ [Hr _]]; discriminate.
    + destruct mid as [|? [|? mid]]; inversion Hsyn; subst; discriminate.
Qed.

End ShapeFacts.

(** ** Claims about the research flow *)

Module AgentClaims.

Import GeminiService DeepSeekAgent RunShape ShapeFacts AgentRuns Fixtures.

(** C1. Whatever the service functions return, a call of
    [runSearchAndEvaluateLoop] ends (three units of fuel are enough), and
    its loop body is entered at most 3 times; [evaluateCompleteness] is
    called once in each of these iterations, so at most 3 times. A whole
    run, [handleResearch], has no other iterations. *)
Theorem loop_runs_at_most_three_times (svc : Service) (fuel : nat)
  (initialPlan : list ResearchPlanItem) (w : World) :
  3 <= fuel ->
  (exists r w' evs,
      runSearchAndEvaluateLoop svc fuel initialPlan w = Some (r, w')
      /\ trace w' = trace w ++ evs
      /\ iterations evs <= 3
      /\ evaluations evs = iterations evs)
  /\ (exists w' evs,
        handleResearch svc fuel w = Some (Ok tt, w')
        /\ trace w' = trace w ++ evs
        /\ iterations evs <= 3).
Proof.
  intros Hfuel; split.
  - destruct (runSearchAndEvaluateLoop_run svc initialPlan w Hfuel)
      as [r [w' [evs [E [T [R _]]]]]].
    exists r, w', evs; split; [exact E|]; split; [exact T|].
    apply rounds_counts in R; cbn in R; exact R.
  - destruct (JsString.truthy (trim (topic (st w)))) eqn:Htopic.
    + destruct (handleResearch_run svc w Hfuel Htopic)
        as [w' [evs [E [T [R _]]]]].
      exists w', evs; split; [exact E|]; split; [exact T|].
      apply run_counts in R; exact R.
    + destruct (handleResearch_blank svc fuel w Htopic) as [w' [E [T _]]].
      exists w', []; rewrite app_nil_r; split; [exact E|]; split; [exact T|].
      apply Nat.le_0_l.
Qed.

Lemma loop_runs_at_most_three_times_witness :
  (exists r w' evs,
      runSearchAndEvaluateLoop stubborn 3 [item] start = Some (r, w')
      /\ trace w' = trace start ++ evs
      /\ iterations evs <= 3
      /\ evaluations evs = iterations evs)
  /\ (exists w' evs,
        handleResearch stubborn 3 start = Some (Ok tt, w')
        /\ trace w' = trace start ++ evs
        /\ iterations evs <= 3).
Proof. apply loop_runs_at_most_three_times; lia. Defined.

(** The bound is reached when the evaluation is never satisfied. *)
Example stubborn_three_iterations :
  exists w',
    runSearchAndEvaluateLoop stubborn 3 [item] start = Some (Ok tt, w')
    /\ iterations (trace w') = 3
    /\ stage (st w') = EVALUATING.
Proof. eexists; split; [vm_compute; reflexivity|]; split; reflexivity. Qed.

(** C2. After a run, the displayed source list has no two entries with
    the same uri, and an entry is displayed exactly when it is the last one
    with its uri among the sources of all the searches that succeeded, in
    the order of the searches: for a uri found more than once, the title
    shown is the one found last. *)
Theorem displayed_sources_unique (svc : Service) (fuel : nat) (w : World) :
  3 <= fuel ->
  JsString.truthy (trim (topic (st w))) = true ->
  exists w' evs,
    handleResearch svc fuel w = Some (Ok tt, w')
    /\ trace w' = trace w ++ evs
    /\ NoDup (map uri (sources (st w')))
    /\ (forall s, In s (sources (st w')) <->
                  last_with_uri (uri s) (searched_sources evs) = Some s).
Proof.
  intros Hfuel Htopic.
  destruct (handleResearch_run svc w Hfuel Htopic)
    as [w' [evs [E [T [R C]]]]].
  exists w', evs; split; [exact E|]; split; [exact T|].
  apply run_sources in R; cbn [evidence snd] in R.
  unfold consistent in C; rewrite C, R; split.
  - apply uniqueSources_NoDup.
  - intros s; apply uniqueSources_last.
Qed.

Lemma displayed_sources_unique_witness :
  exists w' evs,
    handleResearch scenario 3 start = Some (Ok tt, w')
    /\ trace w' = trace start ++ evs
    /\ NoDup (map uri (sources (st w')))
    /\ (forall s, In s (sources (st w')) <->
                  last_with_uri (uri s) (searched_sources evs) = Some s).
Proof.
  apply displayed_sources_unique; [lia | reflexivity].
Defined.

(** In the scenario the page found by every search is shown once, in the
    place of its first occurrence and with the title of the last search. *)
Example scenario_sources :
  exists w',
    handleResearch scenario 3 start = Some (Ok tt, w')
    /\ stage (st w') = COMPLETE
    /\ sources (st w')
       = [ {| uri := js "https://a.example"; title := js "Naze?" |};
           {| uri := js "https://b.example"; title := js "B" |} ]
    /\ iterations (trace w') = 2.
Proof.
  eexists; split; [vm_compute; reflexivity|]; repeat split; reflexivity.
Qed.

(** C3. If a call of [evaluateCompleteness] in a run returns
    [is_complete = true], the only event after it is the call of
    [synthesizeReport] on the results that were evaluated: no search, no
    further iteration. The evaluation is that of iteration 1, 2 or 3. *)
Theorem complete_evaluation_ends_search (svc : Service) (fuel : nat)
  (w : World) :
  3 <= fuel ->
  exists w' evs,
    handleResearch svc fuel w = Some (Ok tt, w')
    /\ trace w' = trace w ++ evs
    /\ forall pre p b ev post,
         evs = pre ++ Evaluated p b (Ok ev) :: post ->
         is_complete ev = true ->
         (exists r, post = [Synthesized (topic (st w)) b r])
         /\ filter is_search post = []
         /\ 1 <= iterations pre <= 3.
Proof.
  intros Hfuel.
  destruct (JsString.truthy (trim (topic (st w)))) eqn:Htopic.
  - destruct (handleResearch_run svc w Hfuel Htopic)
      as [w' [evs [E [T [R C]]]]].
    exists w', evs; split; [exact E|]; split; [exact T|].
    intros pre p b ev post Heq Hc.
    destruct (@run_locate _ _ _ pre _ post R Heq eq_refl)
      as (plan & i' & q' & s1 & rc & s2 & pre0 & pre1 & post1 & post0
          & -> & -> & Hround & Hrange & Hcount & Hend).
    apply round_at_evaluation in Hround.
    destruct Hround as [-> [-> [Hone Hre]]]; rewrite Hc in Hre.
    destruct Hre as [-> ->]; destruct Hend as [-> [r ->]].
    split; [exists r; reflexivity|]. split; [reflexivity|].
    change (WriteResults [] :: Planned (topic (st w)) (Ok plan) :: pre0 ++ pre1)
      with ([WriteResults []; Planned (topic (st w)) (Ok plan)] ++ pre0 ++ pre1).
    rewrite !iterations_app, Hone, Hcount; cbn; unfold MAX_ITERATIONS in Hrange.
    lia.
  - destruct (handleResearch_blank svc fuel w Htopic) as [w' [E [T _]]].
    exists w', []; rewrite app_nil_r; split; [exact E|]; split; [exact T|].
    intros pre p b ev post Heq; destruct pre; discriminate.
Qed.

Lemma complete_evaluation_ends_search_witness :
  exists w' evs,
    handleResearch scenario 3 start = Some (Ok tt, w')
    /\ trace w' = trace start ++ evs
    /\ forall pre p b ev post,
         evs = pre ++ Evaluated p b (Ok ev) :: post ->
         is_complete ev = true ->
         (exists r, post = [Synthesized (topic (st start)) b r])
         /\ filter is_search post = []
         /\ 1 <= iterations pre <= 3.
Proof. apply complete_evaluation_ends_search; lia. Defined.

(** C4. In a run, [refineSearchQueries] is called only right after an
    evaluation that reported incompleteness, on its unanswered questions,
    and only in the first or second iteration, never in the third. If it
    returns an empty list, the only event after it is the call of
    [synthesizeReport]: no further search, also when it was called in the
    first iteration. *)
Theorem refinement_only_when_needed (svc : Service) (fuel : nat) (w : World) :
  3 <= fuel ->
  exists w' evs,
    handleResearch svc fuel w = Some (Ok tt, w')
    /\ trace w' = trace w ++ evs
    /\ forall pre uq rr post,
         evs = pre ++ Refined uq rr :: post ->
         (exists pre' p b ev,
             pre = pre' ++ [Evaluated p b (Ok ev)]
             /\ is_complete ev = false
             /\ uq = unanswered_questions ev)
         /\ 1 <= iterations pre < 3
         /\ (rr = Ok [] ->
             exists b r, post = [Synthesized (topic (st w)) b r]).
Proof.
  intros Hfuel.
  destruct (JsString.truthy (trim (topic (st w)))) eqn:Htopic.
  - destruct (handleResearch_run svc w Hfuel Htopic)
      as [w' [evs [E [T [R C]]]]].
    exists w', evs; split; [exact E|]; split; [exact T|].
    intros pre uq rr post Heq.
    destruct (@run_locate _ _ _ pre _ post R Heq eq_refl)
      as (plan & i' & q' & s1 & rc & s2 & pre0 & pre1 & post1 & post0
          & -> & -> & Hround & Hrange & Hcount & Hend).
    apply round_at_refinement in Hround.
    destruct Hround as [-> [Hi [Hone [[pre' [ev [-> [Hc ->]]]] Hrr]]]].
    split; [|split].
    + exists (WriteResults [] :: Planned (topic (st w)) (Ok plan)
                :: pre0 ++ pre'), plan, (fst s2), ev.
      cbn [app]; rewrite <- app_assoc; auto.
    + change (WriteResults [] :: Planned (topic (st w)) (Ok plan)
                :: pre0 ++ pre' ++ [Evaluated plan (fst s2) (Ok ev)])
        with ([WriteResults []; Planned (topic (st w)) (Ok plan)]
                ++ pre0 ++ pre' ++ [Evaluated plan (fst s2) (Ok ev)]).
      rewrite (iterations_app [_; _]), (iterations_app pre0), Hone, Hcount.
      cbn; unfold MAX_ITERATIONS in *; lia.
    + intros ->; rewrite Hrr in Hend; destruct Hend as [-> [r ->]].
      eexists _, r; reflexivity.
  - destruct (handleResearch_blank svc fuel w Htopic) as [w' [E [T _]]].
    exists w', []; rewrite app_nil_r; split; [exact E|]; split; [exact T|].
    intros pre uq rr post Heq; destruct pre; discriminate.
Qed.

Lemma refinement_only_when_needed_witness :
  exists w' evs,
    handleResearch speechless 3 start = Some (Ok tt, w')
    /\ trace w' = trace start ++ evs
    /\ forall pre uq rr post,
         evs = pre ++ Refined uq rr :: post ->
         (exists pre' p b ev,
             pre = pre' ++ [Evaluated p b (Ok ev)]
             /\ is_complete ev = false
             /\ uq = unanswered_questions ev)
         /\ 1 <= iterations pre < 3
         /\ (rr = Ok [] ->
             exists b r, post = [Synthesized (topic (st start)) b r]).
Proof. apply refinement_only_when_needed; lia. Defined.

(** With a refinement that returns nothing the run has one iteration and
    then synthesizes, although two iterations remain. *)
Example speechless_one_iteration :
  exists w',
    handleResearch speechless 3 start = Some (Ok tt, w')
    /\ iterations (trace w') = 1
    /\ filter is_refinement (trace w') = [Refined [js "Why?"; js "How?"] (Ok [])]
    /\ stage (st w') = COMPLETE.
Proof.
  eexists; split; [vm_compute; reflexivity|]; repeat split; reflexivity.
Qed.

(** C8. In a run, the values assigned to the collected results begin with
    the empty string of the reset that opens the run; every later value
    extends every earlier one, so the length never decreases; a search that
    succeeded is followed at once by the assignment of the value before it
    with the entry of the search appended, and nothing else assigns. The
    value at the end of the run is the last one assigned. *)
Theorem evidence_only_grows (svc : Service) (fuel : nat) (w : World) :
  3 <= fuel ->
  JsString.truthy (trim (topic (st w))) = true ->
  exists w' evs,
    handleResearch svc fuel w = Some (Ok tt, w')
    /\ trace w' = trace w ++ evs
    /\ hd_error (writes evs) = Some []
    /\ (forall i j, i <= j < List.length (writes evs) ->
          extends (nth i (writes evs) []) (nth j (writes evs) [])
          /\ List.length (nth i (writes evs) [])
             <= List.length (nth j (writes evs) []))
    /\ (forall pre q found post,
          evs = pre ++ Searched q (Ok found) :: post ->
          exists post',
            post = WriteResults (last (writes pre) []
                                   ++ evidence_entry q (text found)) :: post')
    /\ accumulatedResultsRef (st w') = last (writes evs) [].
Proof.
  intros Hfuel Htopic.
  destruct (handleResearch_run svc w Hfuel Htopic)
    as [w' [evs [E [T [R C]]]]].
  exists w', evs; split; [exact E|]; split; [exact T|].
  destruct (run_writes R) as [ws [Hws [G L]]].
  destruct (run_appends R) as [rest [Hrest A]].
  rewrite Hws; split; [reflexivity|]. split; [|split].
  - intros i j Hij; pose proof (growing_nth G Hij) as Hext.
    split; [exact Hext | apply extends_length; exact Hext].
  - intros pre q found post Heq; rewrite Hrest in Heq.
    destruct pre as [|p pre]; [discriminate Heq|].
    cbn [app] in Heq; inversion Heq as [[Hp Hpre]]; subst p.
    rewrite Hpre in A; apply appends_at in A; exact A.
  - cbn [evidence fst] in L; symmetry; exact L.
Qed.

Lemma evidence_only_grows_witness :
  exists w' evs,
    handleResearch scenario 3 start = Some (Ok tt, w')
    /\ trace w' = trace start ++ evs
    /\ hd_error (writes evs) = Some []
    /\ (forall i j, i <= j < List.length (writes evs) ->
          extends (nth i (writes evs) []) (nth j (writes evs) [])
          /\ List.length (nth i (writes evs) [])
             <= List.length (nth j (writes evs) []))
    /\ (forall pre q found post,
          evs = pre ++ Searched q (Ok found) :: post ->
          exists post',
            post = WriteResults (last (writes pre) []
                                   ++ evidence_entry q (text found)) :: post')
    /\ accumulatedResultsRef (st w') = last (writes evs) [].
Proof. apply evidence_only_grows; [lia | reflexivity]. Defined.

End AgentClaims.

(** ** Claims about the chat flow *)

Module ChatClaims.

Import ChatBot Fixtures.

Lemma handleSend_start_guard (s : State) :
  may_send s = false -> handleSend_start s = Some (Ok None, s).
Proof.
  unfold may_send, handleSend_start, bind, gets, ret.
  destruct (JsString.truthy (trim (input s))), (isLoading s), (chatRef s);
    cbn; intros H; try discriminate H; reflexivity.
Qed.

Lemma handleSend_start_sends (s : State) :
  may_send s = true ->
  handleSend_start s
  = Some (Ok (Some (input s)),
          {| history := history s ++ [ {| role := user; msg_text := input s |} ];
             input := []; isLoading := true; chatRef := chatRef s |}).
Proof.
  unfold may_send; intros H.
  apply andb_true_iff in H; destruct H as [H Hc].
  apply andb_true_iff in H; destruct H as [Hi Hl].
  apply negb_true_iff in Hl.
  destruct s as [h i l c]; cbn [history input isLoading chatRef] in *.
  subst l c.
  unfold handleSend_start, bind, gets, ret, setHistory, setInput,
    setIsLoading, modify; cbn [history input isLoading chatRef].
  rewrite Hi; reflexivity.
Qed.

(** When the promise settles, the reply or the fallback is appended and
    the loading flag is cleared; nothing is thrown. *)
Lemma handleSend_resume_run (reply : outcome jsstring) (s : State) :
  handleSend_resume reply s
  = Some (Ok tt,
          {| history :=
               history s
               ++ [ match reply with
                    | Ok text => {| role := model; msg_text := text |}
                    | Err _ => errorMessage
                    end ];
             input := input s; isLoading := false; chatRef := chatRef s |}).
Proof. destruct reply; reflexivity. Qed.

(** [handleSend] never throws, whatever the session does. *)
Lemma handleSend_returns (send : jsstring -> outcome jsstring) (s : State) :
  exists s', handleSend send s = Some (Ok tt, s').
Proof.
  unfold handleSend, bind at 1.
  destruct (may_send s) eqn:G.
  - rewrite (handleSend_start_sends _ G), handleSend_resume_run.
    eexists; reflexivity.
  - rewrite (handleSend_start_guard _ G).
    eexists; reflexivity.
Qed.

(** C5. When the remote send fails, [handleSend] still returns normally:
    after the user's message the transcript holds the fixed fallback reply
    as a message of the model, and the loading flag is cleared. *)
Theorem failed_send_is_absorbed (send : jsstring -> outcome jsstring)
  (s : State) (e : js_error) :
  JsString.truthy (trim (input s)) = true ->
  isLoading s = false ->
  chatRef s = true ->
  send (input s) = Err e ->
  exists s',
    handleSend send s = Some (Ok tt, s')
    /\ history s'
       = history s ++ [ {| role := user; msg_text := input s |};
                        {| role := model; msg_text := fallback_text |} ]
    /\ isLoading s' = false
    /\ handleSend_resume (Err e) s
       = Some (Ok tt,
               {| history := history s ++ [errorMessage]; input := input s;
                  isLoading := false; chatRef := chatRef s |}).
Proof.
  intros Hin Hload Href Hsend.
  assert (G : may_send s = true)
    by (unfold may_send; rewrite Hin, Hload, Href; reflexivity).
  unfold handleSend, bind at 1.
  rewrite (handleSend_start_sends _ G), Hsend, !handleSend_resume_run.
  eexists; split; [reflexivity|]; cbn [history isLoading].
  rewrite <- app_assoc; repeat split; reflexivity.
Qed.

Lemma failed_send_is_absorbed_witness :
  exists s',
    handleSend unreachable typed = Some (Ok tt, s')
    /\ history s'
       = history typed ++ [ {| role := user; msg_text := input typed |};
                            {| role := model; msg_text := fallback_text |} ]
    /\ isLoading s' = false
    /\ handleSend_resume (Err (js "Network error")) typed
       = Some (Ok tt,
               {| history := history typed ++ [errorMessage];
                  input := input typed;
                  isLoading := false; chatRef := chatRef typed |}).
Proof.
  apply (failed_send_is_absorbed unreachable typed (e := js "Network error"));
    reflexivity.
Defined.

(** C6. While a send is pending ([isLoading] is true), [handleSend] does
    nothing: it hands no message to the session, and it leaves the
    transcript, the input and the whole state as they are. *)
Theorem send_while_pending_is_noop (send : jsstring -> outcome jsstring)
  (s : State) :
  isLoading s = true ->
  handleSend_start s = Some (Ok None, s)
  /\ handleSend send s = Some (Ok tt, s).
Proof.
  intros Hload.
  assert (G : may_send s = false).
  { unfold may_send; rewrite Hload.
    destruct (JsString.truthy (trim (input s))); reflexivity. }
  unfold handleSend, bind at 1.
  rewrite (handleSend_start_guard _ G); split; reflexivity.
Qed.

Lemma send_while_pending_is_noop_witness :
  handleSend_start pending = Some (Ok None, pending)
  /\ handleSend echo pending = Some (Ok tt, pending).
Proof. apply send_while_pending_is_noop; reflexivity. Defined.

(** A send that goes through, for comparison. *)
Example echo_send :
  handleSend echo typed
  = Some (Ok tt,
          {| history := [ {| role := user; msg_text := js "And then?" |};
                          {| role := model; msg_text := js "And then?" |} ];
             input := []; isLoading := false; chatRef := true |}).
Proof. reflexivity. Qed.

End ChatClaims.

(* ================================================================== *)
(** * Further properties of the code *)
(* ================================================================== *)

(** ** The service functions at their edges *)

Module ServiceEdges.

Import GeminiService GeminiServiceFacts ServiceResults Fixtures MoreFixtures.

(** X1. Whatever goes wrong inside a service function, the rejection of the
    call or a response that does not parse to what is needed, the error
    that reaches the caller carries the fixed message of that function
    (with the query, for a search): the message of the cause is dropped. *)
Theorem service_errors_are_replaced (remote : Remote) :
  (forall topic e,
      generateResearchPlan remote topic = Err e -> e = plan_failure_message)
  /\ (forall query e,
        searchWithGrounding remote query = Err e ->
        e = search_failure_message query)
  /\ (forall plan found e,
        evaluateCompleteness remote plan found = Err e ->
        e = evaluation_failure_message)
  /\ (forall qs e,
        refineSearchQueries remote qs = Err e -> e = refine_failure_message)
  /\ (forall topic found e,
        synthesizeReport remote topic found = Err e ->
        e = synthesis_failure_message).
Proof.
  repeat split; intros until e;
    unfold generateResearchPlan, searchWithGrounding, evaluateCompleteness,
      refineSearchQueries, synthesizeReport, rcatch;
    match goal with
    | |- match ?body with _ => _ end = _ -> _ =>
        destruct body; intros H; inversion H; reflexivity
    end.
Qed.

Lemma service_errors_are_replaced_witness :
  generateResearchPlan failing_remote (js "t") = Err plan_failure_message
  /\ searchWithGrounding failing_remote (js "q")
     = Err (search_failure_message (js "q"))
  /\ synthesizeReport (always (js "false")) (js "t") (js "r")
     = Err synthesis_failure_message.
Proof.
  destruct (service_errors_are_replaced failing_remote) as [Hp [Hs _]].
  destruct (service_errors_are_replaced (always (js "false")))
    as [_ [_ [_ [_ Hy]]]].
  split; [|split].
  - destruct (generateResearchPlan failing_remote (js "t")) as [v|e] eqn:E;
      [discriminate E | rewrite (Hp _ _ E); reflexivity].
  - destruct (searchWithGrounding failing_remote (js "q")) as [v|e] eqn:E;
      [discriminate E | rewrite (Hs _ _ E); reflexivity].
  - destruct (synthesizeReport (always (js "false")) (js "t") (js "r"))
      as [v|e] eqn:E; [vm_compute in E; discriminate E|].
    rewrite (Hy _ _ _ E); reflexivity.
Defined.

(** X2. [refineSearchQueries] succeeds exactly when the call resolves and
    the cleaned response text parses to a truthy value with a truthy
    [queries] property, which it returns as it is. So a response without
    that property is an error, while an empty list of queries is a success
    (an array is truthy, also when empty). *)
Theorem refineSearchQueries_ok_iff (remote : Remote) (qs : list jsstring)
  (v : value) :
  refineSearchQueries remote qs = Ok v <->
  exists response,
    remote (RefineRequest qs) = Ok response
    /\ truthy (parseJson (response_text response)) = true
    /\ get (parseJson (response_text response)) queries_key = Ok v
    /\ truthy v = true.
Proof.
  unfold refineSearchQueries.
  destruct (remote (RefineRequest qs)) as [response|e]; cbn [rbind rcatch].
  - set (result := parseJson (response_text response)).
    destruct (missing result queries_key) as [[|]|e] eqn:E; cbn [rbind rcatch].
    + split; [discriminate|].
      intros [r [Hr [Ht [Hg Hv]]]]; inversion Hr; subst r; fold result in Ht, Hg.
      assert (missing result queries_key = Ok false)
        by (apply missing_false; split; auto; exists v; auto).
      congruence.
    + apply missing_false in E; destruct E as [Ht [x [Hx Htx]]].
      rewrite Hx; cbn [rbind rcatch]; split.
      * intros H; inversion H; subst; exists response; auto.
      * intros [r [Hr [_ [Hg _]]]]; inversion Hr; subst r; fold result in Hg.
        congruence.
    + split; [discriminate|].
      intros [r [Hr [Ht [Hg Hv]]]]; inversion Hr; subst r; fold result in Ht, Hg.
      assert (missing result queries_key = Ok false)
        by (apply missing_false; split; auto; exists v; auto).
      congruence.
  - split; [discriminate | intros [r [Hr _]]; discriminate].
Qed.

(** An empty list of queries is returned; a response with another property
    in the place of [queries] is refused. *)
Example refineSearchQueries_edges :
  refineSearchQueries (always empty_queries_text) [js "Why?"] = Ok (JArr [])
  /\ refineSearchQueries (always no_queries_text) [js "Why?"]
     = Err refine_failure_message.
Proof. split; vm_compute; reflexivity. Qed.

(** X3. [evaluateCompleteness] refuses a response only when it parses to
    [null] (which is also what an unparsable text gives), and
    [synthesizeReport] when it parses to any falsy value; both return the
    parsed value without looking at a single field of it. So every report
    that [synthesizeReport] accepts would also pass as an evaluation, and
    not the other way round. *)
Theorem evaluation_and_report_acceptance (remote : Remote)
  (plan : list ResearchPlanItem) (topic found : jsstring) (v : value) :
  (evaluateCompleteness remote plan found = Ok v <->
   exists response,
     remote (EvaluateRequest plan found) = Ok response
     /\ v = parseJson (response_text response) /\ v <> JNull)
  /\ (synthesizeReport remote topic found = Ok v <->
      exists response,
        remote (SynthesizeRequest topic found) = Ok response
        /\ v = parseJson (response_text response) /\ truthy v = true).
Proof.
  unfold evaluateCompleteness, synthesizeReport, falsy; split.
  - destruct (remote (EvaluateRequest plan found)) as [response|e];
      cbn [rbind rcatch].
    + destruct (parseJson (response_text response)) eqn:E; cbn [is_null];
        (split;
         [ intros H; inversion H; subst v; exists response;
           repeat split; auto; discriminate
         | intros [r [Hr [Hv Hn]]]; inversion Hr; subst r; rewrite E in Hv;
           subst v; try reflexivity; contradiction ]).
    + split; [discriminate | intros [r [Hr _]]; discriminate].
  - destruct (remote (SynthesizeRequest topic found)) as [response|e];
      cbn [rbind rcatch].
    + destruct (truthy (parseJson (response_text response))) eqn:E;
        cbn [negb]; split.
      * intros H; inversion H; subst v; exists response; auto.
      * intros [r [Hr [Hv _]]]; inversion Hr; subst; reflexivity.
      * discriminate.
      * intros [r [Hr [Hv Ht]]]; inversion Hr; subst; congruence.
    + split; [discriminate | intros [r [Hr _]]; discriminate].
Qed.

(** The text [false] is an evaluation and not a report; an empty object is
    both. *)
Example acceptance_edges :
  evaluateCompleteness (always (js "false")) [] [] = Ok (JBool false)
  /\ synthesizeReport (always (js "false")) [] [] = Err synthesis_failure_message
  /\ evaluateCompleteness (always (js "null")) [] []
     = Err evaluation_failure_message
  /\ synthesizeReport (always (js "{}")) [] [] = Ok (JObj []).
Proof. repeat split; vm_compute; reflexivity. Qed.

End ServiceEdges.

(** ** What [clean] hands to the parser *)

Module CleanFacts.

Import GeminiService GeminiServiceFacts.

Lemma starts_with_fence (s : jsstring) :
  startsWith fence s = true -> exists r, s = fence ++ r.
Proof.
  intros H; apply startsWith_fence in H; destruct H as [r ->].
  exists r; reflexivity.
Qed.

(** Where the output of the second replacement begins with a backtick, so
    does its input. *)
Lemma strip_head (s r : jsstring) :
  replace_all fence [] s = BACKTICK :: r -> exists s', s = BACKTICK :: s'.
Proof.
  destruct s as [|c s]; [discriminate|].
  destruct (startsWith fence (c :: s)) eqn:E.
  - apply startsWith_fence in E; destruct E as [t Et]; inversion Et; eauto.
  - rewrite (replace_all_nomatch _ _ _ _ E); intros H; inversion H; eauto.
Qed.

Lemma strip_no_fence_bounded (n : nat) (s : jsstring) :
  List.length s <= n -> includes fence (replace_all fence [] s) = false.
Proof.
  revert s; induction n as [|n IH]; intros s Hn.
  - destruct s; [reflexivity | cbn in Hn; lia].
  - destruct s as [|c s]; [reflexivity|].
    destruct (startsWith fence (c :: s)) eqn:E.
    + destruct (starts_with_fence _ E) as [r Er]; rewrite Er.
      rewrite fence_unfold at 1 2; rewrite replace_all_head; cbn [app].
      rewrite <- fence_unfold; apply IH.
      apply (f_equal (@List.length _)) in Er; rewrite length_app in Er.
      cbn [List.length] in *; change (List.length fence) with 3 in Er; lia.
    + rewrite (replace_all_nomatch _ _ _ _ E), includes_cons.
      rewrite (IH s) by (cbn [List.length] in Hn; lia).
      rewrite orb_false_r.
      destruct (startsWith fence (c :: replace_all fence [] s)) eqn:F;
        [|reflexivity].
      exfalso.
      apply startsWith_fence in F; destruct F as [r Fr]; inversion Fr as [[Hc Hout]].
      subst c.
      destruct (strip_head _ Hout) as [s1 ->].
      destruct (startsWith fence (BACKTICK :: s1)) eqn:E1.
      * apply startsWith_fence in E1; destruct E1 as [t Et]; inversion Et; subst.
        apply (not_fence_start E).
      * rewrite (replace_all_nomatch _ _ _ _ E1) in Hout.
        inversion Hout as [Hout'].
        destruct (strip_head _ Hout') as [s2 ->].
        apply (not_fence_start E).
Qed.

(** No fence is left after the second replacement. *)
Lemma strip_no_fence (s : jsstring) :
  includes fence (replace_all fence [] s) = false.
Proof. apply (strip_no_fence_bounded (n := List.length s)); apply Nat.le_refl. Qed.

(** *** [trim] keeps a part of the text and is idempotent *)

Lemma trimStart_split (s : jsstring) :
  exists a, blank a /\ s = a ++ trimStart s.
Proof.
  induction s as [|c s [a [Ha Hs]]]; [exists []; split; reflexivity|].
  cbn [trimStart]; destruct (isWhiteSpace c) eqn:Hc.
  - exists (c :: a); split; [unfold blank in *; cbn [forallb]; rewrite Hc; exact Ha|].
    cbn [app]; rewrite <- Hs; reflexivity.
  - exists []; split; reflexivity.
Qed.

Lemma trimEnd_split (s : jsstring) :
  exists b, blank b /\ s = trimEnd s ++ b.
Proof.
  destruct (trimStart_split (rev s)) as [a [Ha Hs]].
  exists (rev a); split; [apply blank_rev; exact Ha|].
  unfold trimEnd; rewrite <- rev_app_distr, <- Hs, rev_involutive; reflexivity.
Qed.

Lemma trimStart_idem (s : jsstring) : trimStart (trimStart s) = trimStart s.
Proof.
  induction s as [|c s IH]; [reflexivity|].
  cbn [trimStart]; destruct (isWhiteSpace c) eqn:Hc; [exact IH|].
  cbn [trimStart]; rewrite Hc; reflexivity.
Qed.

Lemma trimEnd_idem (s : jsstring) : trimEnd (trimEnd s) = trimEnd s.
Proof.
  unfold trimEnd; rewrite rev_involutive, trimStart_idem; reflexivity.
Qed.

Lemma trimStart_solid (c : code_unit) (s : jsstring) :
  isWhiteSpace c = false -> trimStart (c :: s) = c :: s.
Proof. intros H; cbn [trimStart]; rewrite H; reflexivity. Qed.

Lemma trim_idem (s : jsstring) : trim (trim s) = trim s.
Proof.
  unfold trim.
  assert (H : trimStart (trimEnd (trimStart s)) = trimEnd (trimStart s)).
  { destruct (trimStart_split s) as [a [_ Hs]].
    destruct (trimStart s) as [|c t] eqn:Et; [reflexivity|].
    assert (Hc : isWhiteSpace c = false).
    { destruct (isWhiteSpace c) eqn:Hc; [|reflexivity].
      pose proof (trimStart_idem s) as Hi; rewrite Et in Hi.
      cbn [trimStart] in Hi; rewrite Hc in Hi.
      pose proof (trimStart_split t) as [a' [_ Ht]].
      apply (f_equal (@List.length _)) in Hi.
      apply (f_equal (@List.length _)) in Ht.
      rewrite length_app in Ht; cbn [List.length] in Hi; lia. }
    destruct (trimEnd_split (c :: t)) as [b [Hb Hct]].
    destruct (trimEnd (c :: t)) as [|d u] eqn:Eu.
    - cbn [app] in Hct; subst b. unfold blank in Hb; cbn [forallb] in Hb.
      rewrite Hc in Hb; discriminate Hb.
    - cbn [app] in Hct; inversion Hct; subst d.
      apply trimStart_solid; exact Hc. }
  rewrite H, trimEnd_idem; reflexivity.
Qed.

Lemma startsWith_extend (p a b : jsstring) :
  startsWith p a = true -> startsWith p (a ++ b) = true.
Proof.
  revert a; induction p as [|x p IH]; intros a H; [reflexivity|].
  destruct a as [|y a]; [discriminate H|].
  cbn [app startsWith] in *; apply andb_true_iff in H; destruct H as [-> H].
  apply IH; exact H.
Qed.

Lemma includes_prefix (p a b : jsstring) :
  includes p (a ++ b) = false -> includes p a = false.
Proof.
  induction a as [|c a IH]; cbn [app]; intros H.
  - destruct p; [destruct b; discriminate H | reflexivity].
  - apply includes_cons_false in H; destruct H as [Hs Hi].
    rewrite includes_cons, (IH Hi), orb_false_r.
    destruct (startsWith p (c :: a)) eqn:E; [|reflexivity].
    apply (startsWith_extend _ _ b) in E; cbn [app] in E; congruence.
Qed.

Lemma includes_suffix (p a b : jsstring) :
  includes p (a ++ b) = false -> includes p b = false.
Proof.
  induction a as [|c a IH]; cbn [app]; intros H; [exact H|].
  apply includes_cons_false in H; tauto.
Qed.

Lemma trim_no_fence (s : jsstring) :
  includes fence s = false -> includes fence (trim s) = false.
Proof.
  intros H; unfold trim.
  destruct (trimStart_split s) as [a [_ Hs]].
  rewrite Hs in H; apply includes_suffix in H.
  destruct (trimEnd_split (trimStart s)) as [b [_ Hb]].
  rewrite Hb in H; apply includes_prefix in H; exact H.
Qed.

(** X4. The text that [parseJson] hands to [JSON.parse] holds no fence and
    neither begins nor ends with whitespace, whatever the response was, and
    cleaning a cleaned text changes nothing. *)
Theorem clean_leaves_no_fence (s : jsstring) :
  includes fence (clean s) = false
  /\ trim (clean s) = clean s
  /\ clean (clean s) = clean s.
Proof.
  assert (H : includes fence (clean s) = false)
    by (unfold clean; apply trim_no_fence, strip_no_fence).
  split; [exact H|]. split; [unfold clean; apply trim_idem|].
  rewrite (clean_bare (clean s) H); unfold clean; apply trim_idem.
Qed.

End CleanFacts.

(** ** De-duplication of sources, in order *)

Module SourceOrder.

Import GeminiService JsStringFacts JsMapFacts SourcesFacts Replace.

Lemma existsb_eqb_in (k : jsstring) (ks : list jsstring) :
  existsb (JsString.eqb k) ks = true <-> In k ks.
Proof.
  rewrite existsb_exists; split.
  - intros [x [Hx E]]; apply eqb_eq in E; subst; exact Hx.
  - intros H; exists k; split; [exact H | apply eqb_refl].
Qed.

Lemma existsb_eqb_out (k : jsstring) (ks : list jsstring) :
  existsb (JsString.eqb k) ks = false <-> ~ In k ks.
Proof.
  rewrite <- existsb_eqb_in; destruct (existsb _ ks); split; congruence.
Qed.

(** Setting a key that is absent appends the entry. *)
Lemma set_new (k : jsstring) (v : Source) (m : JsMap.t Source) :
  ~ In k (JsMap.keys m) -> JsMap.set k v m = m ++ [(k, v)].
Proof.
  induction m as [|[k' v'] m IH]; cbn [JsMap.set JsMap.keys map fst app];
    intros H; [reflexivity|].
  destruct (JsString.eqb k k') eqn:E.
  - apply eqb_eq in E; subst; exfalso; apply H; left; reflexivity.
  - rewrite IH; [reflexivity|]. intros Hin; apply H; right; exact Hin.
Qed.

(** Setting a key that is present replaces the value where it is. *)
Lemma set_at (k : jsstring) (v v0 : Source) (a b : JsMap.t Source) :
  ~ In k (JsMap.keys a) ->
  JsMap.set k v (a ++ (k, v0) :: b) = a ++ (k, v) :: b.
Proof.
  induction a as [|[k' v'] a IH]; cbn [JsMap.set JsMap.keys map fst app];
    intros H.
  - rewrite eqb_refl; reflexivity.
  - destruct (JsString.eqb k k') eqn:E.
    + apply eqb_eq in E; subst; exfalso; apply H; left; reflexivity.
    + rewrite IH; [reflexivity|]. intros Hin; apply H; right; exact Hin.
Qed.

Lemma keys_split (k : jsstring) (m : JsMap.t Source) :
  In k (JsMap.keys m) ->
  exists a v0 b, m = a ++ (k, v0) :: b /\ ~ In k (JsMap.keys a).
Proof.
  induction m as [|[k' v'] m IH]; cbn [JsMap.keys map fst]; [intros []|].
  destruct (JsString.eqb k k') eqn:E; intros H.
  - apply eqb_eq in E; subst k'; exists [], v', m; split; [reflexivity|].
    intros [].
  - apply eqb_neq in E; destruct H as [H|H]; [congruence|].
    destruct (IH H) as [a [v0 [b [-> Ha]]]].
    exists ((k', v') :: a), v0, b; split; [reflexivity|].
    cbn [JsMap.keys map fst]; intros [Hk|Hk]; [congruence | exact (Ha Hk)].
Qed.

Lemma set_set (k : jsstring) (v v0 : Source) (m : JsMap.t Source) :
  JsMap.set k v (JsMap.set k v0 m) = JsMap.set k v m.
Proof.
  induction m as [|[k' v'] m IH]; cbn [JsMap.set].
  - rewrite eqb_refl; reflexivity.
  - destruct (JsString.eqb k k') eqn:E; cbn [JsMap.set]; rewrite E;
      [reflexivity | rewrite IH; reflexivity].
Qed.

(** A key that is present keeps its place, so that setting it commutes
    with setting another key. *)
Lemma set_swap (k k' : jsstring) (v v' : Source) (m : JsMap.t Source) :
  In k (JsMap.keys m) -> k <> k' ->
  JsMap.set k v (JsMap.set k' v' m) = JsMap.set k' v' (JsMap.set k v m).
Proof.
  intros Hin Hne; induction m as [|[k0 v0] m IH];
    cbn [JsMap.keys map fst] in Hin; [destruct Hin|].
  cbn [JsMap.set].
  destruct (JsString.eqb k' k0) eqn:E', (JsString.eqb k k0) eqn:E;
    cbn [JsMap.set]; rewrite ?E, ?E'; try reflexivity.
  - apply eqb_eq in E, E'; congruence.
  - apply eqb_neq in E; destruct Hin as [Hin|Hin]; [congruence|].
    rewrite (IH Hin); reflexivity.
Qed.

Lemma keys_set_in (k k' : jsstring) (v : Source) (m : JsMap.t Source) :
  In k (JsMap.keys m) -> In k (JsMap.keys (JsMap.set k' v m)).
Proof.
  intros H; rewrite keys_set.
  destruct (existsb _ _); [exact H | apply in_or_app; left; exact H].
Qed.

Lemma keys_set_self (k : jsstring) (v : Source) (m : JsMap.t Source) :
  In k (JsMap.keys (JsMap.set k v m)).
Proof.
  rewrite keys_set; destruct (existsb _ _) eqn:E.
  - apply existsb_eqb_in; exact E.
  - apply in_or_app; right; left; reflexivity.
Qed.

Lemma fold_set_swap (k : jsstring) (v : Source)
  (es : list (jsstring * Source)) (m : JsMap.t Source) :
  In k (JsMap.keys m) -> ~ In k (map fst es) ->
  JsMap.set k v (fold_set es m) = fold_set es (JsMap.set k v m).
Proof.
  revert m; induction es as [|[k' v'] es IH]; intros m Hin Hout;
    cbn [fold_set fold_left fst snd map] in *; [reflexivity|].
  fold (fold_set es (JsMap.set k' v' m)).
  fold (fold_set es (JsMap.set k' v' (JsMap.set k v m))).
  rewrite IH.
  - rewrite set_swap; [reflexivity | exact Hin |].
    intros ->; apply Hout; left; reflexivity.
  - apply keys_set_in; exact Hin.
  - intros H; apply Hout; right; exact H.
Qed.

Lemma fold_set_app (a b : list (jsstring * Source)) (m : JsMap.t Source) :
  fold_set (a ++ b) m = fold_set b (fold_set a m).
Proof. apply fold_left_app. Qed.

(** Setting the entries of a map one more time, after one of them was set
    again. *)
Lemma fold_set_set (k : jsstring) (v : Source) (M m : JsMap.t Source) :
  NoDup (JsMap.keys M) ->
  fold_set (JsMap.set k v M) m = JsMap.set k v (fold_set M m).
Proof.
  intros HM.
  destruct (existsb (JsString.eqb k) (JsMap.keys M)) eqn:E.
  - apply existsb_eqb_in in E.
    destruct (@keys_split _ _ E) as [a [v0 [b [-> Ha]]]].
    rewrite (@set_at _ v v0 _ b Ha), !fold_set_app.
    cbn [fold_set fold_left fst snd].
    fold (fold_set b (JsMap.set k v (fold_set a m))).
    fold (fold_set b (JsMap.set k v0 (fold_set a m))).
    assert (Hb : ~ In k (map fst b)).
    { unfold JsMap.keys in HM; rewrite map_app in HM; cbn [map fst] in HM.
      apply NoDup_remove_2 in HM; intros H; apply HM, in_or_app; right.
      exact H. }
    rewrite (@fold_set_swap k v b (JsMap.set k v0 (fold_set a m)));
      [| apply keys_set_self | exact Hb].
    rewrite set_set; reflexivity.
  - apply existsb_eqb_out in E.
    rewrite (@set_new k v M E), fold_set_app; reflexivity.
Qed.

(** Building a map from the entries of the map built from [es] gives the
    same as building it from [es], whatever was in the map before. *)
Lemma fold_set_from_entries (es : list (jsstring * Source))
  (m : JsMap.t Source) :
  fold_set (JsMap.from_entries es) m = fold_set es m.
Proof.
  induction es as [|[k v] es IH] using rev_ind; [reflexivity|].
  unfold JsMap.from_entries; rewrite fold_left_app; cbn [fold_left fst snd].
  fold (JsMap.from_entries es).
  rewrite fold_set_set by apply from_entries_NoDup.
  rewrite IH, fold_set_app; reflexivity.
Qed.

Lemma keyed_entries (m : JsMap.t Source) :
  keyed m -> entries (JsMap.values m) = m.
Proof.
  unfold entries, JsMap.values, keyed; induction m as [|[k s] m IH];
    cbn [map snd]; intros H; [reflexivity|].
  rewrite IH by (intros k' s' Hin; apply H; right; exact Hin).
  rewrite <- (H k s) by (left; reflexivity); reflexivity.
Qed.

Lemma keyed_from_entries (l : list Source) :
  keyed (JsMap.from_entries (entries l)).
Proof.
  intros k s H; apply from_entries_in in H.
  destruct (entry_key _ _ _ H) as [-> _]; reflexivity.
Qed.

Lemma entries_unique (l : list Source) :
  entries (uniqueSources l) = JsMap.from_entries (entries l).
Proof. apply keyed_entries, keyed_from_entries. Qed.

Lemma uniqueSources_app (a b : list Source) :
  uniqueSources (a ++ b)
  = JsMap.values (fold_set (entries b) (JsMap.from_entries (entries a))).
Proof.
  unfold uniqueSources; fold (entries (a ++ b)).
  unfold entries at 1; rewrite map_app; fold (entries a) (entries b).
  unfold JsMap.from_entries at 1; rewrite fold_left_app; reflexivity.
Qed.

Lemma uniqueSources_app_r (a b : list Source) :
  uniqueSources (a ++ uniqueSources b) = uniqueSources (a ++ b).
Proof.
  rewrite !uniqueSources_app, entries_unique, fold_set_from_entries.
  reflexivity.
Qed.

Lemma uniqueSources_app_l (a b : list Source) :
  uniqueSources (uniqueSources a ++ b) = uniqueSources (a ++ b).
Proof.
  rewrite !uniqueSources_app, entries_unique.
  replace (JsMap.from_entries (JsMap.from_entries (entries a)))
    with (JsMap.from_entries (entries a)); [reflexivity|].
  symmetry; apply (fold_set_from_entries (entries a) []).
Qed.

Lemma values_app (a b : JsMap.t Source) :
  JsMap.values (a ++ b) = JsMap.values a ++ JsMap.values b.
Proof. apply map_app. Qed.

Lemma supersede_none (s : Source) (l : list Source) :
  ~ In (uri s) (map uri l) -> supersede s l = l.
Proof.
  unfold supersede; induction l as [|x l IH]; cbn [map]; intros H;
    [reflexivity|].
  destruct (JsString.eqb (uri s) (uri x)) eqn:E.
  - apply eqb_eq in E; exfalso; apply H; left; symmetry; exact E.
  - rewrite IH; [reflexivity|]. intros Hin; apply H; right; exact Hin.
Qed.

Lemma keys_values (m : JsMap.t Source) :
  keyed m -> map uri (JsMap.values m) = JsMap.keys m.
Proof.
  unfold JsMap.values, JsMap.keys, keyed; induction m as [|[k s] m IH];
    cbn [map fst snd]; intros H; [reflexivity|].
  rewrite IH by (intros k' s' Hin; apply H; right; exact Hin).
  rewrite (H k s) by (left; reflexivity); reflexivity.
Qed.

(** X5. De-duplication one source at a time: a source whose uri was not
    seen before goes last; a source whose uri was seen takes the place of
    the one shown for that uri, and nothing else moves. So the sources stand
    in the order in which their uris first occur, and a list without
    repeated uris is left as it is. *)
Theorem uniqueSources_one_more (l : list Source) (s : Source) :
  uniqueSources (l ++ [s])
  = (if has_uri (uri s) l
     then supersede s (uniqueSources l)
     else uniqueSources l ++ [s])
  /\ has_uri (uri s) (uniqueSources l) = has_uri (uri s) l
  /\ (NoDup (map uri l) -> uniqueSources l = l).
Proof.
  assert (Hhas : forall u l0, has_uri u (uniqueSources l0) = has_uri u l0).
  { intros u l0; unfold has_uri.
    destruct (existsb (JsString.eqb u) (map uri l0)) eqn:E.
    - apply existsb_eqb_in; apply existsb_eqb_in in E.
      apply uniqueSources_complete; exact E.
    - apply existsb_eqb_out; apply existsb_eqb_out in E.
      intros H; apply E.
      apply in_map_iff in H; destruct H as [x [<- Hx]].
      apply in_map, (uniqueSources_in _ _ Hx). }
  assert (Hone : forall l0 s0,
            uniqueSources (l0 ++ [s0])
            = if has_uri (uri s0) l0
              then supersede s0 (uniqueSources l0)
              else uniqueSources l0 ++ [s0]).
  { intros l0 s0; rewrite <- (Hhas (uri s0) l0).
    rewrite uniqueSources_app; cbn [entries map fold_set fold_left fst snd].
    unfold has_uri; rewrite uniqueSources_keys; fold (entries l0).
    pose proof (from_entries_NoDup (entries l0)) as HN.
    pose proof (keyed_from_entries l0) as HK.
    unfold uniqueSources; fold (entries l0).
    destruct (existsb _ _) eqn:E.
    - apply existsb_eqb_in in E.
      destruct (@keys_split _ _ E) as [a [v0 [b [Hm Ha]]]].
      rewrite Hm in *; rewrite (@set_at _ s0 v0 _ b Ha), !values_app.
      unfold JsMap.keys in HN; rewrite map_app in HN; cbn [map fst] in HN.
      assert (Hb : ~ In (uri s0) (map fst b)).
      { apply NoDup_remove_2 in HN; intros H; apply HN, in_or_app; right.
        exact H. }
      assert (Ka : keyed a)
        by (intros k x Hin; apply HK, in_or_app; left; exact Hin).
      assert (Kb : keyed b)
        by (intros k x Hin; apply HK, in_or_app; right; right; exact Hin).
      assert (Kv : uri s0 = uri v0)
        by (apply HK, in_or_app; right; left; reflexivity).
      assert (Sa : supersede s0 (JsMap.values a) = JsMap.values a)
        by (apply supersede_none; rewrite (keys_values Ka); exact Ha).
      assert (Sb : supersede s0 (JsMap.values b) = JsMap.values b)
        by (apply supersede_none; rewrite (keys_values Kb); exact Hb).
      unfold supersede in *; rewrite map_app, Sa.
      change (JsMap.values ((uri s0, v0) :: b)) with (v0 :: JsMap.values b).
      change (JsMap.values ((uri s0, s0) :: b)) with (s0 :: JsMap.values b).
      cbn [map]; rewrite Sb, Kv, eqb_refl; reflexivity.
    - apply existsb_eqb_out in E; rewrite (@set_new _ s0 _ E), values_app.
      reflexivity. }
  split; [apply Hone|]. split; [apply Hhas|].
  induction l as [|x l IH] using rev_ind; intros HN; [reflexivity|].
  rewrite map_app in HN; cbn [map] in HN.
  rewrite Hone.
  assert (Hx : ~ In (uri x) (map uri l)).
  { apply NoDup_remove_2 in HN; rewrite app_nil_r in HN; exact HN. }
  apply existsb_eqb_out in Hx; unfold has_uri; rewrite Hx.
  rewrite IH; [reflexivity|].
  apply NoDup_remove_1 in HN; rewrite app_nil_r in HN; exact HN.
Qed.

(** X6. De-duplicating lists that were de-duplicated one by one gives the
    same as de-duplicating everything at once: the sources the agent shows,
    which it computes from the already de-duplicated sources of each search,
    are those of all the grounding found, and what was collected before a
    search may be de-duplicated or not. *)
Theorem uniqueSources_of_parts (parts : list (list Source))
  (acc raw : list Source) :
  uniqueSources (List.concat (map uniqueSources parts))
  = uniqueSources (List.concat parts)
  /\ uniqueSources (acc ++ uniqueSources raw) = uniqueSources (acc ++ raw)
  /\ uniqueSources (uniqueSources acc ++ raw) = uniqueSources (acc ++ raw)
  /\ uniqueSources (uniqueSources raw) = uniqueSources raw.
Proof.
  split; [|split; [apply uniqueSources_app_r|split; [apply uniqueSources_app_l|]]].
  - induction parts as [|l parts IH]; [reflexivity|].
    cbn [map List.concat].
    rewrite uniqueSources_app_l, <- uniqueSources_app_r, IH.
    apply uniqueSources_app_r.
  - pose proof (uniqueSources_app_r [] raw) as H; cbn [app] in H; exact H.
Qed.



(** Without candidates the search gives its text and no sources. *)
Example searchWithGrounding_ungrounded :
  searchWithGrounding (fun _ => Ok MoreFixtures.ungrounded) (js "q")
  = Ok {| text := js "overview"; sources := [] |}.
Proof. reflexivity. Qed.

End SourceOrder.

(** ** How a run ends *)

Module AgentOutcomes.

Import GeminiService DeepSeekAgent RunShape Protocol AgentRuns ShapeFacts.

#[local] Arguments bind {S A B} m k s /.
#[local] Arguments ret {S A} a s /.
#[local] Arguments throw {S A} e s /.
#[local] Arguments try_catch {S A} body handler s /.
#[local] Arguments try_finally {S A} body fin s /.
#[local] Arguments gets {S A} f s /.
#[local] Arguments modify {S} f s /.
#[local] Arguments await {S A} r s /.
#[local] Arguments on_state f s /.
#[local] Arguments emit e s /.
#[local] Arguments setTopic v s /.
#[local] Arguments setStage v s /.
#[local] Arguments setReport v s /.
#[local] Arguments setSources v s /.
#[local] Arguments setError v s /.
#[local] Arguments setPlan v s /.
#[local] Arguments setProgressLog f s /.
#[local] Arguments writeResults v s /.
#[local] Arguments writeSources v s /.
#[local] Arguments readResults s /.
#[local] Arguments readSources s /.
#[local] Arguments pushSources newSources s /.
#[local] Arguments addLog message s /.
#[local] Arguments resetState s /.
#[local] Arguments generateResearchPlan svc topic w /.
#[local] Arguments searchWithGrounding svc query w /.
#[local] Arguments evaluateCompleteness svc plan searchResults w /.
#[local] Arguments refineSearchQueries svc unansweredQuestions w /.
#[local] Arguments synthesizeReport svc topic searchResults w /.

Ltac done_here H :=
  intros H; inversion H; subst; clear H; unfold kept; exec.

Section Outcomes.

Variable svc : Service.

(** *** The cells the loop leaves alone *)

Lemma searchQuery_kept (query : jsstring) (w : World) r w' :
  searchQuery svc query w = Some (r, w') -> kept w' = kept w.
Proof.
  unfold searchQuery; exec.
  destruct (svc_searchWithGrounding svc (trace w) query) as [found|e]; exec;
    done_here H; reflexivity.
Qed.

Lemma search_all_kept (qs : list jsstring) (w : World) r w' :
  for_of qs (searchQuery svc) w = Some (r, w') -> kept w' = kept w.
Proof.
  revert w; induction qs as [|q qs IH]; intros w; cbn [for_of].
  - unfold ret; intros H; inversion H; reflexivity.
  - unfold bind.
    destruct (searchQuery svc q w) as [[[u|e] w1]|] eqn:E1; intros H.
    + rewrite (IH _ H); apply (searchQuery_kept _ _ E1).
    + inversion H; subst; apply (searchQuery_kept _ _ E1).
    + discriminate H.
Qed.

Lemma iteration_kept (initialPlan : list ResearchPlanItem) (i : nat)
  (qs : list jsstring) (w : World) r w' :
  iteration svc initialPlan i qs w = Some (r, w') -> kept w' = kept w.
Proof.
  unfold iteration; exec.
  match goal with
  | |- context [for_of qs (searchQuery svc) ?W] =>
      destruct (search_all svc qs W) as [w2 [S [E2 _]]]; rewrite E2;
      pose proof (search_all_kept _ _ E2) as K2
  end.
  unfold kept in K2; exec_in K2; exec.
  destruct (svc_evaluateCompleteness svc (trace w2) initialPlan
              (accumulatedResultsRef (st w2))) as [ev|e]; exec;
    [|done_here H; exact K2].
  destruct (is_complete ev); exec; [done_here H; exact K2|].
  destruct (i =? MAX_ITERATIONS - 1); exec; [done_here H; exact K2|].
  match goal with
  | |- context [svc_refineSearchQueries svc ?T ?Q] =>
      destruct (svc_refineSearchQueries svc T Q) as [[|q newQueries]|e]
  end; cbn [List.length Nat.eqb]; exec; done_here H; exact K2.
Qed.

Lemma for_loop_kept (fuel : nat) (initialPlan : list ResearchPlanItem)
  (i : nat) (qs : list jsstring) (w : World) r w' :
  for_loop svc fuel initialPlan i qs w = Some (r, w') -> kept w' = kept w.
Proof.
  revert i qs w; induction fuel as [|fuel IH]; intros i qs w;
    cbn [for_loop]; destruct (i <? MAX_ITERATIONS);
    try (unfold ret; intros H; inversion H; reflexivity);
    try (unfold out_of_fuel; discriminate).
  unfold bind at 1.
  destruct (iteration svc initialPlan i qs w) as [[[[|qs']|e] w1]|] eqn:E1;
    intros H.
  - unfold ret in H; inversion H; subst; apply (iteration_kept _ _ _ _ E1).
  - rewrite (IH _ _ _ H); apply (iteration_kept _ _ _ _ E1).
  - inversion H; subst; apply (iteration_kept _ _ _ _ E1).
  - discriminate H.
Qed.

(** *** The event that ends a loop that threw *)

Lemma rounds_thrown plan i qs s evs r s' :
  rounds plan i qs s evs r s' ->
  forall e, r = Err e -> exists pre x, evs = pre ++ [x] /\ thrown x = Some e.
Proof.
  induction 1 as [| | ? ? ? ? ? e0 ? Hr | ? ? ? ? ? ? ? ? ? ? ? ? IH];
    intros e He; try discriminate He.
  - inversion He; subst e0; inversion Hr; subst.
    + eexists (Iteration i :: _), _; split; [reflexivity | reflexivity].
    + eexists (Iteration i :: _ ++ [_]), _; split;
        [cbn [app]; rewrite <- app_assoc; reflexivity | reflexivity].
  - destruct (IH e He) as [pre [x [-> Hx]]].
    exists (evs ++ pre), x; split; [apply app_assoc | exact Hx].
Qed.

(** A whole run: the shape of its events, and the cells it leaves. *)
Lemma handleResearch_outcome (fuel : nat) (w : World) :
  MAX_ITERATIONS <= fuel ->
  JsString.truthy (trim (topic (st w))) = true ->
  exists w' evs,
    handleResearch svc fuel w = Some (Ok tt, w')
    /\ trace w' = trace w ++ evs
    /\ run (topic (st w)) evs (evidence w')
    /\ consistent w'
    /\ topic (st w') = []
    /\ (exists r rest,
          evs = WriteResults [] :: Planned (topic (st w)) r :: rest
          /\ plan (st w') = match r with Ok p => p | Err _ => [] end)
    /\ ((exists pre r,
           evs = pre ++ [Synthesized (topic (st w))
                           (accumulatedResultsRef (st w')) (Ok r)]
           /\ stage (st w') = COMPLETE
           /\ report (st w') = Some r
           /\ error (st w') = None
           /\ last (progressLog (st w')) []
              = js "Report synthesized successfully!")
        \/ (exists pre x e,
              evs = pre ++ [x] /\ thrown x = Some e
              /\ stage (st w') = ERROR
              /\ report (st w') = None
              /\ error (st w') = Some (or_else e unknown_error)
              /\ last (progressLog (st w')) []
                 = js "Error: " ++ or_else e unknown_error)).
Proof.
  intros Hfuel Htopic; unfold handleResearch, runPlanning, runSynthesis; exec.
  rewrite Htopic; cbn [negb]; exec.
  match goal with
  | |- context [svc_generateResearchPlan svc ?T ?Q] =>
      destruct (svc_generateResearchPlan svc T Q) as [researchPlan|e] eqn:Ep
  end; exec.
  2:{ do 2 eexists; split; [reflexivity|]; exec.
      split; [rewrite <- !app_assoc; reflexivity|].
      split; [apply run_planning_failed|].
      split; [reflexivity|]. split; [reflexivity|].
      split; [do 2 eexists; split; reflexivity|].
      right; exists [WriteResults []], (Planned (topic (st w)) (Err e)), e.
      repeat split; apply last_last. }
  match goal with
  | |- context [runSearchAndEvaluateLoop svc fuel researchPlan ?W] =>
      destruct (runSearchAndEvaluateLoop_run svc researchPlan W Hfuel)
        as [r [w2 [evs [E2 [T2 [R2 C2]]]]]]; rewrite E2;
      pose proof (for_loop_kept _ _ _ _ _ E2) as K2
  end.
  unfold evidence, consistent in R2, C2; exec_in R2; exec_in C2; exec_in T2.
  unfold kept in K2; exec_in K2; injection K2 as Kt Kr Ke Kp.
  specialize (C2 eq_refl).
  destruct r as [[]|e]; exec.
  2:{ do 2 eexists; split; [reflexivity|]; exec.
      split; [rewrite T2, <- !app_assoc; reflexivity|].
      split; [eapply run_loop_failed; exact R2|].
      split; [exact C2|]. split; [exact Kt|].
      split; [do 2 eexists; split; [reflexivity | exact Kp]|].
      destruct (rounds_thrown R2 eq_refl) as [pre [x [-> Hx]]].
      right; exists (WriteResults [] :: Planned (topic (st w)) (Ok researchPlan)
                       :: pre), x, e.
      repeat split; auto; apply last_last. }
  match goal with
  | |- context [svc_synthesizeReport svc ?T ?Q ?B] =>
      destruct (svc_synthesizeReport svc T Q B) as [finalReport|e] eqn:Es
  end; exec.
  - do 2 eexists; split; [reflexivity|]; exec.
    split; [rewrite T2, <- !app_assoc; reflexivity|].
    split; [apply (run_synthesis _ _ R2)|].
    split; [exact C2|]. split; [exact Kt|].
    split; [do 2 eexists; split; [reflexivity | exact Kp]|].
    left; exists (WriteResults [] :: Planned (topic (st w)) (Ok researchPlan)
                    :: evs), finalReport.
    repeat split; auto; apply last_last.
  - do 2 eexists; split; [reflexivity|]; exec.
    split; [rewrite T2, <- !app_assoc; reflexivity|].
    split; [apply (run_synthesis _ _ R2)|].
    split; [exact C2|]. split; [exact Kt|].
    split; [do 2 eexists; split; [reflexivity | exact Kp]|].
    right; eexists (WriteResults [] :: Planned (topic (st w)) (Ok researchPlan)
                    :: evs), _, e.
    split; [reflexivity|]. repeat split; auto; apply last_last.
Qed.

(** On a blank topic nothing runs, whatever the fuel. *)
Lemma handleResearch_refuses (fuel : nat) (w : World) :
  JsString.truthy (trim (topic (st w))) = false ->
  handleResearch svc fuel w
  = Some (Ok tt,
          {| st := {| topic := topic (st w); stage := stage (st w);
                      report := report (st w); sources := sources (st w);
                      error := Some blank_topic_error; plan := plan (st w);
                      progressLog := progressLog (st w);
                      accumulatedResultsRef := accumulatedResultsRef (st w);
                      accumulatedSourcesRef := accumulatedSourcesRef (st w) |};
             trace := trace w |}).
Proof.
  intros Htopic; unfold handleResearch; exec.
  rewrite Htopic; cbn [negb]; exec; reflexivity.
Qed.



End Outcomes.

(** X20. One search of the loop never throws. When the service rejects
    it, the log gains the line that announces the search and a warning with
    the query and the reason, and nothing else changes: the collected
    results and sources and the sources shown stay as they were. When it
    succeeds, its entry and its sources are appended, the sources shown
    become the collected ones de-duplicated, and the log gains the
    announcement only. The topic, the stage, the report, the error and the
    plan are left alone either way. *)
Theorem failed_search_is_logged_and_skipped (svc : Service)
  (query : jsstring) (w : World) :
  exists w',
    searchQuery svc query w = Some (Ok tt, w')
    /\ kept w' = kept w
    /\ stage (st w') = stage (st w)
    /\ match svc_searchWithGrounding svc (trace w) query with
       | Err message =>
           trace w' = trace w ++ [Searched query (Err message)]
           /\ evidence w' = evidence w
           /\ sources (st w') = sources (st w)
           /\ progressLog (st w')
              = progressLog (st w)
                ++ [ js "Searching for: " ++ [DQUOTE] ++ query ++ [DQUOTE];
                     js "Warning: Failed to search for " ++ [DQUOTE] ++ query
                     ++ [DQUOTE] ++ js ". Reason: " ++ message
                     ++ js ". Continuing..." ]
       | Ok found =>
           trace w'
           = trace w
             ++ [ Searched query (Ok found);
                  WriteResults (accumulatedResultsRef (st w)
                                ++ evidence_entry query (text found)) ]
           /\ accumulatedResultsRef (st w')
              = accumulatedResultsRef (st w)
                ++ evidence_entry query (text found)
           /\ accumulatedSourcesRef (st w')
              = accumulatedSourcesRef (st w) ++ GeminiService.sources found
           /\ sources (st w') = uniqueSources (accumulatedSourcesRef (st w'))
           /\ progressLog (st w')
              = progressLog (st w)
                ++ [ js "Searching for: " ++ [DQUOTE] ++ query ++ [DQUOTE] ]
       end.
Proof.
  unfold searchQuery; exec.
  destruct (svc_searchWithGrounding svc (trace w) query) as [found|e];
    eexists; (split; [reflexivity|]); unfold kept, evidence; exec.
  - split; [reflexivity|]. split; [reflexivity|].
    split; [rewrite <- app_assoc; reflexivity|]. repeat split.
  - split; [reflexivity|]. split; [reflexivity|].
    split; [reflexivity|]. split; [reflexivity|].
    split; [reflexivity|]. rewrite <- app_assoc; reflexivity.
Qed.

(** *** What the events of a loop are *)

Lemma search_events_are (P : Event -> Prop) qs s S s' :
  search_phase qs s S s' ->
  (forall e, is_search_event e = true -> P e) ->
  Forall P S.
Proof.
  intros H HP; apply search_phase_events in H.
  rewrite forallb_forall in H; apply Forall_forall; auto.
Qed.

Lemma round_shape plan i qs s evs rc s' :
  round plan i qs s evs rc s' ->
  exists S T,
    evs = Iteration i :: S ++ T
    /\ search_phase qs s S s'
    /\ Forall (loop_event plan) T
    /\ Forall (fun e => is_search e = false) T
    /\ (forall c, rc = Ok c -> Forall (fun e => thrown e = None) T)
    /\ proposed_queries T
       = match rc with Ok (Next qs') => qs' | _ => [] end
    /\ (forall qs', rc = Ok (Next qs') -> i <> MAX_ITERATIONS - 1).
Proof.
  intros H; inversion H; subst; do 2 eexists;
    (split; [reflexivity|]); (split; [eassumption|]);
    (split; [repeat constructor|]); (split; [repeat constructor|]);
    (split; [intros c Hc; try discriminate Hc; repeat constructor|]);
    (split; [cbn [proposed_queries flat_map app refined_queries];
             rewrite ?app_nil_r; reflexivity|]);
    intros qs' Hq; try discriminate Hq; assumption.
Qed.

Lemma searched_queries_app (a b : list Event) :
  searched_queries (a ++ b) = searched_queries a ++ searched_queries b.
Proof. apply flat_map_app. Qed.

Lemma proposed_queries_app (a b : list Event) :
  proposed_queries (a ++ b) = proposed_queries a ++ proposed_queries b.
Proof. apply flat_map_app. Qed.

Lemma search_phase_queries qs s S s' :
  search_phase qs s S s' ->
  searched_queries S = qs /\ proposed_queries S = [].
Proof.
  induction 1 as [s | q qs s s' e evs H [IH1 IH2]
                  | q qs buf acc s' found evs H [IH1 IH2]];
    [split; reflexivity | |];
    cbn [searched_queries proposed_queries flat_map app];
    fold (searched_queries evs) (proposed_queries evs);
    rewrite IH1, IH2; auto.
Qed.

Lemma quiet_searches (T : list Event) :
  Forall (fun e => is_search e = false) T -> searched_queries T = [].
Proof.
  induction 1 as [|e T He _ IH]; [reflexivity|].
  cbn [searched_queries flat_map]; fold (searched_queries T); rewrite IH.
  destruct e; try discriminate He; reflexivity.
Qed.

Lemma round_queries plan i qs s evs rc s' :
  round plan i qs s evs rc s' ->
  searched_queries evs = qs
  /\ proposed_queries evs = match rc with Ok (Next qs') => qs' | _ => [] end.
Proof.
  intros H; destruct (round_shape H) as [S [T [-> [HS [_ [HT [_ [HP _]]]]]]]].
  destruct (search_phase_queries HS) as [Hq Hp].
  change (Iteration i :: S ++ T) with ([Iteration i] ++ S ++ T).
  rewrite !searched_queries_app, !proposed_queries_app, Hq, Hp, HP.
  rewrite (quiet_searches HT), app_nil_r; split; reflexivity.
Qed.

Lemma rounds_queries plan i qs s evs r s' :
  rounds plan i qs s evs r s' ->
  i < MAX_ITERATIONS ->
  searched_queries evs = qs ++ proposed_queries evs.
Proof.
  induction 1 as [| ? ? ? ? ? ? Hr | ? ? ? ? ? ? ? Hr
                  | ? ? ? ? ? ? ? ? ? ? Hr ? IH]; intros Hi; [lia| | |].
  - destruct (round_queries Hr) as [-> ->]; rewrite app_nil_r; reflexivity.
  - destruct (round_queries Hr) as [-> ->]; rewrite app_nil_r; reflexivity.
  - destruct (round_shape Hr) as [_ [_ [_ [_ [_ [_ [_ [_ Hlast]]]]]]]].
    specialize (Hlast _ eq_refl).
    destruct (round_queries Hr) as [Hq Hp].
    rewrite searched_queries_app, proposed_queries_app, Hq, Hp, IH;
      [rewrite app_assoc; reflexivity|].
    unfold MAX_ITERATIONS in *; lia.
Qed.

Lemma round_loop_events plan i qs s evs rc s' :
  round plan i qs s evs rc s' -> Forall (loop_event plan) evs.
Proof.
  intros H; destruct (round_shape H) as [S [T [-> [HS [HT _]]]]].
  constructor; [exact I|]; apply Forall_app; split; [|exact HT].
  apply (search_events_are _ HS); intros [] He; try discriminate He; exact I.
Qed.

Lemma rounds_loop_events plan i qs s evs r s' :
  rounds plan i qs s evs r s' -> Forall (loop_event plan) evs.
Proof.
  induction 1 as [| ? ? ? ? ? ? Hr | ? ? ? ? ? ? ? Hr
                  | ? ? ? ? ? ? ? ? ? ? Hr ? IH];
    try (apply round_loop_events in Hr); auto.
  apply Forall_app; split; assumption.
Qed.



End AgentOutcomes.

(** ** Runs of the agent: outcome, calls, queries *)

Module AgentFacts.

Import GeminiService DeepSeekAgent RunShape Protocol AgentView.
Import JsStringFacts ShapeFacts AgentOutcomes Fixtures FailingServices.

Lemma loop_events_facts (plan : list ResearchPlanItem) (l : list Event) :
  Forall (loop_event plan) l ->
  filter is_planning l = []
  /\ filter is_synthesis l = []
  /\ (forall p b re, In (Evaluated p b re) l -> p = plan).
Proof.
  induction 1 as [|e l He _ [IH1 [IH2 IH3]]]; [repeat split; intros ? ? ? []|].
  destruct e; cbn [loop_event] in He; try contradiction;
    cbn [filter is_planning is_synthesis]; (split; [exact IH1|]);
    (split; [exact IH2|]); intros p' b' re' [Heq|Hin];
    try discriminate Heq; eauto.
  inversion Heq; subst; reflexivity.
Qed.



(** A rejection without a message shows the fixed text; searches that all
    fail do not stop the run. *)
Example outcomes :
  (exists w',
      handleResearch (broken []) 3 start = Some (Ok tt, w')
      /\ stage (st w') = ERROR
      /\ error (st w') = Some unknown_error)
  /\ (exists w',
        handleResearch blind 3 start = Some (Ok tt, w')
        /\ stage (st w') = COMPLETE
        /\ report (st w') = Some final_report
        /\ sources (st w') = []
        /\ accumulatedResultsRef (st w') = []).
Proof.
  split; eexists; (split; [vm_compute; reflexivity|]); repeat split;
    reflexivity.
Qed.





(** X10. On a topic that is empty or only whitespace [handleResearch]
    sets the error text and does nothing else: no call is made, nothing is
    reset, the stage, the report, the sources and the log stay as they
    were. *)
Theorem blank_topic_is_refused (svc : Service) (fuel : nat) (w : World) :
  JsString.truthy (trim (topic (st w))) = false ->
  exists w',
    handleResearch svc fuel w = Some (Ok tt, w')
    /\ trace w' = trace w
    /\ error (st w') = Some blank_topic_error
    /\ topic (st w') = topic (st w)
    /\ stage (st w') = stage (st w)
    /\ report (st w') = report (st w)
    /\ sources (st w') = sources (st w)
    /\ plan (st w') = plan (st w)
    /\ progressLog (st w') = progressLog (st w)
    /\ evidence w' = evidence w.
Proof.
  intros Htopic; eexists; split;
    [apply (handleResearch_refuses svc fuel w Htopic)|].
  repeat split.
Qed.

Lemma blank_topic_is_refused_witness :
  exists w',
    handleResearch scenario 0 (idle (js "  ")) = Some (Ok tt, w')
    /\ trace w' = trace (idle (js "  "))
    /\ error (st w') = Some blank_topic_error
    /\ topic (st w') = topic (st (idle (js "  ")))
    /\ stage (st w') = stage (st (idle (js "  ")))
    /\ report (st w') = report (st (idle (js "  ")))
    /\ sources (st w') = sources (st (idle (js "  ")))
    /\ plan (st w') = plan (st (idle (js "  ")))
    /\ progressLog (st w') = progressLog (st (idle (js "  ")))
    /\ evidence w' = evidence (idle (js "  ")).
Proof. apply blank_topic_is_refused; reflexivity. Defined.



(** X12. The queries a run searches are those the plan and the refinements
    propose, each searched once and in the order proposed, the English
    question before the Japanese one: a search that fails does not keep the
    later ones from being made, and nothing else is ever searched. *)
Theorem proposed_queries_are_searched (svc : Service) (fuel : nat)
  (w : World) :
  3 <= fuel ->
  JsString.truthy (trim (topic (st w))) = true ->
  exists w' evs,
    handleResearch svc fuel w = Some (Ok tt, w')
    /\ trace w' = trace w ++ evs
    /\ searched_queries evs = proposed_queries evs.
Proof.
  intros Hfuel Htopic.
  destruct (handleResearch_outcome svc w Hfuel Htopic)
    as [w' [evs [E [T [R _]]]]].
  exists w', evs; split; [exact E|]. split; [exact T|].
  inversion R as [e | p L e s1 HR | p L s1 rs HR]; subst; [reflexivity| |].
  - cbn [searched_queries proposed_queries flat_map app].
    fold (searched_queries L) (proposed_queries L).
    apply (rounds_queries HR); unfold MAX_ITERATIONS; lia.
  - cbn [searched_queries proposed_queries flat_map app].
    fold (searched_queries (L ++ [Synthesized (topic (st w)) (fst (evidence w')) rs]))
         (proposed_queries (L ++ [Synthesized (topic (st w)) (fst (evidence w')) rs])).
    rewrite searched_queries_app, proposed_queries_app.
    cbn [searched_queries proposed_queries flat_map app]; rewrite !app_nil_r.
    apply (rounds_queries HR); unfold MAX_ITERATIONS; lia.
Qed.

Lemma proposed_queries_are_searched_witness :
  exists w' evs,
    handleResearch scenario 3 start = Some (Ok tt, w')
    /\ trace w' = trace start ++ evs
    /\ searched_queries evs = proposed_queries evs.
Proof. apply proposed_queries_are_searched; [lia | reflexivity]. Defined.

(** In the scenario the two questions of the plan are searched, then the
    two of the refinement. *)
Example scenario_queries :
  exists w',
    handleResearch scenario 3 start = Some (Ok tt, w')
    /\ searched_queries (trace w')
       = [js "What is it?"; js "Nani?"; js "Why exactly?"; js "Naze?"].
Proof. eexists; split; [vm_compute; reflexivity | reflexivity]. Qed.

(** *** What the calls are given *)

Lemma collected_results_app (a b : list Event) :
  collected_results (a ++ b) = collected_results a ++ collected_results b.
Proof. apply flat_map_app. Qed.

Lemma quiet_collected (T : list Event) :
  Forall (fun e => is_search e = false) T -> collected_results T = [].
Proof.
  induction 1 as [|e T He _ IH]; [reflexivity|].
  cbn [collected_results flat_map]; fold (collected_results T); rewrite IH.
  destruct e; try discriminate He; reflexivity.
Qed.

Lemma search_phase_collected qs s S s' :
  search_phase qs s S s' -> fst s' = fst s ++ collected_results S.
Proof.
  induction 1 as [s | q qs s s' e evs H IH
                  | q qs buf acc s' found evs H IH]; cbn [fst] in *.
  - rewrite app_nil_r; reflexivity.
  - exact IH.
  - rewrite IH; cbn [collected_results flat_map app].
    fold (collected_results evs); rewrite app_assoc; reflexivity.
Qed.

Lemma round_collected plan i qs s evs rc s' :
  round plan i qs s evs rc s' -> fst s' = fst s ++ collected_results evs.
Proof.
  intros H; destruct (round_shape H) as [S [T [-> [HS [_ [HT _]]]]]].
  change (Iteration i :: S ++ T) with ([Iteration i] ++ S ++ T).
  rewrite !collected_results_app, (quiet_collected HT), app_nil_r.
  apply (search_phase_collected HS).
Qed.

Lemma rounds_collected plan i qs s evs r s' :
  rounds plan i qs s evs r s' -> fst s' = fst s ++ collected_results evs.
Proof.
  induction 1 as [| ? ? ? ? ? ? Hr | ? ? ? ? ? ? ? Hr
                  | ? ? ? ? ? ? ? ? ? ? Hr ? IH];
    try (apply round_collected in Hr); auto.
  - rewrite app_nil_r; reflexivity.
  - rewrite IH, Hr, collected_results_app, app_assoc; reflexivity.
Qed.

Lemma round_reads plan i qs s evs rc s' pre p b re post :
  round plan i qs s evs rc s' ->
  evs = pre ++ Evaluated p b re :: post ->
  b = fst s ++ collected_results pre.
Proof.
  intros H Heq; subst evs.
  pose proof (round_collected H) as Hc.
  pose proof H as H'; apply round_at_evaluation in H'.
  destruct H' as [_ [-> [_ Hpost]]].
  rewrite Hc, collected_results_app.
  cbn [collected_results flat_map app]; fold (collected_results post).
  assert (Hq : collected_results post = []).
  { destruct re as [ev|e]; [|destruct Hpost as [-> _]; reflexivity].
    destruct (is_complete ev).
    - destruct Hpost as [-> _]; reflexivity.
    - destruct Hpost as [[_ [-> _]]|[_ [rr ->]]]; reflexivity. }
  rewrite Hq, app_nil_r; reflexivity.
Qed.

Lemma rounds_reads plan i qs s evs r s' :
  rounds plan i qs s evs r s' ->
  forall pre p b re post,
    evs = pre ++ Evaluated p b re :: post ->
    b = fst s ++ collected_results pre.
Proof.
  induction 1 as [| ? ? ? ? ? ? Hr | ? ? ? ? ? ? ? Hr
                  | i qs s evs qs' s' evs' r s'' Hi Hr Hrs IH];
    intros pre p b re post Heq.
  - destruct pre; discriminate Heq.
  - eapply round_reads; [exact Hr | exact Heq].
  - eapply round_reads; [exact Hr | exact Heq].
  - symmetry in Heq; destruct (split_app _ _ _ _ _ Heq)
      as [[mid [Hevs _]]|[mid [-> Hevs']]].
    + eapply round_reads; [exact Hr | exact Hevs].
    + rewrite (IH _ _ _ _ _ Hevs'), (round_collected Hr).
      rewrite collected_results_app, app_assoc; reflexivity.
Qed.

(** X18. At the end of a run the collected results are the entries of the
    searches that succeeded, in order, the collected sources are the
    sources of those searches, and the sources shown are these,
    de-duplicated. Every evaluation, and the synthesis, is given exactly the
    entries of the searches that succeeded before it. *)
Theorem calls_are_given_the_results (svc : Service) (fuel : nat)
  (w : World) :
  3 <= fuel ->
  JsString.truthy (trim (topic (st w))) = true ->
  exists w' evs,
    handleResearch svc fuel w = Some (Ok tt, w')
    /\ trace w' = trace w ++ evs
    /\ accumulatedResultsRef (st w') = collected_results evs
    /\ accumulatedSourcesRef (st w') = searched_sources evs
    /\ sources (st w') = uniqueSources (searched_sources evs)
    /\ (forall pre p b re post,
          evs = pre ++ Evaluated p b re :: post -> b = collected_results pre)
    /\ (forall pre t b rs post,
          evs = pre ++ Synthesized t b rs :: post ->
          b = collected_results pre).
Proof.
  intros Hfuel Htopic.
  destruct (handleResearch_outcome svc w Hfuel Htopic)
    as [w' [evs [E [T [R [C _]]]]]].
  exists w', evs; split; [exact E|]. split; [exact T|].
  pose proof (run_sources R) as Hsrc; cbn [evidence snd] in Hsrc.
  unfold consistent in C; rewrite Hsrc in C.
  assert (Hbuf : accumulatedResultsRef (st w') = collected_results evs
                 /\ (forall pre p b re post,
                       evs = pre ++ Evaluated p b re :: post ->
                       b = collected_results pre)
                 /\ (forall pre t b rs post,
                       evs = pre ++ Synthesized t b rs :: post ->
                       b = collected_results pre));
    [|destruct Hbuf as [H1 [H2 H3]]; auto 10].
  clear E T C Hsrc.
  change (accumulatedResultsRef (st w')) with (fst (evidence w')).
  remember (evidence w') as final eqn:Hfinal; clear Hfinal.
  inversion R as [e | p L e s1 HR | p L s1 rs HR]; subst.
  - split; [reflexivity|]; split; intros [|x [|y pre]] ? ? ? ? Heq;
      try discriminate Heq; destruct pre; discriminate Heq.
  - pose proof (rounds_collected HR) as Hc; cbn [fst app] in Hc.
    destruct (loop_events_facts (rounds_loop_events HR)) as [_ [Hsyn _]].
    split; [exact Hc|]; split.
    + intros [|x [|y pre]] p' b re post Heq; try discriminate Heq.
      cbn [app] in Heq; injection Heq as <- <- Heq.
      exact (@rounds_reads _ _ _ _ _ _ _ HR _ _ _ _ _ Heq).
    + intros [|x [|y pre]] t b rs' post Heq; try discriminate Heq.
      cbn [app] in Heq; injection Heq as <- <- Heq.
      exfalso; rewrite Heq, filter_app in Hsyn.
      apply app_eq_nil in Hsyn; destruct Hsyn as [_ Hsyn]; discriminate Hsyn.
  - pose proof (rounds_collected HR) as Hc; cbn [fst app] in Hc.
    destruct (loop_events_facts (rounds_loop_events HR)) as [_ [Hsyn _]].
    split; [|split].
    + cbn [collected_results flat_map app]; fold (collected_results
        (L ++ [Synthesized (topic (st w)) (fst final) rs])).
      rewrite collected_results_app; cbn [collected_results flat_map app].
      rewrite app_nil_r; exact Hc.
    + intros [|x [|y pre]] p' b re post Heq; try discriminate Heq.
      cbn [app] in Heq; injection Heq as <- <- Heq.
      destruct (split_app _ _ _ _ _ (eq_sym Heq))
        as [[mid [HL _]]|[mid [_ Hs]]].
      * exact (@rounds_reads _ _ _ _ _ _ _ HR _ _ _ _ _ HL).
      * destruct mid as [|? [|? mid]]; discriminate Hs.
    + intros [|x [|y pre]] t b rs' post Heq; try discriminate Heq.
      cbn [app] in Heq; injection Heq as <- <- Heq.
      destruct (split_app _ _ _ _ _ (eq_sym Heq))
        as [[mid [HL _]]|[mid [Hpre Hs]]].
      * exfalso; rewrite HL, filter_app in Hsyn.
        apply app_eq_nil in Hsyn; destruct Hsyn as [_ Hsyn];
          discriminate Hsyn.
      * destruct mid as [|? [|? mid]]; try discriminate Hs.
        injection Hs as <- <- <- <-.
        rewrite app_nil_r in Hpre; subst pre; exact Hc.
Qed.

Lemma calls_are_given_the_results_witness :
  exists w' evs,
    handleResearch scenario 3 start = Some (Ok tt, w')
    /\ trace w' = trace start ++ evs
    /\ accumulatedResultsRef (st w') = collected_results evs
    /\ accumulatedSourcesRef (st w') = searched_sources evs
    /\ sources (st w') = uniqueSources (searched_sources evs)
    /\ (forall pre p b re post,
          evs = pre ++ Evaluated p b re :: post -> b = collected_results pre)
    /\ (forall pre t b rs post,
          evs = pre ++ Synthesized t b rs :: post ->
          b = collected_results pre).
Proof. apply calls_are_given_the_results; [lia | reflexivity]. Defined.

End AgentFacts.

(** ** What is rendered *)

Module ViewFacts.

Import GeminiService DeepSeekAgent AgentView JsStringFacts.

(** X13. An indicator is never both active and done, so that the colour of
    its circle, which looks at done first, and its caption, which looks at
    active first, always agree: green with Completed, indigo and the spinner
    with In progress, gray and a dim title with Pending. It is done exactly
    when the current stage comes later in the stage order; IDLE and ERROR
    are not in that order and come before everything. *)
Theorem StageIndicator_consistent (stage currentStage : ResearchStage) :
  let shown := StageIndicator stage currentStage in
  (colour shown = Green <-> caption shown = Completed)
  /\ (colour shown = Indigo <-> caption shown = InProgress)
  /\ (colour shown = Gray <-> caption shown = Pending)
  /\ (spinner shown = true <-> caption shown = InProgress)
  /\ (white shown = false <-> caption shown = Pending)
  /\ (caption shown = InProgress <-> stage = currentStage)
  /\ (caption shown = Completed
      <-> (indexOf stageOrder stage < indexOf stageOrder currentStage)%Z)
  /\ indexOf stageOrder IDLE = (-1)%Z
  /\ indexOf stageOrder ERROR = (-1)%Z.
Proof.
  destruct stage, currentStage; vm_compute;
    repeat split; intros; try discriminate; try reflexivity;
    try match goal with H : _ = _ |- _ => discriminate H end.
Qed.

Ltac progress_case k :=
  split; [discriminate|]; split; [discriminate|]; split; [reflexivity|];
  split; [intros _; exists k; split; reflexivity | discriminate].

(** X14. What [renderContent] shows. The input form is shown in the stages
    IDLE and ERROR, its search button is never disabled, the button to try
    again is there in the stage ERROR only, and the error line is there when
    the error text is not empty. The report is shown in the stage COMPLETE
    when there is one. Otherwise the progress view is shown: while the agent
    runs, the indicators before the current stage say Completed, the one of
    the current stage In progress, the later ones Pending. *)
Theorem renderContent_views (s : State) :
  match renderContent s with
  | InputView value searchDisabled errorLine tryAgain =>
      (stage s = IDLE \/ stage s = ERROR)
      /\ value = topic s
      /\ searchDisabled = false
      /\ (tryAgain = true <-> stage s = ERROR)
      /\ (forall m, errorLine = Some m <-> error s = Some m /\ m <> [])
  | ReportView shown links =>
      stage s = COMPLETE /\ report s = Some shown /\ links = sources s
  | ProgressView indicators log running =>
      stage s <> IDLE /\ stage s <> ERROR
      /\ log = join [LF] (progressLog s)
      /\ (running = true ->
          exists k,
            nth_error [PLANNING; SEARCHING; EVALUATING; SYNTHESIZING] k
            = Some (stage s)
            /\ map caption indicators
               = repeat Completed k ++ InProgress :: repeat Pending (3 - k))
      /\ (running = false ->
          stage s = COMPLETE /\ report s = None
          /\ map caption indicators = repeat Completed 4)
  end.
Proof.
  destruct s as [t g r src e p log buf acc]; unfold renderContent;
    cbn [stage report topic error sources progressLog].
  assert (Herr : forall m,
            match e with
            | Some e0 => if JsString.truthy e0 then Some e0 else None
            | None => None
            end = Some m <-> e = Some m /\ m <> []).
  { intros m; destruct e as [e0|]; [|split; [discriminate | intros [H _]; discriminate H]].
    destruct (JsString.truthy e0) eqn:E.
    - apply truthy_nonempty in E; split.
      + intros H; inversion H; subst; auto.
      + intros [H _]; exact H.
    - split; [discriminate|]. intros [H Hm]; inversion H; subst.
      apply truthy_nonempty in Hm; congruence. }
  destruct g; cbn [stage_eqb orb negb andb].
  - split; [left; reflexivity|]. split; [reflexivity|].
    split; [reflexivity|]. split; [split; discriminate | exact Herr].
  - progress_case 0.
  - progress_case 1.
  - progress_case 2.
  - progress_case 3.
  - destruct r as [r|]; [repeat split|].
    split; [discriminate|]. split; [discriminate|]. split; [reflexivity|].
    split; [discriminate|]. intros _; repeat split.
  - split; [right; reflexivity|]. split; [reflexivity|].
    split; [reflexivity|]. split; [split; reflexivity | exact Herr].
Qed.

End ViewFacts.

(** ** The chat as a whole *)

Module ChatFacts.

Import ChatBot ChatSession ChatClaims JsStringFacts.





Lemma session_always (P : Session -> Prop) (actions : list Action)
  (x : Session) :
  P x -> (forall y a, P y -> P (step y a)) -> P (fold_left step actions x).
Proof.
  intros Hx Hstep; revert x Hx; induction actions as [|a actions IH];
    intros x Hx; cbn [fold_left]; auto.
Qed.




Lemma inert_step (x : Session) (a : Action) : inert x -> inert (step x a).
Proof.
  destruct x as [[h i l c] ob sn]; unfold inert; cbn [ui outbox sent
    history isLoading chatRef]; intros [-> [-> [-> [-> ->]]]].
  destruct a as [v| |key shiftKey|reply]; cbn [step ui outbox].
  - repeat split.
  - rewrite handleSend_start_guard; [repeat split|].
    unfold may_send; cbn [chatRef]; apply andb_false_r.
  - unfold handleKeyPress_start.
    destruct (JsString.eqb key (js "Enter") && negb shiftKey);
      [|repeat split].
    rewrite handleSend_start_guard; [repeat split|].
    unfold may_send; cbn [chatRef]; apply andb_false_r.
  - repeat split.
Qed.


(** X16. Without an API key, or with an empty one, the chat is inert:
    whatever the user does, nothing is sent, the transcript stays empty and
    the spinner never shows. *)
Theorem chat_without_key_is_inert (apiKey : option jsstring)
  (actions : list Action) :
  chatRef (mount apiKey) = false ->
  let x := session apiKey actions in
  sent x = [] /\ history (ui x) = [] /\ isLoading (ui x) = false.
Proof.
  intros Hkey; cbv zeta; unfold session.
  assert (H : inert (fold_left step actions
                       {| ui := mount apiKey; outbox := []; sent := [] |})).
  { apply session_always; [|intros y a; apply inert_step].
    unfold inert; cbn [ui outbox sent]; rewrite Hkey; repeat split. }
  destruct H as [_ [H1 [_ [H2 H3]]]]; auto.
Qed.

Lemma chat_without_key_is_inert_witness :
  let x := session (Some []) impatient in
  sent x = [] /\ history (ui x) = [] /\ isLoading (ui x) = false.
Proof. apply chat_without_key_is_inert; reflexivity. Defined.

(** X17. What a whole call of [handleSend] does. When the input is blank, a
    send is pending or there is no session, nothing changes. Otherwise the
    input as it was typed, not trimmed, is sent and added to the transcript
    as the user's message, followed by the reply as the session gave it, or
    by the fixed apology when the send failed; the input is emptied and the
    loading flag is down again. *)
Theorem handleSend_effect (send : jsstring -> outcome jsstring) (s : State) :
  handleSend send s
  = Some (Ok tt,
          if may_send s then
            {| history :=
                 history s
                 ++ [ {| role := user; msg_text := input s |};
                      match send (input s) with
                      | Ok text => {| role := model; msg_text := text |}
                      | Err _ => errorMessage
                      end ];
               input := []; isLoading := false; chatRef := chatRef s |}
          else s).
Proof.
  unfold handleSend, bind at 1.
  destruct (may_send s) eqn:G.
  - rewrite (handleSend_start_sends _ G), handleSend_resume_run.
    cbn [history input isLoading chatRef]; rewrite <- app_assoc.
    reflexivity.
  - rewrite (handleSend_start_guard _ G); reflexivity.
Qed.

(** With a key, the second Enter and the click find a send pending and do
    nothing; the second reply finds nothing to settle. *)
Example impatient_session :
  let x := session (Some (js "key")) impatient in
  sent x = [js "And then?"]
  /\ history (ui x)
     = [ {| role := user; msg_text := js "And then?" |};
         {| role := model; msg_text := js "Then it ends." |} ]
  /\ input (ui x) = js "Hello?"
  /\ isLoading (ui x) = false.
Proof. vm_compute; repeat split. Qed.

End ChatFacts.
